(** * Expression rewriting of [ibis.expr.analysis]: a shallow embedding

    The development follows [src/ibis/expr/analysis.py]: the substitution
    engine ([Substitutor], [sub_for]), the simplifier ([ExprSimplifier],
    [substitute_parents]), root-table lineage ([_find_root_table],
    [shares_all_roots]), predicate pushdown ([_filter_selection],
    [_PushdownValidate]), projection fusion ([Projector]) and the rewrite of
    scalar reductions ([reduction_to_aggregation]).

    Python objects have an identity that the code observes with [is]; every
    expression object therefore carries an object identifier [oid], new
    objects are allocated from a counter threaded through a small
    state-and-exception monad, and structural equality (Python [==],
    [equals], hashing) ignores the identifiers. *)

From Stdlib Require Import List String ZArith Bool Arith Lia.
Import ListNotations.
Local Open Scope string_scope.
Local Open Scope list_scope.

(** ** Node classes *)

(** The classes of [ibis.expr.operations] the analysis code tests with
    [isinstance]; the remaining classes of each family are kept by name. *)
Inductive OpClass : Type :=
| Literal
| TableColumn
| Alias
| Reduction (fn : string)
| Analytic (fn : string)
| Window
| And
| Any
| NotAny
| ValueOp (nm : string)
| PhysicalTable
| SelfReference
| Selection
| Aggregation
| Join
| TableOp (nm : string)
| PlainNode (nm : string).

Definition OpClass_eq_dec (a b : OpClass) : {a = b} + {a <> b}.
Proof. decide equality; apply string_dec. Defined.

(** [isinstance(op, ops.Value)] *)
Definition is_Value (c : OpClass) : bool :=
  match c with
  | Literal | TableColumn | Alias | Reduction _ | Analytic _ | Window
  | And | Any | NotAny | ValueOp _ => true
  | _ => false
  end.

(** [isinstance(op, ops.TableNode)] *)
Definition is_TableNode (c : OpClass) : bool :=
  match c with
  | PhysicalTable | SelfReference | Selection | Aggregation | Join
  | TableOp _ => true
  | _ => false
  end.

Definition is_Selection (c : OpClass) : bool :=
  match c with Selection => true | _ => false end.

Definition is_PhysicalTable (c : OpClass) : bool :=
  match c with PhysicalTable => true | _ => false end.

Definition is_TableColumn (c : OpClass) : bool :=
  match c with TableColumn => true | _ => false end.

Definition is_Literal (c : OpClass) : bool :=
  match c with Literal => true | _ => false end.

Definition is_Reduction (c : OpClass) : bool :=
  match c with Reduction _ => true | _ => false end.

Definition is_Join (c : OpClass) : bool :=
  match c with Join => true | _ => false end.

(** ** Expressions, nodes and arguments *)

(** The classes of [ibis.expr.types] ([type(expr)]). *)
Inductive ExprType : Type :=
| TableExpr
| ColumnExpr
| ScalarExpr
| BooleanColumn
| BooleanScalar
| OtherExpr.

Definition ExprType_eq_dec (a b : ExprType) : {a = b} + {a <> b}.
Proof. decide equality. Defined.

(** [isinstance(expr, ir.Table)], [ir.Value], [ir.Scalar] *)
Definition is_ir_Table (t : ExprType) : bool :=
  match t with TableExpr => true | _ => false end.

Definition is_ir_Value (t : ExprType) : bool :=
  match t with
  | ColumnExpr | ScalarExpr | BooleanColumn | BooleanScalar => true
  | _ => false
  end.

Definition is_ir_Scalar (t : ExprType) : bool :=
  match t with ScalarExpr | BooleanScalar => true | _ => false end.

(** Arguments that are not expressions: names, literal values. *)
Inductive Atom : Type :=
| AStr (s : string)
| AInt (z : Z).

Definition Atom_eq_dec (a b : Atom) : {a = b} + {a <> b}.
Proof. decide equality; [apply string_dec | apply Z.eq_dec]. Defined.

(** An expression is a typed handle on a node with an optional name; a node
    is a class and its positional arguments; an argument is an expression,
    an atom, [None] or a sequence. *)
#[warnings="-register-all"]
Inductive Expr : Type :=
| MkExpr (oid : nat) (ty : ExprType) (name : option string) (op : Node)
with Node : Type :=
| MkNode (cls : OpClass) (args : list Arg)
with Arg : Type :=
| AExpr (e : Expr)
| AVal (a : Atom)
| ANone
| ASeq (l : list Arg).

Definition oid (e : Expr) : nat := match e with MkExpr o _ _ _ => o end.
Definition ty (e : Expr) : ExprType := match e with MkExpr _ t _ _ => t end.
Definition name (e : Expr) : option string :=
  match e with MkExpr _ _ n _ => n end.
Definition op (e : Expr) : Node := match e with MkExpr _ _ _ n => n end.
Definition cls (n : Node) : OpClass := match n with MkNode c _ => c end.
Definition args (n : Node) : list Arg := match n with MkNode _ a => a end.

(** Induction over the three mutually defined types, with [Forall] on the
    argument lists. *)
Section ExprInduction.
Variables (P : Expr -> Prop) (Q : Node -> Prop) (R : Arg -> Prop).
Hypothesis HExpr : forall o t nm n, Q n -> P (MkExpr o t nm n).
Hypothesis HNode : forall c l, Forall R l -> Q (MkNode c l).
Hypothesis HAExpr : forall e, P e -> R (AExpr e).
Hypothesis HAVal : forall a, R (AVal a).
Hypothesis HANone : R ANone.
Hypothesis HASeq : forall l, Forall R l -> R (ASeq l).

Fixpoint Expr_induction (e : Expr) : P e :=
  match e with
  | MkExpr o t nm n => HExpr o t nm n (Node_induction n)
  end
with Node_induction (n : Node) : Q n :=
  match n with
  | MkNode c l =>
      HNode c l
        ((fix go (l : list Arg) : Forall R l :=
            match l with
            | [] => Forall_nil R
            | a :: l' => Forall_cons a (Arg_induction a) (go l')
            end) l)
  end
with Arg_induction (a : Arg) : R a :=
  match a with
  | AExpr e => HAExpr e (Expr_induction e)
  | AVal v => HAVal v
  | ANone => HANone
  | ASeq l =>
      HASeq l
        ((fix go (l : list Arg) : Forall R l :=
            match l with
            | [] => Forall_nil R
            | a :: l' => Forall_cons a (Arg_induction a) (go l')
            end) l)
  end.
End ExprInduction.

(** ** Structural equality *)

(** [strip] forgets the object identifiers: two expressions are structurally
    equal when their stripped forms coincide. *)
Fixpoint strip (e : Expr) : Expr :=
  match e with
  | MkExpr _ t nm n => MkExpr 0 t nm (strip_node n)
  end
with strip_node (n : Node) : Node :=
  match n with
  | MkNode c l => MkNode c (map strip_arg l)
  end
with strip_arg (a : Arg) : Arg :=
  match a with
  | AExpr e => AExpr (strip e)
  | AVal v => AVal v
  | ANone => ANone
  | ASeq l => ASeq (map strip_arg l)
  end.

Fixpoint Expr_eq_dec (a b : Expr) {struct a} : {a = b} + {a <> b}
with Node_eq_dec (a b : Node) {struct a} : {a = b} + {a <> b}
with Arg_eq_dec (a b : Arg) {struct a} : {a = b} + {a <> b}.
Proof.
  - decide equality;
      first [ apply Nat.eq_dec | apply ExprType_eq_dec
            | decide equality; apply string_dec ].
  - decide equality;
      first [ apply OpClass_eq_dec | apply (list_eq_dec Arg_eq_dec) ].
  - decide equality;
      first [ apply Atom_eq_dec | apply (list_eq_dec Arg_eq_dec) ].
Defined.

(** [fresh_for n e]: every object of [e] was allocated before the counter
    reached [n]. *)
Fixpoint fresh_for (n : nat) (e : Expr) : bool :=
  match e with
  | MkExpr o _ _ nd => Nat.ltb o n && node_fresh_for n nd
  end
with node_fresh_for (n : nat) (nd : Node) : bool :=
  match nd with
  | MkNode _ l => forallb (arg_fresh_for n) l
  end
with arg_fresh_for (n : nat) (a : Arg) : bool :=
  match a with
  | AExpr e => fresh_for n e
  | ASeq l => forallb (arg_fresh_for n) l
  | _ => true
  end.

(** [node.flat_args()]: the arguments of a node with the sequences
    flattened; only the expressions among them matter to the walks below. *)
Fixpoint arg_exprs (a : Arg) : list Expr :=
  match a with
  | AExpr e => [e]
  | ASeq l => flat_map arg_exprs l
  | _ => []
  end.

Definition flat_args (n : Node) : list Expr := flat_map arg_exprs (args n).

(** [SubExprAt p e x]: [x] is the subexpression of [e] reached by the path
    [p], a list of positions in the flattened arguments. *)
Inductive SubExprAt : list nat -> Expr -> Expr -> Prop :=
| SubExprAt_here : forall e, SubExprAt [] e e
| SubExprAt_child : forall i p e c x,
    nth_error (flat_args (op e)) i = Some c ->
    SubExprAt p c x ->
    SubExprAt (i :: p) e x.

(** Nesting depth and size of an expression. *)
Fixpoint depth (e : Expr) : nat :=
  match e with
  | MkExpr _ _ _ nd => S (node_depth nd)
  end
with node_depth (nd : Node) : nat :=
  match nd with
  | MkNode _ l => list_max (map arg_depth l)
  end
with arg_depth (a : Arg) : nat :=
  match a with
  | AExpr e => depth e
  | ASeq l => list_max (map arg_depth l)
  | _ => 0
  end.

Fixpoint size (e : Expr) : nat :=
  match e with
  | MkExpr _ _ _ nd => S (node_size nd)
  end
with node_size (nd : Node) : nat :=
  match nd with
  | MkNode _ l => list_sum (map arg_size l)
  end
with arg_size (a : Arg) : nat :=
  match a with
  | AExpr e => size e
  | ASeq l => list_sum (map arg_size l)
  | _ => 0
  end.

(** Python [a is b] on expression objects. *)
Definition is_ (a b : Expr) : bool := Nat.eqb (oid a) (oid b).

(** Node equality and hashing are structural. *)
Definition node_eqb (a b : Node) : bool :=
  if Node_eq_dec (strip_node a) (strip_node b) then true else false.

(** [expr._key]: the type, the name and the node of an expression. *)
Definition _key (e : Expr) : Expr := strip e.

Definition key_eqb (a b : Expr) : bool :=
  if Expr_eq_dec a b then true else false.

(** [expr.equals(other)]: the underlying nodes are structurally equal. *)
Definition equals (a b : Expr) : bool := node_eqb (op a) (op b).

(** ** Exceptions, results and the allocation monad *)

Inductive Exc : Type :=
| IbisTypeError
| ExpressionError
| AttributeError
| IndexError
| AssertionError
| RecursionError
| OtherError (msg : string).

Inductive Result (A : Type) : Type :=
| Ok (a : A)
| Raise (x : Exc).
Arguments Ok {A} a.
Arguments Raise {A} x.

(** A computation reads the next free object identifier and returns a value
    with the updated counter, or raises. *)
Definition M (A : Type) : Type := nat -> Result (A * nat).

Definition ret {A} (a : A) : M A := fun n => Ok (a, n).

Definition raise {A} (x : Exc) : M A := fun _ => Raise x.

Definition bind {A B} (m : M A) (f : A -> M B) : M B :=
  fun n =>
    match m n with
    | Ok (a, n') => f a n'
    | Raise x => Raise x
    end.

Definition lift_result {A} (r : Result A) : M A :=
  fun n => match r with Ok a => Ok (a, n) | Raise x => Raise x end.

Notation "x <- c ;; k" := (bind c (fun x => k))
  (at level 61, c at next level, right associativity).
Notation "' pat <- c ;; k" :=
  (bind c (fun x => match x with pat => k end))
  (at level 61, pat pattern, c at next level, right associativity).

(** [type(expr)(node)] and [node.to_expr()] create a new, unnamed object. *)
Definition alloc (t : ExprType) (nm : option string) (n : Node) : M Expr :=
  fun next => Ok (MkExpr next t nm n, S next).

(** [expr.has_name()], [expr.get_name()], [expr.name(nm)] *)
Definition has_name (e : Expr) : bool :=
  match name e with Some _ => true | None => false end.

Definition get_name (e : Expr) : Result string :=
  match name e with Some s => Ok s | None => Raise ExpressionError end.

Definition rename (e : Expr) (nm : string) : M Expr :=
  alloc (ty e) (Some nm) (op e).

(** ** Field access on nodes *)

(** Positional argument [i] of a node, read as an expression, a string or
    a sequence of expressions; a node without such a field raises
    [AttributeError]. *)
Definition arg_expr (n : Node) (i : nat) : Result Expr :=
  match nth_error (args n) i with
  | Some (AExpr e) => Ok e
  | _ => Raise AttributeError
  end.

Definition arg_str (n : Node) (i : nat) : Result string :=
  match nth_error (args n) i with
  | Some (AVal (AStr s)) => Ok s
  | _ => Raise AttributeError
  end.

Definition arg_seq (n : Node) (i : nat) : Result (list Arg) :=
  match nth_error (args n) i with
  | Some (ASeq l) => Ok l
  | _ => Raise AttributeError
  end.

(** [val.op()] on an element of a sequence: only expressions have it. *)
Definition as_expr (a : Arg) : Result Expr :=
  match a with
  | AExpr e => Ok e
  | _ => Raise AttributeError
  end.

(** [Selection(table, selections, predicates, sort_keys)] and
    [TableColumn(table, name)] *)
Definition node_table (n : Node) : Result Expr := arg_expr n 0.
Definition node_name (n : Node) : Result string := arg_str n 1.
Definition node_selections (n : Node) : Result (list Arg) := arg_seq n 1.
Definition node_predicates (n : Node) : Result (list Arg) := arg_seq n 2.
Definition node_sort_keys (n : Node) : Result (list Arg) := arg_seq n 3.

Definition Selection_args (table : Expr)
  (selections predicates sort_keys : list Arg) : list Arg :=
  [AExpr table; ASeq selections; ASeq predicates; ASeq sort_keys].

(** ** Dictionaries keyed by nodes and by expression keys *)

Definition Mapping : Type := list (Node * Expr).

Fixpoint mapping_get (m : Mapping) (k : Node) : option Expr :=
  match m with
  | [] => None
  | (k', v) :: m' => if node_eqb k' k then Some v else mapping_get m' k
  end.

Definition mapping_set (m : Mapping) (k : Node) (v : Expr) : Mapping :=
  (k, v) :: m.

Definition Cache : Type := list (Expr * Expr).

Fixpoint cache_get (c : Cache) (k : Expr) : option Expr :=
  match c with
  | [] => None
  | (k', v) :: c' => if key_eqb k' k then Some v else cache_get c' k
  end.

Definition cache_set (c : Cache) (k : Expr) (v : Expr) : Cache :=
  (k, v) :: c.

(** ** Graph traversal *)

(** Modelled from the spec: [lin.traverse], [lin.proceed] and [lin.halt]
    of [ibis.expr.lineage], which is outside of the analysis module
    (section 4.1).  The walk is depth first over the flattened arguments
    of a node, in their order; the visitor answers with a control signal
    and an optional result; [halt] stops the descent below the node, whose
    own result is still yielded; with [dedup] a node already seen (nodes
    compare structurally) is skipped; only expressions of the requested
    type are visited.  The sequence is lazy: [stop] tells after which
    result its consumer takes nothing more. *)
Inductive Control : Type :=
| proceed
| halt.

Definition Visitor (R : Type) : Type := Expr -> M (Control * option R).

Record Walk (R : Type) : Type := MkWalk {
  seen : list Node;
  yielded : list R;
  stopped : bool
}.
Arguments MkWalk {R} seen yielded stopped.
Arguments seen {R} w.
Arguments yielded {R} w.
Arguments stopped {R} w.

Definition was_seen (n : Node) (l : list Node) : bool :=
  existsb (node_eqb n) l.

Section Traverse.

Context {R : Type}.
Variable fn : Visitor R.
Variable type_ok : ExprType -> bool.
Variable dedup : bool.
Variable stop : R -> bool.

(** The state after the visitor answered [result] at the node [nd]. *)
Definition visited (nd : Node) (result : option R) (st : Walk R)
  : Walk R :=
  MkWalk (if dedup then nd :: seen st else seen st)
         (match result with
          | Some r => yielded st ++ [r]
          | None => yielded st
          end)
         (match result with
          | Some r => stop r
          | None => false
          end).

Fixpoint walk_expr (e : Expr) (st : Walk R) {struct e} : M (Walk R) :=
  match e with
  | MkExpr _ t _ nd =>
      if stopped st then ret st
      else if negb (type_ok t) then ret st
      else if dedup && was_seen nd (seen st) then ret st
      else
        ' (control, result) <- fn e ;;
        let st1 := visited nd result st in
        if stopped st1 then ret st1
        else
          match control with
          | halt => ret st1
          | proceed => walk_node nd st1
          end
  end
with walk_node (nd : Node) (st : Walk R) {struct nd} : M (Walk R) :=
  match nd with
  | MkNode _ l =>
      (fix walk_args (l : list Arg) (st : Walk R) : M (Walk R) :=
         match l with
         | [] => ret st
         | a :: l' => st' <- walk_arg a st ;; walk_args l' st'
         end) l st
  end
with walk_arg (a : Arg) (st : Walk R) {struct a} : M (Walk R) :=
  match a with
  | AExpr e => walk_expr e st
  | ASeq l =>
      (fix walk_args (l : list Arg) (st : Walk R) : M (Walk R) :=
         match l with
         | [] => ret st
         | a :: l' => st' <- walk_arg a st ;; walk_args l' st'
         end) l st
  | _ => ret st
  end.

Fixpoint walk_list (l : list Expr) (st : Walk R) : M (Walk R) :=
  match l with
  | [] => ret st
  | e :: l' => st' <- walk_expr e st ;; walk_list l' st'
  end.

(** [lin.traverse(fn, roots, type=..., dedup=...)], consumed up to the
    first result that satisfies [stop]. *)
Definition traverse (roots : list Expr) : M (list R) :=
  st <- walk_list roots (MkWalk [] [] false) ;;
  ret (yielded st).

End Traverse.

(** ** The expression library

    Parts of [ibis.expr.operations] and [ibis.expr.types] that the analysis
    code calls and that are defined outside of it: [node.blocks()], the
    argument validation run by every node constructor (it answers with the
    exception it raises), the class test [isinstance(op, HasSchema)], the
    column names of [expr.schema()], the expression type chosen by
    [node.to_expr()], [node.root_tables()], the identity test [is] on node
    objects (nodes carry no identifier here), and the table methods
    [_ensure_expr], [aggregate], [cross_join], [projection], [__getitem__]
    and [to_array]. *)
Record Library : Type := {
  blocks : Node -> bool;
  validate : OpClass -> list Arg -> option Exc;
  is_HasSchema : OpClass -> bool;
  schema : Expr -> list string;
  output_type : Node -> ExprType;
  root_tables : Node -> list Node;
  node_is : Node -> Node -> bool;
  _ensure_expr : Expr -> Expr -> M Expr;
  Table_aggregate : Expr -> list Expr -> M Expr;
  Table_cross_join : Expr -> Expr -> M Expr;
  Table_projection : Expr -> list Expr -> M Expr;
  Table_getitem : Expr -> string -> M Expr;
  Table_to_array : Expr -> M Expr
}.

Section Analysis.

Variable lib : Library.

(** [type(node)( *args )] *)
Definition new_node (c : OpClass) (a : list Arg) : Result Node :=
  match validate lib c a with
  | Some x => Raise x
  | None => Ok (MkNode c a)
  end.

(** [node.to_expr()] *)
Definition to_expr (n : Node) : M Expr := alloc (output_type lib n) None n.

(** *** Substitutor *)

(** [toolz.memoize(key=lambda args, kwargs: args[0]._key)] around a
    function of the expression; the dictionary is the [cache]. *)
Definition memoize (f : Expr -> Cache -> M (Expr * Cache))
  (e : Expr) (cache : Cache) : M (Expr * Cache) :=
  match cache_get cache (_key e) with
  | Some r => ret (r, cache)
  | None =>
      ' (r, cache') <- f e cache ;;
      ret (r, cache_set cache' (_key e) r)
  end.

(** The loop [for i, arg in enumerate(new_args)] of [_substitute]. *)
Fixpoint substitute_args (sub : Expr -> Cache -> M (Expr * Cache))
  (new_args : list Arg) (unchanged : bool) (cache : Cache)
  : M (list Arg * bool * Cache) :=
  match new_args with
  | [] => ret ([], unchanged, cache)
  | AExpr arg :: rest =>
      ' (new_arg, cache1) <- sub arg cache ;;
      ' (rest', u, cache2) <-
        substitute_args sub rest (unchanged && is_ new_arg arg) cache1 ;;
      ret (AExpr new_arg :: rest', u, cache2)
  | a :: rest =>
      ' (rest', u, cache1) <- substitute_args sub rest unchanged cache ;;
      ret (a :: rest', u, cache1)
  end.

(** [Substitutor._substitute]; [fuel] bounds the depth of the Python
    recursion. *)
Fixpoint _substitute (fuel : nat) (mapping : Mapping) (expr : Expr)
  (cache : Cache) {struct fuel} : M (Expr * Cache) :=
  match fuel with
  | 0 => raise RecursionError
  | S fuel' =>
      let node := op expr in
      match mapping_get mapping node with
      | Some v => ret (v, cache)
      | None =>
          if blocks lib node then ret (expr, cache)
          else
            ' (new_args, unchanged, cache') <-
              substitute_args (memoize (_substitute fuel' mapping))
                (args node) true cache ;;
            if unchanged then ret (expr, cache')
            else
              match new_node (cls node) new_args with
              | Raise IbisTypeError => ret (expr, cache')
              | Raise x => raise x
              | Ok new_node =>
                  new_expr <- alloc (ty expr) None new_node ;;
                  match name expr with
                  | Some nm =>
                      new_expr' <- rename new_expr nm ;;
                      ret (new_expr', cache')
                  | None => ret (new_expr, cache')
                  end
              end
      end
  end.

(** [self.substitute = cache(self._substitute)] *)
Definition substitute (fuel : nat) (mapping : Mapping)
  : Expr -> Cache -> M (Expr * Cache) :=
  memoize (_substitute fuel mapping).

(** [Substitutor().substitute(expr, mapping)]: a new cache per
    substitutor. *)
Definition Substitutor_substitute (fuel : nat) (expr : Expr)
  (mapping : Mapping) : M Expr :=
  ' (r, _) <- substitute fuel mapping expr [] ;;
  ret r.

(** [sub_for(expr, substitutions)] *)
Definition sub_for (fuel : nat) (expr : Expr)
  (substitutions : list (Expr * Expr)) : M Expr :=
  let mapping :=
    fold_left (fun m kv => mapping_set m (op (fst kv)) (snd kv))
      substitutions [] in
  Substitutor_substitute fuel expr mapping.

(** *** ExprSimplifier *)

(** [ExprSimplifier.lift]; [_sub expr block] stands for
    [ExprSimplifier(expr, block_projection=block).get_result()]. *)
Definition lift (_sub : Expr -> bool -> M Expr) (expr : Expr)
  (block : bool) : M Expr :=
  let op := op expr in
  if is_Value (cls op) then _sub expr block
  else if is_Selection (cls op) then ret expr
  else if is_TableNode (cls op) || is_HasSchema lib (cls op) then ret expr
  else _sub expr block.

(** The closure [_lift] of [_lift_arg]; [changed] is its counter. *)
Definition _lift (_sub : Expr -> bool -> M Expr) (block : bool)
  (expr : Arg) (changed : nat) : M (Arg * nat) :=
  match expr with
  | AExpr e =>
      lifted_arg <- lift _sub e block ;;
      ret (AExpr lifted_arg,
           changed + (if is_ lifted_arg e then 0 else 1))
  | _ => ret (expr, changed)
  end.

(** [list(map(_lift, arg))] *)
Fixpoint map_lift (_sub : Expr -> bool -> M Expr) (block : bool)
  (l : list Arg) (changed : nat) : M (list Arg * nat) :=
  match l with
  | [] => ret ([], changed)
  | x :: l' =>
      ' (x', changed1) <- _lift _sub block x changed ;;
      ' (l'', changed2) <- map_lift _sub block l' changed1 ;;
      ret (x' :: l'', changed2)
  end.

(** [ExprSimplifier._lift_arg]: sequences are the iterable arguments. *)
Definition _lift_arg (_sub : Expr -> bool -> M Expr) (arg : Arg)
  (block : bool) : M (Arg * bool) :=
  match arg with
  | ANone => ret (ANone, true)
  | ASeq l =>
      ' (result, changed) <- map_lift _sub block l 0 ;;
      ret (ASeq result, Nat.eqb changed 0)
  | _ =>
      ' (result, changed) <- _lift _sub block arg 0 ;;
      ret (result, Nat.eqb changed 0)
  end.

(** The loop [for val in root.selections] of [_lift_TableColumn]; the
    state is [lifted_root], set exactly when [can_lift] is. *)
Fixpoint lift_selections (_sub : Expr -> bool -> M Expr) (node : Node)
  (selections : list Arg) (lifted_root : option Expr)
  : M (option Expr) :=
  match selections with
  | [] => ret lifted_root
  | a :: rest =>
      val <- lift_result (as_expr a) ;;
      let value_op := op val in
      if is_PhysicalTable (cls value_op) then
        nm <- lift_result (node_name node) ;;
        if existsb (String.eqb nm) (schema lib val) then
          r <- lift _sub val false ;;
          lift_selections _sub node rest (Some r)
        else lift_selections _sub node rest lifted_root
      else lift_selections _sub node rest lifted_root
  end.

(** [ExprSimplifier._lift_TableColumn] *)
Definition _lift_TableColumn (_sub : Expr -> bool -> M Expr)
  (expr : Expr) (block : bool) : M Expr :=
  let node := op expr in
  table <- lift_result (node_table node) ;;
  let root := op table in
  if is_Selection (cls root) then
    selections <- lift_result (node_selections root) ;;
    can_lift <- lift_selections _sub node selections None ;;
    match can_lift with
    | Some lifted_root =>
        if negb block then
          nm <- lift_result (node_name node) ;;
          lifted_node <-
            lift_result
              (new_node TableColumn [AExpr lifted_root; AVal (AStr nm)]) ;;
          alloc (ty expr) None lifted_node
        else ret expr
    | None => ret expr
    end
  else ret expr.

(** The loop [for arg in node.args] of [get_result]. *)
Fixpoint lift_args (_sub : Expr -> bool -> M Expr) (block : bool)
  (l : list Arg) (unchanged : bool) : M (list Arg * bool) :=
  match l with
  | [] => ret ([], unchanged)
  | arg :: rest =>
      ' (lifted_arg, unch_arg) <- _lift_arg _sub arg block ;;
      ' (lifted_rest, u) <-
        lift_args _sub block rest (unchanged && unch_arg) ;;
      ret (lifted_arg :: lifted_rest, u)
  end.

(** The tail of [get_result], after the class tests. *)
Definition rewrite_args (_sub : Expr -> bool -> M Expr)
  (block_projection : bool) (expr : Expr) : M Expr :=
  let node := op expr in
  ' (lifted_args, unchanged) <-
    lift_args _sub block_projection (args node) true ;;
  if unchanged then ret expr
  else
    lifted_node <- lift_result (new_node (cls node) lifted_args) ;;
    result <- alloc (ty expr) None lifted_node ;;
    if is_ir_Value (ty expr) && has_name expr then
      nm <- lift_result (get_name expr) ;;
      rename result nm
    else ret result.

(** [ExprSimplifier(expr, block_projection).get_result()]; [fuel] bounds
    the depth of the Python recursion. *)
Fixpoint get_result (fuel : nat) (expr : Expr) (block_projection : bool)
  {struct fuel} : M Expr :=
  match fuel with
  | 0 => raise RecursionError
  | S fuel' =>
      let _sub := get_result fuel' in
      let node := op expr in
      if is_Literal (cls node) then ret expr
      else if is_TableColumn (cls node) then
        result <- _lift_TableColumn _sub expr block_projection ;;
        if negb (is_ result expr) then ret result
        else rewrite_args _sub block_projection expr
      else if is_Selection (cls node) then ret expr
      else rewrite_args _sub block_projection expr
  end.

(** [substitute_parents(expr, past_projection=...)] *)
Definition substitute_parents (fuel : nat) (expr : Expr)
  (past_projection : bool) : M Expr :=
  get_result fuel expr (negb past_projection).

(** [isinstance(arg, ir.Expr)]: no restriction on the type. *)
Definition any_type (t : ExprType) : bool := true.

(** A consumer that takes the whole sequence: [list], [set]. *)
Definition take_all {R : Type} (r : R) : bool := false.

(** *** Root tables *)

(** [_find_root_table] *)
Definition _find_root_table (expr : Expr) : M (Control * option Node) :=
  let op := op expr in
  if is_Selection (cls op) then
    table <- lift_result (node_table op) ;;
    selections <- lift_result (node_selections op) ;;
    n <- lift_result
           (new_node Selection (Selection_args table selections [] [])) ;;
    ret (proceed, Some n)
  else if blocks lib op then ret (halt, Some op)
  else ret (proceed, None).

(** [a <= b] and [a & b] on sets of nodes. *)
Definition node_subset (a b : list Node) : bool :=
  forallb (fun x => was_seen x b) a.

Definition node_meet (a b : list Node) : bool :=
  existsb (fun x => was_seen x b) a.

(** [shares_all_roots(exprs, parents)]; a single expression is passed as
    a list of one. *)
Definition shares_all_roots (exprs parents : list Expr) : M bool :=
  exprs_deps <- traverse _find_root_table any_type true take_all exprs ;;
  parents_deps <- traverse _find_root_table any_type true take_all parents ;;
  ret (node_subset exprs_deps parents_deps).

(** [shares_some_roots(exprs, parents)] *)
Definition shares_some_roots (exprs parents : list Expr) : M bool :=
  exprs_deps <- traverse _find_root_table any_type true take_all exprs ;;
  parents_deps <- traverse _find_root_table any_type true take_all parents ;;
  ret (node_meet exprs_deps parents_deps).

(** [find_immediate_parent_tables]; [toolz.unique] keeps the first of the
    expressions with one key. *)
Definition finder (expr : Expr) : M (Control * option Expr) :=
  if is_ir_Table (ty expr) then ret (halt, Some expr)
  else ret (proceed, None).

Fixpoint unique (l : list Expr) (seen : list Expr) : list Expr :=
  match l with
  | [] => []
  | e :: l' =>
      if existsb (key_eqb (_key e)) seen then unique l' seen
      else e :: unique l' (_key e :: seen)
  end.

Definition find_immediate_parent_tables (expr : Expr) : M (list Expr) :=
  l <- traverse finder any_type true take_all [expr] ;;
  ret (unique l []).

(** [is_reduction]: [any] stops at the first true result. *)
Definition is_reduction_predicate (expr : Expr)
  : M (Control * option bool) :=
  if is_Reduction (cls (op expr)) then ret (halt, Some true)
  else if is_TableNode (cls (op expr)) then ret (halt, None)
  else ret (proceed, None).

Definition is_reduction (expr : Expr) : M bool :=
  l <- traverse is_reduction_predicate any_type true (fun b => b) [expr] ;;
  ret (existsb (fun b => b) l).

(** [is_scalar_reduction] *)
Definition is_scalar_reduction (expr : Expr) : M bool :=
  if is_ir_Scalar (ty expr) then is_reduction expr else ret false.

(** *** Predicate pushdown *)

(** The loop [for val in self.parent.selections] of
    [_PushdownValidate._validate_projection]; the state is [is_valid]. *)
Fixpoint validate_selections (fuel : nat) (expr : Expr)
  (selections : list Arg) (is_valid : bool) : M bool :=
  match selections with
  | [] => ret is_valid
  | a :: rest =>
      let node := op expr in
      val <- lift_result (as_expr a) ;;
      in_schema <-
        (if is_PhysicalTable (cls (op val)) then
           nm <- lift_result (node_name node) ;;
           ret (existsb (String.eqb nm) (schema lib val))
         else ret false) ;;
      if in_schema then validate_selections fuel expr rest true
      else
        same_name <-
          (if is_TableColumn (cls (op val)) then
             nm <- lift_result (node_name node) ;;
             val_name <- lift_result (get_name val) ;;
             ret (String.eqb nm val_name)
           else ret false) ;;
        if same_name then
          val_table <- lift_result (node_table (op val)) ;;
          let col_table := op val_table in
          lifted <- substitute_parents fuel expr false ;;
          let lifted_node := op lifted in
          table <- lift_result (node_table node) ;;
          if node_eqb col_table (op table) then
            validate_selections fuel expr rest true
          else
            lifted_table <- lift_result (node_table lifted_node) ;;
            validate_selections fuel expr rest
              (node_eqb col_table (op lifted_table))
        else validate_selections fuel expr rest is_valid
  end.

(** [_PushdownValidate._validate_projection] *)
Definition _validate_projection (fuel : nat) (parent : Node) (expr : Expr)
  : M bool :=
  selections <- lift_result (node_selections parent) ;;
  validate_selections fuel expr selections false.

(** The closure [validate] of [_PushdownValidate.get_result]. *)
Definition validate_column (fuel : nat) (parent : Node) (expr : Expr)
  : M (Control * option bool) :=
  if is_TableColumn (cls (op expr)) then
    v <- _validate_projection fuel parent expr ;;
    ret (proceed, Some v)
  else ret (proceed, None).

(** [_PushdownValidate(parent, predicate).get_result()]; [all] stops at
    the first false result. *)
Definition PushdownValidate_get_result (fuel : nat) (parent : Node)
  (pred : Expr) : M bool :=
  reduction <- is_reduction pred ;;
  if reduction then ret false
  else
    l <- traverse (validate_column fuel parent) is_ir_Value true negb
           [pred] ;;
    ret (forallb (fun b => b) l).

(** [_can_pushdown] *)
Fixpoint _can_pushdown (fuel : nat) (op : Node) (predicates : list Expr)
  : M bool :=
  match predicates with
  | [] => ret true
  | pred :: rest =>
      predicate_is_valid <- PushdownValidate_get_result fuel op pred ;;
      if negb predicate_is_valid then ret false
      else _can_pushdown fuel op rest
  end.

(** [tuple(f(x) for x in predicates)] *)
Fixpoint map_M {A B : Type} (f : A -> M B) (l : list A) : M (list B) :=
  match l with
  | [] => ret []
  | x :: l' =>
      y <- f x ;;
      l'' <- map_M f l' ;;
      ret (y :: l'')
  end.

(** [_filter_selection] *)
Definition _filter_selection (fuel : nat) (expr : Expr)
  (predicates : list Expr) : M Expr :=
  let op := op expr in
  let pushdown :=
    can_pushdown <- _can_pushdown fuel op predicates ;;
    result <-
      (if can_pushdown then
         simplified_predicates <-
           map_M (fun x => substitute_parents fuel x true) predicates ;;
         op_predicates <- lift_result (node_predicates op) ;;
         let fused_predicates :=
           op_predicates ++ map AExpr simplified_predicates in
         table <- lift_result (node_table op) ;;
         selections <- lift_result (node_selections op) ;;
         sort_keys <- lift_result (node_sort_keys op) ;;
         lift_result
           (new_node Selection
              (Selection_args table selections fused_predicates
                 sort_keys))
       else
         lift_result
           (new_node Selection
              (Selection_args expr [] (map AExpr predicates) []))) ;;
    to_expr result in
  if negb (blocks lib op) then
    simplified_predicates <-
      map_M (fun predicate =>
               reduction <- is_reduction predicate ;;
               if negb reduction then
                 table <- lift_result (node_table op) ;;
                 sub_for fuel predicate [(expr, table)]
               else ret predicate)
            predicates ;;
    table <- lift_result (node_table op) ;;
    shares <- shares_all_roots simplified_predicates [table] ;;
    if shares then
      table <- lift_result (node_table op) ;;
      op_predicates <- lift_result (node_predicates op) ;;
      sort_keys <- lift_result (node_sort_keys op) ;;
      result <-
        lift_result
          (new_node Selection
             (Selection_args table []
                (op_predicates ++ map AExpr simplified_predicates)
                sort_keys)) ;;
      to_expr result
    else pushdown
  else pushdown.

(** *** Projection fusion *)

(** The fields of a [Projector] as [__init__] leaves them. *)
Record Projector : Type := MkProjector {
  parent : Expr;
  input_exprs : list Expr;
  resolved_exprs : list Expr;
  parent_roots : list Node;
  clean_exprs : list Expr
}.

(** [any(not a.equals(b) for a, b in zip(resolved, clean_exprs))] *)
Fixpoint any_differs (resolved clean : list Expr) : bool :=
  match resolved, clean with
  | a :: r, b :: c => negb (equals a b) || any_differs r c
  | _, _ => false
  end.

(** The loop [for root_sel in root_selections] of the [*] projection. *)
Fixpoint splice_selections (root_table : Expr) (root_selections : list Arg)
  (fused_exprs : list Arg) (have_root : bool) : M (list Arg * bool) :=
  match root_selections with
  | [] => ret (fused_exprs, have_root)
  | a :: rest =>
      root_sel <- lift_result (as_expr a) ;;
      if equals root_sel root_table then
        splice_selections root_table rest
          (fused_exprs ++ [AExpr root_table]) true
      else
        splice_selections root_table rest (fused_exprs ++ [a]) have_root
  end.

(** The test of the [*] projection in [try_fusion]. *)
Definition is_star (parent_op : Node) (roots : list Node) (val : Expr)
  : M bool :=
  if is_ir_Table (ty val) then
    if node_eqb parent_op (op val) then ret true
    else if Nat.eqb (List.length roots) 1 then
      match root_tables lib (op val), roots with
      | r0 :: _, q0 :: _ => ret (node_is lib r0 q0)
      | _, _ => raise IndexError
      end
    else ret false
  else ret false.

(** The loop [for val in resolved] of [try_fusion]; the state is
    [fused_exprs] and [can_fuse], and [break] ends it. *)
Fixpoint fuse_loop (fuel : nat) (parent_op : Node) (root_table : Expr)
  (roots : list Node) (root_selections : list Arg) (resolved : list Expr)
  (fused_exprs : list Arg) (can_fuse : bool) : M (list Arg * bool) :=
  match resolved with
  | [] => ret (fused_exprs, can_fuse)
  | val :: rest =>
      lifted_val <- substitute_parents fuel val false ;;
      star <- is_star parent_op roots val ;;
      if star then
        ' (fused, have_root) <-
          splice_selections root_table root_selections fused_exprs false ;;
        let fused' :=
          if negb have_root
             && (match root_selections with [] => true | _ => false end)
          then AExpr root_table :: fused
          else fused in
        fuse_loop fuel parent_op root_table roots root_selections rest
          fused' true
      else
        lifted_shares <- shares_all_roots [lifted_val] [root_table] ;;
        if lifted_shares then
          fuse_loop fuel parent_op root_table roots root_selections rest
            (fused_exprs ++ [AExpr lifted_val]) true
        else
          val_shares <- shares_all_roots [val] [root_table] ;;
          if negb val_shares then ret (fused_exprs, false)
          else
            fuse_loop fuel parent_op root_table roots root_selections rest
              (fused_exprs ++ [AExpr val]) can_fuse
  end.

(** [try: resolved = [root_table._ensure_expr(expr) for ...]]: the list,
    or [None] when [AttributeError] or [IbisTypeError] was caught. *)
Definition ensure_exprs (root_table : Expr) (exprs : list Expr)
  : M (option (list Expr)) :=
  fun n =>
    match map_M (_ensure_expr lib root_table) exprs n with
    | Ok (l, n') => Ok (Some l, n')
    | Raise AttributeError => Ok (None, n)
    | Raise IbisTypeError => Ok (None, n)
    | Raise x => Raise x
    end.

(** The candidates of [try_fusion], its list [resolved]: the input
    expressions resolved against the root table, or the clean expressions
    when the root table is a join or the resolution failed; [None] when
    [try_fusion] returns early because a resolved expression differs from
    the clean one. *)
Definition resolve_candidates (self : Projector) (root_table : Expr)
  : M (option (list Expr)) :=
  if negb (is_Join (cls (op root_table))) then
    resolved <- ensure_exprs root_table (input_exprs self) ;;
    match resolved with
    | None => ret (Some (clean_exprs self))
    | Some resolved =>
        if any_differs resolved (clean_exprs self) then ret None
        else ret (Some resolved)
    end
  else ret (Some (clean_exprs self)).

(** The rest of [try_fusion], from [if not resolved] on. *)
Definition fuse (fuel : nat) (self : Projector) (root : Node)
  (root_table : Expr) (roots : list Node) (resolved : list Expr)
  : M (option Node) :=
  match resolved with
  | [] => ret None
  | _ =>
      root_selections <- lift_result (node_selections root) ;;
      let parent_op := op (parent self) in
      ' (fused_exprs, can_fuse) <-
        fuse_loop fuel parent_op root_table roots root_selections
          resolved [] false ;;
      if can_fuse then
        predicates <- lift_result (node_predicates root) ;;
        sort_keys <- lift_result (node_sort_keys root) ;;
        n <- lift_result
               (new_node Selection
                  (Selection_args root_table fused_exprs predicates
                     sort_keys)) ;;
        ret (Some n)
      else ret None
  end.

(** [Projector.try_fusion]; the answer [None] means no fusion. *)
Definition try_fusion (fuel : nat) (self : Projector) (root : Node)
  : M (option Node) :=
  if negb (node_eqb (op (parent self)) root) then raise AssertionError
  else
    root_table <- lift_result (node_table root) ;;
    let roots := root_tables lib (op root_table) in
    resolved <- resolve_candidates self root_table ;;
    match resolved with
    | None => ret None
    | Some resolved => fuse fuel self root root_table roots resolved
    end.

(** [Projector.get_result] *)
Definition Projector_get_result (fuel : nat) (self : Projector) : M Node :=
  let roots := parent_roots self in
  match roots with
  | [] => raise IndexError
  | first_root :: _ =>
      let wrap :=
        lift_result
          (new_node Selection
             (Selection_args (parent self)
                (map AExpr (clean_exprs self)) [] [])) in
      if Nat.eqb (List.length roots) 1 && is_Selection (cls first_root) then
        fused_op <- try_fusion fuel self first_root ;;
        match fused_op with
        | Some n => ret n
        | None => wrap
        end
      else wrap
  end.

(** *** Scalar reductions *)

(** [has_multiple_bases] *)
Definition has_multiple_bases (expr : Expr) : M bool :=
  tables <- find_immediate_parent_tables expr ;;
  ret (Nat.ltb 1 (List.length tables)).

(** [ScalarAggregate._visit]; [tables] is [self.tables], and
    [reduction_to_aggregation] is the function it is mutually recursive
    with. *)
Fixpoint _visit (reduction_to_aggregation : Expr -> M Expr) (fuel : nat)
  (expr : Arg) (tables : list Expr) {struct fuel}
  : M (Arg * list Expr) :=
  match fuel with
  | 0 => raise RecursionError
  | S fuel' =>
      match expr with
      | AExpr e =>
          scalar <- is_scalar_reduction e ;;
          unit <-
            (if scalar then
               multiple <- has_multiple_bases e ;;
               ret (negb multiple)
             else ret false) ;;
          if unit then
            e1 <- (if negb (has_name e) then rename e "tmp" else ret e) ;;
            agg_expr <- reduction_to_aggregation e1 ;;
            nm <- lift_result (get_name e1) ;;
            col <- Table_getitem lib agg_expr nm ;;
            ret (AExpr col, tables ++ [agg_expr])
          else
            let node := op e in
            ' (subbed_args, tables1) <-
              (fix visit_args (l : list Arg) (tables : list Expr)
                 : M (list Arg * list Expr) :=
                 match l with
                 | [] => ret ([], tables)
                 | ASeq s :: rest =>
                     ' (s', tables1) <-
                       (fix visit_seq (s : list Arg) (tables : list Expr)
                          : M (list Arg * list Expr) :=
                          match s with
                          | [] => ret ([], tables)
                          | x :: s0 =>
                              ' (x', tables1) <-
                                _visit reduction_to_aggregation fuel' x
                                  tables ;;
                              ' (s1, tables2) <- visit_seq s0 tables1 ;;
                              ret (x' :: s1, tables2)
                          end) s tables ;;
                     ' (rest', tables2) <- visit_args rest tables1 ;;
                     ret (ASeq s' :: rest', tables2)
                 | arg :: rest =>
                     ' (arg', tables1) <-
                       _visit reduction_to_aggregation fuel' arg tables ;;
                     ' (rest', tables2) <- visit_args rest tables1 ;;
                     ret (arg' :: rest', tables2)
                 end) (args node) tables ;;
            new_op <- lift_result (new_node (cls node) subbed_args) ;;
            new_expr <- to_expr new_op ;;
            new_expr' <-
              (if has_name e then
                 nm <- lift_result (get_name e) ;;
                 rename new_expr nm
               else ret new_expr) ;;
            ret (AExpr new_expr', tables1)
      | _ => ret (expr, tables)
      end
  end.

(** [ScalarAggregate(expr).get_result()] *)
Definition ScalarAggregate_get_result
  (reduction_to_aggregation : Expr -> M Expr) (fuel : nat) (expr : Expr)
  : M Expr :=
  ' (subbed_expr, tables) <-
    _visit reduction_to_aggregation fuel (AExpr expr) [] ;;
  match tables with
  | [] => raise IndexError
  | table :: others =>
      table' <-
        fold_left
          (fun acc other => t <- acc ;; Table_cross_join lib t other)
          others (ret table) ;;
      subbed <- lift_result (as_expr subbed_expr) ;;
      Table_projection lib table' [subbed]
  end.

(** [reduction_to_aggregation] *)
Fixpoint reduction_to_aggregation (fuel : nat) (expr : Expr)
  {struct fuel} : M Expr :=
  match fuel with
  | 0 => raise RecursionError
  | S fuel' =>
      tables <- find_immediate_parent_tables expr ;;
      match tables with
      | [table] => Table_aggregate lib table [expr]
      | _ =>
          ScalarAggregate_get_result (reduction_to_aggregation fuel')
            fuel' expr
      end
  end.

(** [_rewrite_filter_reduction(_, expr, name)] *)
Definition _rewrite_filter_reduction (fuel : nat) (expr : Expr)
  (nm : option string) : M Expr :=
  expr1 <-
    (match nm with
     | Some nm => rename expr nm
     | None => ret expr
     end) ;;
  aggregation <- reduction_to_aggregation fuel expr1 ;;
  Table_to_array lib aggregation.

End Analysis.

(** ** Auxiliary definitions for the proofs *)

(** A computation that never raises [IbisTypeError]. *)
Definition never_type_error {A} (m : M A) : Prop :=
  forall n, m n <> Raise IbisTypeError.

(** The loop of [_lift_TableColumn] without the monad: lifting a physical
    table returns the table itself, so the loop neither allocates nor
    depends on the recursive call. *)
Fixpoint find_lift (lib : Library) (node : Node) (selections : list Arg)
  (lifted_root : option Expr) : Result (option Expr) :=
  match selections with
  | [] => Ok lifted_root
  | a :: rest =>
      match as_expr a with
      | Raise x => Raise x
      | Ok val =>
          if is_PhysicalTable (cls (op val)) then
            match node_name node with
            | Raise x => Raise x
            | Ok nm =>
                if existsb (String.eqb nm) (schema lib val)
                then find_lift lib node rest (Some val)
                else find_lift lib node rest lifted_root
            end
          else find_lift lib node rest lifted_root
      end
  end.

(** The decision of [_lift_TableColumn]: [Ok None] when the expression is
    returned as it is, [Ok (Some node)] when a lifted column node is
    built. *)
Definition column_lift (lib : Library) (e : Expr) (block : bool)
  : Result (option Node) :=
  match node_table (op e) with
  | Raise x => Raise x
  | Ok table =>
      if is_Selection (cls (op table)) then
        match node_selections (op table) with
        | Raise x => Raise x
        | Ok selections =>
            match find_lift lib (op e) selections None with
            | Raise x => Raise x
            | Ok None => Ok None
            | Ok (Some lifted_root) =>
                if negb block then
                  match node_name (op e) with
                  | Raise x => Raise x
                  | Ok nm =>
                      match new_node lib TableColumn
                              [AExpr lifted_root; AVal (AStr nm)] with
                      | Raise x => Raise x
                      | Ok nd => Ok (Some nd)
                      end
                  end
                else Ok None
            end
        end
      else Ok None
  end.

(** Lifting an expression that is already lifted returns the object itself
    and allocates nothing. *)
Definition Stable (lib : Library) (fuel : nat) (block : bool) (x : Expr)
  : Prop :=
  forall k, get_result lib fuel x block k = Ok (x, k).

Definition StableLift (lib : Library) (fuel : nat) (block : bool) (x : Expr)
  : Prop :=
  forall k, lift lib (get_result lib fuel) x block k = Ok (x, k).

Definition StableElem (lib : Library) (fuel : nat) (block : bool) (a : Arg)
  : Prop :=
  forall c k, _lift lib (get_result lib fuel) block a c k = Ok (a, c, k).

Definition StableArg (lib : Library) (fuel : nat) (block : bool) (a : Arg)
  : Prop :=
  forall k, _lift_arg lib (get_result lib fuel) a block k = Ok (a, true, k).

(** What one call of the simplifier guarantees about its result [r] for the
    input [e], when it starts with the counter at [n]: the result is the
    input object or a new object that differs from it structurally; the
    class is kept; the result is stable. *)
Definition Lifted (lib : Library) (fuel : nat) (block : bool)
  (n : nat) (e r : Expr) (n' : nat) : Prop :=
  n <= n'
  /\ (r = e \/ (n <= oid r /\ strip r <> strip e))
  /\ cls (op r) = cls (op e)
  /\ Stable lib fuel block r.

(** How the argument loop of the simplifier relates an argument and its
    lifted form. *)
Definition ArgRel (a a' : Arg) : Prop :=
  match a with
  | AExpr x =>
      exists r, a' = AExpr r /\ cls (op r) = cls (op x)
                /\ (is_Selection (cls (op x)) = true -> r = x)
  | ASeq _ => exists s, a' = ASeq s
  | _ => a' = a
  end.

(** Node constructors raise nothing but [IbisTypeError]. *)
Definition only_type_errors (lib : Library) : Prop :=
  forall c a x, validate lib c a = Some x -> x = IbisTypeError.

(** Every cached result is structurally equal to the key it is stored
    under. *)
Definition cache_structural (c : Cache) : Prop :=
  forall k v, cache_get c k = Some v -> strip v = k.

(** Structurally equal subexpressions of [root] are one object. *)
Definition shared (root : Expr) : Prop :=
  forall p q x y,
    SubExprAt p root x -> SubExprAt q root y -> strip x = strip y -> x = y.

(** Every cached result is an object of [root], stored under its own
    key. *)
Definition cache_within (root : Expr) (c : Cache) : Prop :=
  forall k v,
    cache_get c k = Some v -> (exists p, SubExprAt p root v) /\ strip v = k.

(** A specification of a substitution function [f]: from a cache that
    satisfies [I] and an expression that satisfies [Pre], a result [r]
    satisfies [P e r] and leaves a cache that satisfies [I]. *)
Definition SubSpec (I : Cache -> Prop) (Pre : Expr -> Prop)
  (P : Expr -> Expr -> Prop) (f : Expr -> Cache -> M (Expr * Cache))
  : Prop :=
  forall e c n r c' n',
    I c -> Pre e -> f e c n = Ok (r, c', n') -> P e r /\ I c'.

(** An argument and its substituted form. *)
Definition ArgSub (P : Expr -> Expr -> Prop) (a a' : Arg) : Prop :=
  match a with
  | AExpr x => exists r, a' = AExpr r /\ P x r
  | _ => a' = a
  end.

(** [f] returns the expression it is given, allocates nothing and keeps
    the cache within [root]. *)
Definition returns_itself (root : Expr)
  (f : Expr -> Cache -> M (Expr * Cache)) (e : Expr) : Prop :=
  forall c n,
    cache_within root c ->
    exists c', f e c n = Ok (e, c', n) /\ cache_within root c'.

(** [Keeps b e r]: wherever [e] holds a subexpression structurally equal to
    [b], [r] holds one at the same path. *)
Definition Keeps (b e r : Expr) : Prop :=
  forall p x,
    SubExprAt p e x -> strip x = strip b ->
    exists x', SubExprAt p r x' /\ strip x' = strip b.

Definition cache_keeps (b : Expr) (c : Cache) : Prop :=
  forall k v, cache_get c k = Some v -> Keeps b k v.

(** [blocks()] depends on the structure of a node only. *)
Definition blocks_structural (lib : Library) : Prop :=
  forall n1 n2, strip_node n1 = strip_node n2 -> blocks lib n1 = blocks lib n2.

(** Every key of the mapping is the node of an expression strictly inside
    [b]. *)
Definition keys_strictly_inside (mapping : Mapping) (b : Expr) : Prop :=
  forall k v,
    In (k, v) mapping ->
    exists q x,
      q <> [] /\ SubExprAt q b x /\ strip_node (op x) = strip_node k.

(** ** What a walk yields *)

(** [Yield g type_ok r e]: a walk from [e] that skips nothing reaches an
    expression at which the visitor, here the function [g], answers with
    the result [r]. *)
Inductive Yield {R : Type} (g : Expr -> Result (Control * option R))
  (type_ok : ExprType -> bool) : R -> Expr -> Prop :=
| Yield_here : forall e c r,
    type_ok (ty e) = true ->
    g e = Ok (c, Some r) ->
    Yield g type_ok r e
| Yield_child : forall e o c r,
    type_ok (ty e) = true ->
    g e = Ok (proceed, o) ->
    In c (flat_args (op e)) ->
    Yield g type_ok r c ->
    Yield g type_ok r e.

Definition opt_rel {R : Type} (eqR : R -> R -> Prop) (a b : option R)
  : Prop :=
  match a, b with
  | Some x, Some y => eqR x y
  | None, None => True
  | _, _ => False
  end.

(** The visitor answers alike on structurally equal nodes. *)
Definition structural_visitor {R : Type} (eqR : R -> R -> Prop)
  (g : Expr -> Result (Control * option R)) : Prop :=
  forall x y cx rx cy ry,
    strip_node (op x) = strip_node (op y) ->
    g x = Ok (cx, rx) ->
    g y = Ok (cy, ry) ->
    cx = cy /\ opt_rel eqR rx ry.

(** [Reaches g type_ok Q r e]: a walk from [e] that skips nothing reaches
    an expression [x] with [Q x r]; it goes below the expressions of the
    requested type at which the visitor answers [proceed]. *)
Inductive Reaches {R T : Type} (g : Expr -> Result (Control * option R))
  (type_ok : ExprType -> bool) (Q : Expr -> T -> Prop) : T -> Expr -> Prop :=
| Reaches_here : forall e r,
    type_ok (ty e) = true ->
    Q e r ->
    Reaches g type_ok Q r e
| Reaches_child : forall e o c r,
    type_ok (ty e) = true ->
    g e = Ok (proceed, o) ->
    In c (flat_args (op e)) ->
    Reaches g type_ok Q r c ->
    Reaches g type_ok Q r e.

(** The visitor answers with the same control signal on structurally equal
    nodes. *)
Definition same_control {R : Type} (g : Expr -> Result (Control * option R))
  : Prop :=
  forall x y cx rx cy ry,
    strip_node (op x) = strip_node (op y) ->
    g x = Ok (cx, rx) ->
    g y = Ok (cy, ry) ->
    cx = cy.

(** Everything that a walk from an expression on the node [nd] reaches is
    recorded in the state [st]; [Rec] says what recorded means. *)
Definition CompleteNode {R T : Type} (Rec : Walk R -> T -> Prop)
  (g : Expr -> Result (Control * option R)) (type_ok : ExprType -> bool)
  (Q : Expr -> T -> Prop) (nd : Node) (st : Walk R) : Prop :=
  forall y r,
    strip_node (op y) = strip_node nd ->
    Reaches g type_ok Q r y ->
    Rec st r.

(** The invariant of a walk with deduplication: the nodes seen whose size
    is below [B] (those not on the current path) are complete. *)
Definition WalkInv {R T : Type} (Rec : Walk R -> T -> Prop)
  (g : Expr -> Result (Control * option R)) (type_ok : ExprType -> bool)
  (Q : Expr -> T -> Prop) (B : nat) (st : Walk R) : Prop :=
  forall nd,
    In nd (seen st) -> node_size nd < B ->
    CompleteNode Rec g type_ok Q nd st.

(** A part of a walk, from the state [st] to the state [st']: the
    invariant holds again, nothing seen or yielded is lost, every node it
    adds has a size below [Bnew], every result it adds is one of
    [from]. *)
Definition WalkStep {R T : Type} (Rec : Walk R -> T -> Prop)
  (g : Expr -> Result (Control * option R)) (type_ok : ExprType -> bool)
  (Q : Expr -> T -> Prop) (B Bnew : nat) (from : R -> Prop)
  (st st' : Walk R) : Prop :=
  WalkInv Rec g type_ok Q B st'
  /\ incl (seen st) (seen st')
  /\ incl (yielded st) (yielded st')
  /\ (forall nd, In nd (seen st') -> In nd (seen st) \/ node_size nd < Bnew)
  /\ (forall r, In r (yielded st') -> In r (yielded st) \/ from r).

(** The node of [e] was seen. *)
Definition seen_node {R : Type} (st : Walk R) (e : Expr) : Prop :=
  exists nd, In nd (seen st) /\ strip_node nd = strip_node (op e).

(** The walk specification, for the expressions of size at most [k]. *)
Definition walk_expr_ok {R T : Type} (Rec : Walk R -> T -> Prop)
  (g : Expr -> Result (Control * option R)) (fn : Visitor R)
  (type_ok : ExprType -> bool) (stop : R -> bool) (Q : Expr -> T -> Prop)
  (k : nat) : Prop :=
  forall e st n st' n' B,
    size e <= k ->
    walk_expr fn type_ok true stop e st n = Ok (st', n') ->
    stopped st' = false ->
    node_size (op e) < B ->
    WalkInv Rec g type_ok Q B st ->
    n' = n
    /\ WalkStep Rec g type_ok Q B (S (node_size (op e)))
         (fun r => Yield g type_ok r e) st st'
    /\ (type_ok (ty e) = true -> seen_node st' e).

(** A result is recorded when the walk yielded one that [eqR] relates to
    it; an expression is recorded when its node was seen. *)
Definition yielded_upto {R : Type} (eqR : R -> R -> Prop) (st : Walk R)
  (r : R) : Prop :=
  exists r', In r' (yielded st) /\ eqR r' r.

Definition answers {R : Type} (g : Expr -> Result (Control * option R))
  (e : Expr) (r : R) : Prop :=
  exists c, g e = Ok (c, Some r).

Definition is_it (e x : Expr) : Prop := x = e.

(** A walk stops only at a result that satisfies [stop]. *)
Definition stops_at_result {R : Type} (stop : R -> bool) (st st' : Walk R)
  : Prop :=
  stopped st' = true ->
  stopped st = true \/ exists r, In r (yielded st') /\ stop r = true.

(** ** Root tables *)

(** The answer of [_find_root_table], which allocates nothing. *)
Definition root_answer (lib : Library) (expr : Expr)
  : Result (Control * option Node) :=
  if is_Selection (cls (op expr)) then
    match node_table (op expr) with
    | Raise x => Raise x
    | Ok table =>
        match node_selections (op expr) with
        | Raise x => Raise x
        | Ok selections =>
            match new_node lib Selection
                    (Selection_args table selections [] []) with
            | Raise x => Raise x
            | Ok n => Ok (proceed, Some n)
            end
        end
    end
  else if blocks lib (op expr) then Ok (halt, Some (op expr))
  else Ok (proceed, None).

(** Structural equality of nodes. *)
Definition node_equiv (a b : Node) : Prop := strip_node a = strip_node b.

(** [RootOf lib r e]: the walk of [_find_root_table] from [e] reaches the
    root [r]. *)
Definition RootOf (lib : Library) (r : Node) (e : Expr) : Prop :=
  Yield (root_answer lib) any_type r e.

(** The two lists hold the same nodes, up to structural equality. *)
Definition same_roots (a b : list Node) : Prop :=
  (forall r, In r a -> exists r', In r' b /\ node_equiv r' r)
  /\ (forall r, In r b -> exists r', In r' a /\ node_equiv r' r).

(** Every root reached from one of [extra] is reached from one of
    [base]. *)
Definition roots_covered (lib : Library) (extra base : list Expr) : Prop :=
  forall c r,
    In c extra -> RootOf lib r c ->
    exists c' r', In c' base /\ RootOf lib r' c' /\ node_equiv r' r.

(** ** Computations that allocate nothing *)

(** [Agree ma mb a b]: from any counter, [ma] returns [a] and [mb] returns
    [b], both without allocating, or both raise the same exception. *)
Definition Agree {A B : Type} (ma : M A) (mb : M B) (a : A) (b : B) : Prop :=
  ((forall n, ma n = Ok (a, n)) /\ (forall m, mb m = Ok (b, m)))
  \/ (exists e, (forall n, ma n = Raise e) /\ (forall m, mb m = Raise e)).

(** Two results agree when both are values or both are the same
    exception. *)
Definition same_outcome {A B : Type} (ra : Result A) (rb : Result B)
  : Prop :=
  match ra, rb with
  | Ok _, Ok _ => True
  | Raise x, Raise y => x = y
  | _, _ => False
  end.

(** [Same ma mb]: the two computations allocate nothing and have the same
    outcome, a value or an exception. *)
Definition Same {A : Type} (ma mb : M A) : Prop :=
  exists r,
    (forall n, ma n = lift_result r n) /\ (forall m, mb m = lift_result r m).

(** ** Predicate pushdown *)

(** The answer of the visitor of [_PushdownValidate.get_result], which
    allocates nothing. *)
Definition column_answer (lib : Library) (fuel : nat) (parent : Node)
  (expr : Expr) : Result (Control * option bool) :=
  match validate_column lib fuel parent expr 0 with
  | Ok (a, _) => Ok a
  | Raise x => Raise x
  end.

(** The answer of the visitor of [is_reduction]. *)
Definition reduction_answer (expr : Expr) : Result (Control * option bool) :=
  if is_Reduction (cls (op expr)) then Ok (halt, Some true)
  else if is_TableNode (cls (op expr)) then Ok (halt, None)
  else Ok (proceed, None).

(** [Inside type_ok e x]: [x] is [e] or is reached from [e] through the
    flattened arguments of expressions of the requested type, and is of
    that type. *)
Inductive Inside (type_ok : ExprType -> bool) : Expr -> Expr -> Prop :=
| Inside_here : forall e, type_ok (ty e) = true -> Inside type_ok e e
| Inside_child : forall e c x,
    type_ok (ty e) = true ->
    In c (flat_args (op e)) ->
    Inside type_ok c x ->
    Inside type_ok e x.

(** [AboveTables e x]: [x] is [e] or is reached from [e] through the
    flattened arguments of expressions that are neither reductions nor
    tables. *)
Definition AboveTables (e x : Expr) : Prop :=
  Reaches reduction_answer any_type is_it x e.

(** The column [x] is, by its name, a column of the physical table [val]. *)
Definition column_of_physical_table (lib : Library) (x val : Expr) : Prop :=
  is_PhysicalTable (cls (op val)) = true
  /\ exists nm,
       node_name (op x) = Ok nm
       /\ existsb (String.eqb nm) (schema lib val) = true.

(** The expression [val] is a column with the name of the column [x], and
    the two columns are columns of one table. *)
Definition same_column_entry (x val : Expr) : Prop :=
  is_TableColumn (cls (op val)) = true
  /\ exists nm val_table table,
       node_name (op x) = Ok nm
       /\ get_name val = Ok nm
       /\ node_table (op val) = Ok val_table
       /\ node_table (op x) = Ok table
       /\ node_equiv (op val_table) (op table).

(** An expression was recorded when a node equal to its node was seen and
    the visitor answered on it. *)
Definition visited_ok {R : Type} (g : Expr -> Result (Control * option R))
  (st : Walk R) (x : Expr) : Prop :=
  seen_node st x /\ exists a, g x = Ok a.

(** ** Projection fusion *)

(** [substitute_parents(val, past_projection=False)] returns, whatever the
    counter of fresh identities is. *)
Definition lifts (lib : Library) (fuel : nat) (val : Expr) : Prop :=
  forall n, exists r n', substitute_parents lib fuel val false n = Ok (r, n').

(** The candidate [val] is no [*] projection and does not share all its
    roots with the root table. *)
Definition aborts (lib : Library) (parent_op : Node) (roots : list Node)
  (root_table val : Expr) : Prop :=
  (forall n, is_star lib parent_op roots val n = Ok (false, n))
  /\ (forall n, shares_all_roots lib [val] [root_table] n = Ok (false, n)).

(** ** The other functions of the analysis module *)

Definition is_And (c : OpClass) : bool :=
  match c with And => true | _ => false end.

Definition is_Analytic (c : OpClass) : bool :=
  match c with Analytic _ => true | _ => false end.

Definition is_Window (c : OpClass) : bool :=
  match c with Window => true | _ => false end.

Definition is_Aggregation (c : OpClass) : bool :=
  match c with Aggregation => true | _ => false end.

Definition is_Alias (c : OpClass) : bool :=
  match c with Alias => true | _ => false end.

(** [isinstance(expr, ir.BooleanColumn)] *)
Definition is_ir_BooleanColumn (t : ExprType) : bool :=
  match t with BooleanColumn => true | _ => false end.

(** A consumer that takes one result: [next]. *)
Definition take_first {R : Type} (r : R) : bool := true.

(** [Aggregation(table, metrics, by, having, predicates, sort_keys)] *)
Definition node_metrics (n : Node) : Result (list Arg) := arg_seq n 1.
Definition node_by (n : Node) : Result (list Arg) := arg_seq n 2.
Definition node_having (n : Node) : Result (list Arg) := arg_seq n 3.
Definition node_agg_predicates (n : Node) : Result (list Arg) := arg_seq n 4.
Definition node_agg_sort_keys (n : Node) : Result (list Arg) := arg_seq n 5.

Definition Aggregation_args (table : Expr)
  (metrics by_ having predicates sort_keys : list Arg) : list Arg :=
  [AExpr table; ASeq metrics; ASeq by_; ASeq having; ASeq predicates;
   ASeq sort_keys].

(** [Alias(arg, name)] *)
Definition node_arg (n : Node) : Result Expr := arg_expr n 0.

Section MoreAnalysis.

Variable lib : Library.

(** *** Searches *)

(** [find_first_base_table]: [None] stands for [StopIteration]. *)
Definition first_base_table_predicate (expr : Expr)
  : M (Control * option Expr) :=
  if is_TableNode (cls (op expr)) then ret (halt, Some expr)
  else ret (proceed, None).

Definition find_first_base_table (expr : Expr) : M (option Expr) :=
  l <- traverse first_base_table_predicate any_type true take_first
         [expr] ;;
  ret (hd_error l).

(** [flatten_predicate] *)
Definition flatten_predicate_predicate (expr : Expr)
  : M (Control * option Expr) :=
  if is_And (cls (op expr)) then ret (proceed, None)
  else ret (halt, Some expr).

Definition flatten_predicate (expr : Expr) : M (list Expr) :=
  traverse flatten_predicate_predicate is_ir_BooleanColumn true take_all
    [expr].

(** [_is_ancestor] *)
Definition _is_ancestor_predicate (child : Node) (expr : Expr)
  : M (Control * option bool) :=
  if node_eqb (op expr) child then ret (halt, Some true)
  else ret (proceed, None).

Definition _is_ancestor (parent child : Node) : M bool :=
  e <- to_expr lib parent ;;
  l <- traverse (_is_ancestor_predicate child) any_type true
         (fun b => b) [e] ;;
  ret (existsb (fun b => b) l).

(** [is_analytic] *)
Definition is_analytic_predicate (expr : Expr)
  : M (Control * option bool) :=
  if is_Reduction (cls (op expr)) || is_Analytic (cls (op expr))
  then ret (halt, Some true)
  else ret (proceed, None).

Definition is_analytic (expr : Expr) : M bool :=
  l <- traverse is_analytic_predicate any_type true (fun b => b) [expr] ;;
  ret (existsb (fun b => b) l).

(** [find_predicates] *)
Definition find_predicates_predicate (flatten : bool) (expr : Expr)
  : M (Control * option Expr) :=
  if is_ir_BooleanColumn (ty expr) then
    if flatten && is_And (cls (op expr)) then ret (proceed, None)
    else ret (halt, Some expr)
  else ret (proceed, None).

Definition find_predicates (expr : Expr) (flatten : bool) : M (list Expr) :=
  traverse (find_predicates_predicate flatten) any_type true take_all
    [expr].

(** *** Filters *)

(** [apply_filter] *)
Definition apply_filter (fuel : nat) (expr : Expr) (predicates : list Expr)
  : M Expr :=
  let op := op expr in
  let wrap :=
    match predicates with
    | [] => ret expr
    | _ =>
        result <-
          lift_result
            (new_node lib Selection
               (Selection_args expr [] (map AExpr predicates) [])) ;;
        to_expr lib result
    end in
  if is_Selection (cls op) then _filter_selection lib fuel expr predicates
  else if is_Aggregation (cls op) then
    simplified_predicates <-
      map_M (fun predicate =>
               reduction <- is_reduction predicate ;;
               if negb reduction then
                 table <- lift_result (node_table op) ;;
                 sub_for lib fuel predicate [(table, expr)]
               else ret predicate)
            predicates ;;
    table <- lift_result (node_table op) ;;
    shares <- shares_all_roots lib simplified_predicates [table] ;;
    if shares then
      table <- lift_result (node_table op) ;;
      metrics <- lift_result (node_metrics op) ;;
      by_ <- lift_result (node_by op) ;;
      having <- lift_result (node_having op) ;;
      op_predicates <- lift_result (node_agg_predicates op) ;;
      sort_keys <- lift_result (node_agg_sort_keys op) ;;
      result <-
        lift_result
          (new_node lib Aggregation
             (Aggregation_args table metrics by_ having
                (op_predicates ++ map AExpr simplified_predicates)
                sort_keys)) ;;
      alloc TableExpr None result
    else wrap
  else wrap.

End MoreAnalysis.

(** ** Rewriting filters *)

(** [NotImplementedError] and the [ValueError] of an unpacking. *)
Definition NotImplementedError : Exc := OtherError "NotImplementedError".
Definition ValueError : Exc := OtherError "ValueError".

(** The classes [ExistsSubquery] and [NotExistsSubquery], which are kept
    by name. *)
Definition is_ExistsSubquery (c : OpClass) : bool :=
  match c with
  | ValueOp nm =>
      String.eqb nm "ExistsSubquery" || String.eqb nm "NotExistsSubquery"
  | _ => false
  end.

(** The implementations registered for [_rewrite_filter]:
    [_rewrite_filter_reduction], [_rewrite_filter_subqueries],
    [_rewrite_filter_alias], [_rewrite_filter_value], and the default
    one, which raises. *)
Inductive FilterRewrite : Type :=
| rewrite_reduction
| rewrite_subqueries
| rewrite_alias
| rewrite_value
| rewrite_default.

(** [map(operator.is_, visited, args)] under [all]: arguments that are no
    expressions are passed on as they are. *)
Fixpoint all_is (visited args : list Arg) : bool :=
  match visited, args with
  | AExpr v :: vs, AExpr a :: rest => is_ v a && all_is vs rest
  | _ :: vs, _ :: rest => all_is vs rest
  | _, _ => true
  end.

Section RewriteFilter.

Variable lib : Library.

(** [issubclass(ops.NotAny, ops.Any)]: the class hierarchy is outside
    of the analysis module, and [NotAny] has no registration of its
    own. *)
Variable NotAny_isa_Any : bool.

(** The choice of [functools.singledispatch] for the class of a node:
    the registered class that is nearest in its ancestry. *)
Definition _rewrite_filter_dispatch (c : OpClass) : FilterRewrite :=
  match c with
  | Reduction _ => rewrite_reduction
  | Any | TableColumn | Literal | Window => rewrite_subqueries
  | Alias => rewrite_alias
  | NotAny => if NotAny_isa_Any then rewrite_subqueries else rewrite_value
  | _ =>
      if is_ExistsSubquery c then rewrite_subqueries
      else if is_Value c then rewrite_value
      else rewrite_default
  end.

(** [_rewrite_filter(op, expr, name=...)] with its implementations;
    [fuel] bounds the depth of the Python recursion. *)
Fixpoint _rewrite_filter (fuel : nat) (node : Node) (expr : Expr)
  (nm : option string) {struct fuel} : M Expr :=
  match fuel with
  | 0 => raise RecursionError
  | S fuel' =>
      match _rewrite_filter_dispatch (cls node) with
      | rewrite_reduction => _rewrite_filter_reduction lib fuel' expr nm
      | rewrite_subqueries => ret expr
      | rewrite_alias =>
          arg <- lift_result (node_arg node) ;;
          nm' <-
            (match nm with
             | Some nm => ret nm
             | None => lift_result (node_name node)
             end) ;;
          _rewrite_filter fuel' (op arg) arg (Some nm')
      | rewrite_value =>
          visited <-
            (fix visit (l : list Arg) : M (list Arg) :=
               match l with
               | [] => ret []
               | AExpr arg :: rest =>
                   v <- _rewrite_filter fuel' (op arg) arg nm ;;
                   vs <- visit rest ;;
                   ret (AExpr v :: vs)
               | a :: rest =>
                   vs <- visit rest ;;
                   ret (a :: vs)
               end) (args node) ;;
          if all_is visited (args node) then ret expr
          else
            new_op <- lift_result (new_node lib (cls node) visited) ;;
            new_expr <- to_expr lib new_op ;;
            new_name <-
              (if negb (has_name expr) then ret "tmp"
               else lift_result (get_name expr)) ;;
            rename new_expr new_name
      | rewrite_default => raise NotImplementedError
      end
  end.

End RewriteFilter.

(** ** Window functions *)

(** [Window(expr, window)] *)
Definition node_window (n : Node) : Result Arg :=
  match nth_error (args n) 1 with
  | Some a => Ok a
  | None => Raise AttributeError
  end.

(** The windows of [ibis.expr.window], which are arguments of nodes and
    no expressions: the default window [window()], [expr.over(w)] and
    [w.combine(w')]. *)
Record Windows : Type := {
  window : Arg;
  over : Expr -> Arg -> M Expr;
  combine : Arg -> Arg -> Arg
}.

Section Windowize.

Variable lib : Library.
Variable win : Windows.

(** The closure [_walk] of [windowize_function]; [_windowize] is the
    closure it is mutually recursive with. *)
Definition _walk (_windowize : Expr -> option Arg -> M Expr) (x : Expr)
  (w : option Arg) : M Expr :=
  ' (windowed_args, unchanged) <-
    (fix walk_args (l : list Arg) (unchanged : bool)
       : M (list Arg * bool) :=
       match l with
       | [] => ret ([], unchanged)
       | AExpr arg :: rest =>
           if negb (is_ir_Value (ty arg)) then
             ' (rest', u) <- walk_args rest unchanged ;;
             ret (AExpr arg :: rest', u)
           else
             new_arg <- _windowize arg w ;;
             ' (rest', u) <-
               walk_args rest (unchanged && is_ arg new_arg) ;;
             ret (AExpr new_arg :: rest', u)
       | a :: rest =>
           ' (rest', u) <- walk_args rest unchanged ;;
           ret (a :: rest', u)
       end) (args (op x)) true ;;
  if negb unchanged then
    new_op <- lift_result (new_node lib (cls (op x)) windowed_args) ;;
    expr <- to_expr lib new_op ;;
    if has_name x then
      nm <- lift_result (get_name x) ;;
      rename expr nm
    else ret expr
  else ret x.

(** The closure [_windowize] of [windowize_function]; [fuel] bounds the
    depth of the Python recursion. *)
Fixpoint _windowize (fuel : nat) (x : Expr) (w : option Arg)
  {struct fuel} : M Expr :=
  match fuel with
  | 0 => raise RecursionError
  | S fuel' =>
      walked <-
        (if negb (is_Window (cls (op x))) then
           _walk (_windowize fuel') x w
         else
           match args (op x) with
           | [window_arg; window_w] =>
               window_arg <- lift_result (as_expr window_arg) ;;
               walked_child <- _walk (_windowize fuel') window_arg w ;;
               if negb (is_ walked_child window_arg) then
                 new_op <-
                   lift_result
                     (new_node lib Window [AExpr walked_child; window_w]) ;;
                 new_expr <- to_expr lib new_op ;;
                 nm <- lift_result (get_name x) ;;
                 rename new_expr nm
               else ret x
           | _ => raise ValueError
           end) ;;
      let node := op walked in
      if is_Analytic (cls node) || is_Reduction (cls node) then
        over win walked
          (match w with None => window win | Some w => w end)
      else if is_Window (cls node) then
        match w with
        | Some w =>
            node_w <- lift_result (node_window node) ;;
            over win walked (combine win w node_w)
        | None => ret walked
        end
      else ret walked
  end.

(** [windowize_function(expr, w=None)] *)
Definition windowize_function (fuel : nat) (expr : Expr)
  (w : option Arg) : M Expr :=
  _windowize fuel expr w.

End Windowize.

(** ** Mutations *)

(** The dictionary [overwriting_cols_to_expr]; a later entry for a key
    stands before the earlier ones. *)
Definition Overwrites : Type := list (string * option Expr).

Fixpoint overwrites_get (d : Overwrites) (k : string)
  : option (option Expr) :=
  match d with
  | [] => None
  | (k', v) :: d' => if String.eqb k' k then Some v else overwrites_get d' k
  end.

Section Mutation.

Variable lib : Library.

(** [isinstance(expr, ir.DestructColumn)] and [expr.type().names], of
    [ibis.expr.types] and [ibis.expr.datatypes]. *)
Variable is_DestructColumn : Expr -> bool.
Variable destruct_names : Expr -> list string.

(** The loop [for name in expr.type().names] of [get_mutation_exprs];
    the state is the dictionary, [is_first_overwrite] and
    [expr_contains_overwrite]. *)
Fixpoint destruct_loop (table_schema : list string) (expr : Expr)
  (names : list string) (d : Overwrites)
  (is_first_overwrite expr_contains_overwrite : bool)
  : Overwrites * bool :=
  match names with
  | [] => (d, expr_contains_overwrite)
  | nm :: rest =>
      if existsb (String.eqb nm) table_schema then
        if is_first_overwrite then
          destruct_loop table_schema expr rest ((nm, Some expr) :: d)
            false true
        else
          destruct_loop table_schema expr rest ((nm, None) :: d)
            is_first_overwrite true
      else
        destruct_loop table_schema expr rest d is_first_overwrite
          expr_contains_overwrite
  end.

(** The loop [for expr in exprs]; the state is the dictionary and
    [non_overwriting_exprs]. *)
Fixpoint mutation_loop (table_schema : list string) (exprs : list Expr)
  (d : Overwrites) (non_overwriting_exprs : list Expr)
  : Result (Overwrites * list Expr) :=
  match exprs with
  | [] => Ok (d, non_overwriting_exprs)
  | expr :: rest =>
      if is_DestructColumn expr then
        if has_name expr then Raise ExpressionError
        else
          let '(d', expr_contains_overwrite) :=
            destruct_loop table_schema expr (destruct_names expr) d
              true false in
          mutation_loop table_schema rest d'
            (if negb expr_contains_overwrite
             then non_overwriting_exprs ++ [expr]
             else non_overwriting_exprs)
      else if is_ir_Value (ty expr) then
        match get_name expr with
        | Raise x => Raise x
        | Ok nm =>
            if existsb (String.eqb nm) table_schema then
              mutation_loop table_schema rest ((nm, Some expr) :: d)
                non_overwriting_exprs
            else
              mutation_loop table_schema rest d
                (non_overwriting_exprs ++ [expr])
        end
      else
        mutation_loop table_schema rest d (non_overwriting_exprs ++ [expr])
  end.

(** The comprehension over [table.columns]: [table[column]], the
    default of [get], is evaluated for the test and again for the
    element. *)
Fixpoint mutation_columns (table : Expr) (d : Overwrites)
  (columns : list string) : M (list Expr) :=
  match columns with
  | [] => ret []
  | column :: rest =>
      default <- Table_getitem lib table column ;;
      match overwrites_get d column with
      | Some None => mutation_columns table d rest
      | Some (Some e) =>
          _ <- Table_getitem lib table column ;;
          rest' <- mutation_columns table d rest ;;
          ret (e :: rest')
      | None =>
          default' <- Table_getitem lib table column ;;
          rest' <- mutation_columns table d rest ;;
          ret (default' :: rest')
      end
  end.

(** [get_mutation_exprs] *)
Definition get_mutation_exprs (exprs : list Expr) (table : Expr)
  : M (list Expr) :=
  let table_schema := schema lib table in
  ' (overwriting_cols_to_expr, non_overwriting_exprs) <-
    lift_result (mutation_loop table_schema exprs [] []) ;;
  let columns := schema lib table in
  match overwriting_cols_to_expr with
  | [] => ret (table :: exprs)
  | _ =>
      cols <- mutation_columns table overwriting_cols_to_expr columns ;;
      ret (cols ++ non_overwriting_exprs)
  end.

End Mutation.

(** ** A library instance and expressions for the examples *)

(** The second argument of a node is a non-empty sequence: a selection
    with a projection list. *)
Definition has_selections (nd : Node) : bool :=
  match nth_error (args nd) 1 with
  | Some (ASeq (_ :: _)) => true
  | _ => false
  end.

(** The names listed in the second argument of a physical table. *)
Definition column_names (nd : Node) : list string :=
  match nth_error (args nd) 1 with
  | Some (ASeq l) =>
      flat_map (fun a => match a with AVal (AStr s) => [s] | _ => [] end) l
  | _ => []
  end.

(** An argument is an expression of a boolean type. *)
Definition is_boolean_arg (a : Arg) : bool :=
  match a with
  | AExpr e =>
      match ty e with
      | BooleanColumn | BooleanScalar => true
      | _ => false
      end
  | _ => false
  end.

(** A library in the manner of ibis: a selection blocks when it has a
    projection list, every other table node blocks; [Negate] refuses a
    boolean argument with [IbisTypeError]; table nodes have a schema, and
    a physical table lists its columns; a table node is its own root. *)
Definition lib0 : Library := {|
  blocks := fun nd =>
    if is_Selection (cls nd) then has_selections nd
    else is_TableNode (cls nd);
  validate := fun c a =>
    match c with
    | ValueOp nm =>
        if String.eqb nm "Negate" && existsb is_boolean_arg a
        then Some IbisTypeError
        else None
    | _ => None
    end;
  is_HasSchema := is_TableNode;
  schema := fun e => column_names (op e);
  output_type := fun nd =>
    if is_TableNode (cls nd) then TableExpr
    else match cls nd with
         | Literal | Reduction _ => ScalarExpr
         | _ => ColumnExpr
         end;
  root_tables := fun nd => if is_TableNode (cls nd) then [nd] else [];
  node_is := node_eqb;
  _ensure_expr := fun _ e => ret e;
  Table_aggregate := fun t l =>
    alloc TableExpr None (MkNode Aggregation [AExpr t; ASeq (map AExpr l)]);
  Table_cross_join := fun a b =>
    alloc TableExpr None (MkNode Join [AExpr a; AExpr b; ASeq []]);
  Table_projection := fun t l =>
    alloc TableExpr None
      (MkNode Selection (Selection_args t (map AExpr l) [] []));
  Table_getitem := fun t nm =>
    alloc ColumnExpr (Some nm) (MkNode TableColumn [AExpr t; AVal (AStr nm)]);
  Table_to_array := fun t =>
    alloc ColumnExpr None (MkNode (ValueOp "TableArrayView") [AExpr t])
|}.

(** Constructors of example expressions; the first argument is the
    identifier of the object. *)
Definition phys_table (o : nat) (nm : string) (cols : list string) : Expr :=
  MkExpr o TableExpr None
    (MkNode PhysicalTable
       [AVal (AStr nm); ASeq (map (fun c => AVal (AStr c)) cols)]).

Definition table_column (o : nat) (t : Expr) (nm : string) : Expr :=
  MkExpr o ColumnExpr (Some nm) (MkNode TableColumn [AExpr t; AVal (AStr nm)]).

Definition int_literal (o : nat) (nm : option string) (z : Z) : Expr :=
  MkExpr o ScalarExpr nm (MkNode Literal [AVal (AInt z)]).

Definition selection_of (o : nat) (t : Expr)
  (selections predicates sort_keys : list Arg) : Expr :=
  MkExpr o TableExpr None
    (MkNode Selection (Selection_args t selections predicates sort_keys)).

Definition greater (o : nat) (a b : Expr) : Expr :=
  MkExpr o BooleanColumn None (MkNode (ValueOp "Greater") [AExpr a; AExpr b]).

Definition greater_scalar (o : nat) (a b : Expr) : Expr :=
  MkExpr o BooleanScalar None (MkNode (ValueOp "Greater") [AExpr a; AExpr b]).

Definition sum_of (o : nat) (a : Expr) : Expr :=
  MkExpr o ScalarExpr None (MkNode (Reduction "Sum") [AExpr a; ANone]).

Definition add (o : nat) (a b : Expr) : Expr :=
  MkExpr o ScalarExpr None (MkNode (ValueOp "Add") [AExpr a; AExpr b]).

Definition negate (o : nat) (a : Expr) : Expr :=
  MkExpr o ColumnExpr None (MkNode (ValueOp "Negate") [AExpr a]).

Definition inner_join (o : nat) (l r : Expr) : Expr :=
  MkExpr o TableExpr None (MkNode Join [AExpr l; AExpr r; ASeq []]).

(** The tables [t(a, b)] and [u(c)], their columns, and the projection
    [t[[t.a]]]. *)
Definition ex_t : Expr := phys_table 0 "t" ["a"; "b"].
Definition ex_t_a : Expr := table_column 1 ex_t "a".
Definition ex_proj : Expr := selection_of 2 ex_t [AExpr ex_t_a] [] [].
Definition ex_u : Expr := phys_table 3 "u" ["c"].
Definition ex_u_c : Expr := table_column 4 ex_u "c".
Definition ex_zero : Expr := int_literal 5 None 0.

(** [t.a > 0] and [t.a > u.c] *)
Definition ex_pred : Expr := greater 6 ex_t_a ex_zero.
Definition ex_foreign_pred : Expr := greater 7 ex_t_a ex_u_c.

(** [t.a.sum()] and [t.a.sum() > 0] *)
Definition ex_sum : Expr := sum_of 8 ex_t_a.
Definition ex_sum_pred : Expr := greater_scalar 9 ex_sum ex_zero.

(** The filter [t[t.a > 0]], a selection without a projection list. *)
Definition ex_filter : Expr := selection_of 10 ex_t [] [AExpr ex_pred] [].

(** [t[[t]]] and its column [a], which lifts to [t.a]. *)
Definition ex_star : Expr := selection_of 11 ex_t [AExpr ex_t] [] [].
Definition ex_star_a : Expr := table_column 12 ex_star "a".

(** [1 + 1], with two literal objects. *)
Definition ex_one : Expr := int_literal 13 None 1.
Definition ex_one' : Expr := int_literal 14 None 1.
Definition ex_add : Expr := add 15 ex_one ex_one'.

(** [-t.a], and a boolean column [u.c] to put in the place of [t.a]. *)
Definition ex_negate : Expr := negate 16 ex_t_a.
Definition ex_flag : Expr :=
  MkExpr 17 BooleanColumn (Some "c")
    (MkNode TableColumn [AExpr ex_u; AVal (AStr "c")]).

(** The projection [t.join(u)[[t.a, u.c]]] and the predicate [t.a > 0]. *)
Definition ex_join : Expr := inner_join 18 ex_t ex_u.
Definition ex_join_proj : Expr :=
  selection_of 19 ex_join [AExpr ex_t_a; AExpr ex_u_c] [] [].

(** The filter [f = t[t.a.sum() > 0]], the projection [f[[f.a]]] and the
    predicate [f.a > 0]. *)
Definition ex_sum_filter : Expr :=
  selection_of 24 ex_t [] [AExpr ex_sum_pred] [].
Definition ex_sum_filter_a : Expr := table_column 25 ex_sum_filter "a".
Definition ex_deep_proj : Expr :=
  selection_of 26 ex_sum_filter [AExpr ex_sum_filter_a] [] [].
Definition ex_deep_pred : Expr := greater 27 ex_sum_filter_a ex_zero.

(** The two selections [t[[t.a]]] with the predicates [t.a > 0] and
    [t.a > u.c]. *)
Definition ex_proj_pred : Expr :=
  selection_of 20 ex_t [AExpr ex_t_a] [AExpr ex_pred] [].
Definition ex_proj_foreign : Expr :=
  selection_of 21 ex_t [AExpr ex_t_a] [AExpr ex_foreign_pred] [].

(** The column [a] of the projection [t[[t.a]]]. *)
Definition ex_proj_a : Expr := table_column 23 ex_proj "a".

(** The literal [1] named [one]. *)
Definition ex_named_one : Expr := int_literal 22 (Some "one") 1.

(** A projector as [Projector.__init__] leaves it when the parent is a
    selection and the expressions need neither resolution nor windows. *)
Definition projector_of (parent : Expr) (exprs : list Expr) : Projector :=
  MkProjector parent exprs exprs [op parent] exprs.

(** ** More expressions for the examples *)

(** [t.b], [t.b > 0] and the conjunction [(t.a > 0) & (t.b > 0)]. *)
Definition ex_t_b : Expr := table_column 28 ex_t "b".
Definition ex_pred_b : Expr := greater 29 ex_t_b ex_zero.
Definition ex_and : Expr :=
  MkExpr 30 BooleanColumn None (MkNode And [AExpr ex_pred; AExpr ex_pred_b]).

(** The aggregation [t.aggregate([t.a.sum()])]. *)
Definition ex_agg : Expr :=
  MkExpr 31 TableExpr None
    (MkNode Aggregation (Aggregation_args ex_t [AExpr ex_sum] [] [] [] [])).

(** [t.a.sum().name('inner').name('outer')] *)
Definition ex_alias_inner : Expr :=
  MkExpr 32 ScalarExpr (Some "inner")
    (MkNode Alias [AExpr ex_sum; AVal (AStr "inner")]).
Definition ex_alias_outer : Expr :=
  MkExpr 33 ScalarExpr (Some "outer")
    (MkNode Alias [AExpr ex_alias_inner; AVal (AStr "outer")]).

(** Windows as arguments: a window is a name or a combination of two
    windows, and [over] builds a [Window] node. *)
Definition win0 : Windows := {|
  window := AVal (AStr "window()");
  over := fun e w => alloc (ty e) (name e) (MkNode Window [AExpr e; w]);
  combine := fun w w' => ASeq [w; w']
|}.

(** [t.a.sum().over(w1)] *)
Definition ex_windowed : Expr :=
  MkExpr 34 ScalarExpr None (MkNode Window [AExpr ex_sum; AVal (AStr "w1")]).

(** The assignments [c2 = t.a + 1] and [a = t.a + 1]. *)
Definition ex_new_c2 : Expr :=
  MkExpr 35 ColumnExpr (Some "c2")
    (MkNode (ValueOp "Add") [AExpr ex_t_a; AExpr ex_one]).
Definition ex_new_a : Expr :=
  MkExpr 36 ColumnExpr (Some "a")
    (MkNode (ValueOp "Add") [AExpr ex_t_a; AExpr ex_one]).

(** No expression of the examples is a destruct column. *)
Definition is_destruct0 (e : Expr) : bool := false.
Definition destruct_names0 (e : Expr) : list string := [].

(** ** Auxiliary definitions for the other functions *)

(** A visitor that goes on below the expressions that satisfy [P] and
    halts at the others with the result [f]. *)
Definition descend_or_yield {R : Type} (P : Expr -> bool) (f : Expr -> R)
  (e : Expr) : Result (Control * option R) :=
  if P e then Ok (proceed, None) else Ok (halt, Some (f e)).

(** [Through P type_ok e x]: [x] is [e] or is reached from [e] through the
    flattened arguments of expressions that satisfy [P]; all of them,
    [x] too, are of the requested type. *)
Inductive Through (P : Expr -> bool) (type_ok : ExprType -> bool)
  : Expr -> Expr -> Prop :=
| Through_here : forall e, type_ok (ty e) = true -> Through P type_ok e e
| Through_child : forall e c x,
    type_ok (ty e) = true ->
    P e = true ->
    In c (flat_args (op e)) ->
    Through P type_ok c x ->
    Through P type_ok e x.

(** [P] looks at the node of an expression only, up to structural
    equality. *)
Definition on_node (P : Expr -> bool) : Prop :=
  forall x y, strip_node (op x) = strip_node (op y) -> P x = P y.

(** Two expressions on structurally equal nodes. *)
Definition same_node (a b : Expr) : Prop :=
  strip_node (op a) = strip_node (op b).

Definition not_And (e : Expr) : bool := negb (is_And (cls (op e))).
Definition is_And_expr (e : Expr) : bool := is_And (cls (op e)).
Definition not_table (e : Expr) : bool := negb (is_TableNode (cls (op e))).
Definition is_table (e : Expr) : bool := is_TableNode (cls (op e)).
Definition windowed_class (e : Expr) : bool :=
  is_Reduction (cls (op e)) || is_Analytic (cls (op e)).
Definition not_windowed_class (e : Expr) : bool := negb (windowed_class e).
Definition is_not_node (child : Node) (e : Expr) : bool :=
  negb (node_eqb (op e) child).
Definition itself (e : Expr) : Expr := e.
Definition yes (e : Expr) : bool := true.

(** [find_predicates] goes on below the expressions that are no boolean
    column and, when it flattens, below the conjunctions. *)
Definition predicate_passes (flatten : bool) (e : Expr) : bool :=
  negb (is_ir_BooleanColumn (ty e)) || (flatten && is_And (cls (op e))).

Definition not_ir_table (e : Expr) : bool := negb (is_ir_Table (ty e)).

(** An expression is a physical table that has the column [nm]. *)
Definition has_column (lib : Library) (nm : string) (e : Expr) : bool :=
  is_PhysicalTable (cls (op e)) && existsb (String.eqb nm) (schema lib e).

(** [Unrewritten b e]: no implementation of [_rewrite_filter] other than
    the one for values and the one that rewrites nothing is chosen for
    [e] or, below a value, for one of its arguments; [b] is
    [issubclass(NotAny, Any)]. *)
Inductive Unrewritten (b : bool) : Expr -> Prop :=
| Unrewritten_leaf : forall e,
    _rewrite_filter_dispatch b (cls (op e)) = rewrite_subqueries ->
    Unrewritten b e
| Unrewritten_value : forall e,
    _rewrite_filter_dispatch b (cls (op e)) = rewrite_value ->
    (forall a, In (AExpr a) (args (op e)) -> Unrewritten b a) ->
    Unrewritten b e.

(** The node of an expression is a reduction, an analytic function or a
    window. *)
Definition window_class (c : OpClass) : bool :=
  is_Analytic c || is_Reduction c || is_Window c.

(** [Unwindowed e]: neither [e] nor, below it, an argument that is a value
    expression is a reduction, an analytic function or a window. *)
Inductive Unwindowed : Expr -> Prop :=
| Unwindowed_intro : forall e,
    window_class (cls (op e)) = false ->
    (forall a, In (AExpr a) (args (op e)) -> is_ir_Value (ty a) = true ->
               Unwindowed a) ->
    Unwindowed e.

(** ** Mutations *)

(** A name is a column of the schema. *)
Definition in_schema (table_schema : list string) (nm : string) : bool :=
  existsb (String.eqb nm) table_schema.

(** The expression overwrites a column of the schema: one of the names of
    a destruct column, or the name of another value expression, is a
    column. *)
Definition overwrites (is_DestructColumn : Expr -> bool)
  (destruct_names : Expr -> list string) (table_schema : list string)
  (e : Expr) : bool :=
  if is_DestructColumn e then
    existsb (in_schema table_schema) (destruct_names e)
  else if is_ir_Value (ty e) then
    match name e with
    | Some nm => in_schema table_schema nm
    | None => false
    end
  else false.

(** The expression cannot be assigned: a destruct column with a name, or
    another value expression without one. *)
Definition unassignable (is_DestructColumn : Expr -> bool) (e : Expr)
  : bool :=
  if is_DestructColumn e then has_name e
  else is_ir_Value (ty e) && negb (has_name e).

(** The last expression of a list that has the name [nm]. *)
Fixpoint last_named (nm : string) (exprs : list Expr) : option Expr :=
  match exprs with
  | [] => None
  | e :: rest =>
      match last_named nm rest with
      | Some e' => Some e'
      | None =>
          match name e with
          | Some s => if String.eqb s nm then Some e else None
          | None => None
          end
      end
  end.

(** The expression has a name that is no column of the schema. *)
Definition new_column (table_schema : list string) (e : Expr) : bool :=
  match name e with
  | Some nm => negb (in_schema table_schema nm)
  | None => false
  end.

(** The entry of a mutation for the column [c]: the last expression with
    that name, or a result of [table[c]]. *)
Definition mutation_entry (lib : Library) (table : Expr)
  (exprs : list Expr) (c : string) (r : Expr) : Prop :=
  match last_named c exprs with
  | Some e => r = e
  | None => exists n n', Table_getitem lib table c n = Ok (r, n')
  end.

(** ** Substitutions *)

(** [KeyFree lib mapping e]: the node of [e] is no key of the mapping, nor
    is, unless [e] blocks, the node of an argument of [e] that is an
    expression, and so on below. *)
Inductive KeyFree (lib : Library) (mapping : Mapping) : Expr -> Prop :=
| KeyFree_intro : forall e,
    mapping_get mapping (op e) = None ->
    (blocks lib (op e) = false ->
     forall a, In (AExpr a) (args (op e)) -> KeyFree lib mapping a) ->
    KeyFree lib mapping e.

(** * Properties *)

Ltac inv H := inversion H; subst; clear H.

(** ** The monad *)

Section MonadLemmas.

(** Case analysis on a monadic step in a hypothesis [H : bind m f n = Ok _]. *)
Lemma bind_Ok {A B} (m : M A) (f : A -> M B) n b n' :
  bind m f n = Ok (b, n') ->
  exists a n1, m n = Ok (a, n1) /\ f a n1 = Ok (b, n').
Proof.
  unfold bind. destruct (m n) as [[a n1]|x]; [|discriminate].
  intros H. exists a, n1. auto.
Qed.

Lemma lift_result_Ok {A} (r : Result A) n a n' :
  lift_result r n = Ok (a, n') -> r = Ok a /\ n' = n.
Proof.
  unfold lift_result. destruct r; intros H; inv H. auto.
Qed.

Lemma bind_Raise {A B} (m : M A) (f : A -> M B) n x :
  bind m f n = Raise x ->
  m n = Raise x \/ exists a n1, m n = Ok (a, n1) /\ f a n1 = Raise x.
Proof.
  unfold bind. destruct (m n) as [[a n1]|y].
  - intros H. right. exists a, n1. auto.
  - intros H. left. inv H. reflexivity.
Qed.

End MonadLemmas.

(** ** Substitutor: exceptions *)

Section SubstitutorErrors.

Variable lib : Library.


Lemma memoize_never_type_error f :
  (forall e c, never_type_error (f e c)) ->
  forall e c, never_type_error (memoize f e c).
Proof.
  intros Hf e c n. unfold memoize.
  destruct (cache_get c (_key e)); [discriminate|].
  unfold bind. specialize (Hf e c n).
  destruct (f e c n) as [[[r c'] n']|x]; [discriminate|congruence].
Qed.

Lemma substitute_args_never_type_error sub :
  (forall e c, never_type_error (sub e c)) ->
  forall l u c, never_type_error (substitute_args sub l u c).
Proof.
  intros Hsub l. induction l as [|a l IH]; intros u c n; simpl.
  - discriminate.
  - destruct a as [arg|v| |s].
    + unfold bind. specialize (Hsub arg c n).
      destruct (sub arg c n) as [[[r c1] n1]|x]; [|congruence].
      specialize (IH (u && is_ r arg) c1 n1).
      destruct (substitute_args sub l (u && is_ r arg) c1 n1)
        as [[[[l' u'] c2] n2]|x]; [discriminate|congruence].
    + unfold bind. specialize (IH u c n).
      destruct (substitute_args sub l u c n)
        as [[[[l' u'] c2] n2]|x]; [discriminate|congruence].
    + unfold bind. specialize (IH u c n).
      destruct (substitute_args sub l u c n)
        as [[[[l' u'] c2] n2]|x]; [discriminate|congruence].
    + unfold bind. specialize (IH u c n).
      destruct (substitute_args sub l u c n)
        as [[[[l' u'] c2] n2]|x]; [discriminate|congruence].
Qed.

Lemma _substitute_never_type_error fuel mapping :
  forall e c, never_type_error (_substitute lib fuel mapping e c).
Proof.
  induction fuel as [|fuel IH]; intros e c n; simpl.
  - discriminate.
  - destruct (mapping_get mapping (op e)); [discriminate|].
    destruct (blocks lib (op e)); [discriminate|].
    unfold bind.
    pose proof (substitute_args_never_type_error _
                  (memoize_never_type_error _ IH) (args (op e)) true c n)
      as Hargs.
    destruct (substitute_args (memoize (_substitute lib fuel mapping))
                (args (op e)) true c n)
      as [[[[new_args unchanged] c'] n']|x]; [|congruence].
    destruct unchanged; [discriminate|].
    destruct (new_node lib (cls (op e)) new_args) as [nn|x].
    + unfold alloc, rename, alloc, ret.
      destruct (name e); discriminate.
    + destruct x; discriminate.
Qed.

(** The step of [_substitute] at a node whose reconstruction is refused:
    the expression itself is returned, with the cache left by the
    argument loop. *)
Lemma _substitute_rebuild_refused fuel mapping e cache n new_args cache' n' :
  mapping_get mapping (op e) = None ->
  blocks lib (op e) = false ->
  substitute_args (substitute lib fuel mapping) (args (op e)) true cache n
    = Ok (new_args, false, cache', n') ->
  validate lib (cls (op e)) new_args = Some IbisTypeError ->
  _substitute lib (S fuel) mapping e cache n = Ok (e, cache', n').
Proof.
  intros Hmap Hblocks Hargs Hval. simpl.
  rewrite Hmap, Hblocks. unfold bind, substitute in *. rewrite Hargs.
  unfold new_node. rewrite Hval. reflexivity.
Qed.

(** C1. When rebuilding a node with its substituted arguments raises
    [IbisTypeError], [_substitute] returns the original expression of that
    node; and no call of [substitute], whatever the expression, the
    mapping, the cache and the recursion budget, raises [IbisTypeError]
    to its caller. *)
Theorem C1_type_error_is_absorbed :
  (forall fuel mapping e cache n new_args cache' n',
      mapping_get mapping (op e) = None ->
      blocks lib (op e) = false ->
      substitute_args (substitute lib fuel mapping) (args (op e)) true
        cache n = Ok (new_args, false, cache', n') ->
      new_node lib (cls (op e)) new_args = Raise IbisTypeError ->
      _substitute lib (S fuel) mapping e cache n = Ok (e, cache', n'))
  /\ (forall fuel mapping e cache n,
         substitute lib fuel mapping e cache n <> Raise IbisTypeError)
  /\ (forall fuel e mapping n,
         Substitutor_substitute lib fuel e mapping n
           <> Raise IbisTypeError)
  /\ (forall fuel e substitutions n,
         sub_for lib fuel e substitutions n <> Raise IbisTypeError).
Proof.
  assert (Hsub : forall fuel mapping e cache n,
             substitute lib fuel mapping e cache n <> Raise IbisTypeError).
  { intros fuel mapping e cache n.
    apply (memoize_never_type_error _
             (_substitute_never_type_error fuel mapping)). }
  assert (Htop : forall fuel e mapping n,
             Substitutor_substitute lib fuel e mapping n
               <> Raise IbisTypeError).
  { intros fuel e mapping n. unfold Substitutor_substitute, bind.
    specialize (Hsub fuel mapping e [] n).
    destruct (substitute lib fuel mapping e [] n) as [[[r c] n']|x];
      [discriminate|congruence]. }
  repeat split; auto.
  - intros fuel mapping e cache n new_args cache' n' Hmap Hb Hargs Hnew.
    apply _substitute_rebuild_refused with (new_args := new_args); auto.
    unfold new_node in Hnew.
    destruct (validate lib (cls (op e)) new_args); congruence.
  - intros fuel e substitutions n. unfold sub_for. apply Htop.
Qed.

(** C10. A blocking root that is a key of the mapping is replaced: the
    lookup comes before the [blocks()] test. *)
Theorem C10_blocking_root_is_replaced fuel e mapping v n :
  blocks lib (op e) = true ->
  mapping_get mapping (op e) = Some v ->
  Substitutor_substitute lib (S fuel) e mapping n = Ok (v, n).
Proof.
  intros _ Hmap. unfold Substitutor_substitute, substitute, memoize.
  simpl. unfold bind. simpl. rewrite Hmap. reflexivity.
Qed.

End SubstitutorErrors.

(** ** ExprSimplifier: lifting is stable *)

Section Simplifier.

Variable lib : Library.

Lemma fresh_for_oid n e : fresh_for n e = true -> oid e < n.
Proof.
  destruct e as [o t nm nd]. simpl. intros H.
  apply andb_true_iff in H. destruct H as [H _].
  apply Nat.ltb_lt in H. exact H.
Qed.

Lemma fresh_for_args n e :
  fresh_for n e = true -> forallb (arg_fresh_for n) (args (op e)) = true.
Proof.
  destruct e as [o t nm [c l]]. simpl. intros H.
  apply andb_true_iff in H. tauto.
Qed.

Lemma fresh_for_mono n m e :
  n <= m -> fresh_for n e = true -> fresh_for m e = true.
Proof.
  intros Hle. revert e.
  apply (Expr_induction
           (fun e => fresh_for n e = true -> fresh_for m e = true)
           (fun nd => node_fresh_for n nd = true ->
                      node_fresh_for m nd = true)
           (fun a => arg_fresh_for n a = true -> arg_fresh_for m a = true)).
  - intros o t nm nd IH. simpl. intros H.
    apply andb_true_iff in H. destruct H as [H1 H2].
    apply andb_true_iff. split; [|auto].
    apply Nat.ltb_lt. apply Nat.ltb_lt in H1. lia.
  - intros c l IH. simpl. intros H.
    rewrite forallb_forall in *. rewrite Forall_forall in IH. auto.
  - intros e IH. simpl. auto.
  - auto.
  - auto.
  - intros l IH. simpl. intros H.
    rewrite forallb_forall in *. rewrite Forall_forall in IH. auto.
Qed.

Lemma arg_fresh_for_mono n m a :
  n <= m -> arg_fresh_for n a = true -> arg_fresh_for m a = true.
Proof.
  intros Hle. destruct a as [e|v| |l]; simpl; auto.
  - apply fresh_for_mono; auto.
  - intros H. rewrite forallb_forall in *. intros x Hx.
    specialize (H x Hx). revert H.
    apply (Arg_induction
           (fun e => fresh_for n e = true -> fresh_for m e = true)
           (fun nd => node_fresh_for n nd = true ->
                      node_fresh_for m nd = true)
           (fun a => arg_fresh_for n a = true -> arg_fresh_for m a = true)).
    + intros o t nm nd IH. simpl. intros H.
      apply andb_true_iff in H. destruct H as [H1 H2].
      apply andb_true_iff. split; [|auto].
      apply Nat.ltb_lt. apply Nat.ltb_lt in H1. lia.
    + intros c l0 IH. simpl. intros H.
      rewrite forallb_forall in *. rewrite Forall_forall in IH. auto.
    + intros e IH. simpl. auto.
    + auto.
    + auto.
    + intros l0 IH. simpl. intros H.
      rewrite forallb_forall in *. rewrite Forall_forall in IH. auto.
Qed.

Lemma PhysicalTable_lift _sub val block k :
  is_PhysicalTable (cls (op val)) = true ->
  lift lib _sub val block k = Ok (val, k).
Proof.
  intros H. unfold lift.
  destruct (cls (op val)); simpl in *; try discriminate. reflexivity.
Qed.

Lemma lift_selections_pure _sub node sels :
  forall acc k,
    lift_selections lib _sub node sels acc k
    = lift_result (find_lift lib node sels acc) k.
Proof.
  induction sels as [|a sels IH]; intros acc k; simpl.
  - reflexivity.
  - unfold bind. destruct (as_expr a) as [val|x]; simpl; [|reflexivity].
    destruct (is_PhysicalTable (cls (op val))) eqn:Hpt; [|apply IH].
    unfold bind. destruct (node_name node) as [nm|x]; simpl; [|reflexivity].
    destruct (existsb (String.eqb nm) (schema lib val)); [|apply IH].
    unfold bind. rewrite PhysicalTable_lift by assumption. apply IH.
Qed.

Lemma _lift_TableColumn_pure _sub e block k :
  _lift_TableColumn lib _sub e block k
  = match column_lift lib e block with
    | Raise x => Raise x
    | Ok None => Ok (e, k)
    | Ok (Some nd) => Ok (MkExpr k (ty e) None nd, S k)
    end.
Proof.
  unfold _lift_TableColumn, column_lift, bind.
  destruct (node_table (op e)) as [table|x]; simpl; [|reflexivity].
  destruct (is_Selection (cls (op table))); [|reflexivity].
  unfold bind.
  destruct (node_selections (op table)) as [sels|x]; simpl; [|reflexivity].
  unfold bind. rewrite lift_selections_pure.
  destruct (find_lift lib (op e) sels None) as [[lr|]|x]; simpl;
    try reflexivity.
  destruct block; simpl; [reflexivity|].
  unfold bind.
  destruct (node_name (op e)) as [nm|x]; simpl; [|reflexivity].
  destruct (new_node lib TableColumn [AExpr lr; AVal (AStr nm)]);
    reflexivity.
Qed.

Lemma find_lift_name n1 n2 sels :
  node_name n1 = node_name n2 ->
  forall acc, find_lift lib n1 sels acc = find_lift lib n2 sels acc.
Proof.
  intros Hn. induction sels as [|a sels IH]; intros acc; simpl.
  - reflexivity.
  - destruct (as_expr a) as [val|x]; [|reflexivity].
    destruct (is_PhysicalTable (cls (op val))); [|apply IH].
    rewrite Hn. destruct (node_name n2) as [nm|x]; [|reflexivity].
    destruct (existsb (String.eqb nm) (schema lib val)); apply IH.
Qed.

Lemma find_lift_PhysicalTable node sels :
  forall acc v,
    find_lift lib node sels acc = Ok (Some v) ->
    acc = Some v \/ is_PhysicalTable (cls (op v)) = true.
Proof.
  induction sels as [|a sels IH]; intros acc v; simpl.
  - intros H. inv H. auto.
  - destruct (as_expr a) as [val|x]; [|discriminate].
    destruct (is_PhysicalTable (cls (op val))) eqn:Hpt; [|apply IH].
    destruct (node_name node) as [nm|x]; [|discriminate].
    destruct (existsb (String.eqb nm) (schema lib val)); [|apply IH].
    intros H. apply IH in H. destruct H as [H|H]; [|auto].
    inv H. auto.
Qed.

Lemma is__refl x : is_ x x = true.
Proof. unfold is_. apply Nat.eqb_refl. Qed.

Lemma is__fresh n x r :
  fresh_for n x = true -> n <= oid r -> is_ r x = false.
Proof.
  intros Hx Hr. apply fresh_for_oid in Hx. unfold is_.
  apply Nat.eqb_neq. lia.
Qed.

Lemma strip_cls a b : strip a = strip b -> cls (op a) = cls (op b).
Proof.
  destruct a as [o1 t1 n1 [c1 l1]], b as [o2 t2 n2 [c2 l2]]. simpl.
  intros H. inv H. reflexivity.
Qed.

(** *** One level of the recursion *)

Section Step.

Variable fuel : nat.
Hypothesis IH :
  forall e block n r n',
    fresh_for n e = true ->
    get_result lib fuel e block n = Ok (r, n') ->
    Lifted lib fuel block n e r n'.

Lemma lift_good x block n r n' :
  fresh_for n x = true ->
  lift lib (get_result lib fuel) x block n = Ok (r, n') ->
  n <= n'
  /\ (r = x \/ (n <= oid r /\ strip r <> strip x))
  /\ cls (op r) = cls (op x)
  /\ (is_Selection (cls (op x)) = true -> r = x)
  /\ StableLift lib fuel block r.
Proof.
  intros Hfresh H. unfold lift in H.
  assert (Hsub :
    get_result lib fuel x block n = Ok (r, n') ->
    is_Selection (cls (op x)) = false ->
    (forall k, get_result lib fuel r block k = Ok (r, k) ->
               lift lib (get_result lib fuel) r block k = Ok (r, k)) ->
    n <= n'
    /\ (r = x \/ (n <= oid r /\ strip r <> strip x))
    /\ cls (op r) = cls (op x)
    /\ (is_Selection (cls (op x)) = true -> r = x)
    /\ StableLift lib fuel block r).
  { intros Hg Hsel Hst. destruct (IH _ _ _ _ _ Hfresh Hg)
      as (Hle & Hdich & Hcls & Hstable).
    repeat split; auto.
    - intros Hs. congruence.
    - intros k. apply Hst. apply Hstable. }
  assert (Himm :
    r = x -> n' = n ->
    lift lib (get_result lib fuel) x block n = Ok (x, n) ->
    (forall k, lift lib (get_result lib fuel) x block k = Ok (x, k)) ->
    n <= n'
    /\ (r = x \/ (n <= oid r /\ strip r <> strip x))
    /\ cls (op r) = cls (op x)
    /\ (is_Selection (cls (op x)) = true -> r = x)
    /\ StableLift lib fuel block r).
  { intros -> -> _ Hst. repeat split; auto. }
  destruct (is_Value (cls (op x))) eqn:Hv.
  - apply Hsub; auto.
    + destruct (cls (op x)); simpl in *; congruence.
    + intros k Hk. unfold lift.
      destruct (is_Value (cls (op r))); [exact Hk|].
      destruct (is_Selection (cls (op r))); [reflexivity|].
      destruct (is_TableNode (cls (op r)) || is_HasSchema lib (cls (op r)));
        [reflexivity|exact Hk].
  - destruct (is_Selection (cls (op x))) eqn:Hs.
    + inv H. apply Himm; auto.
      * unfold lift. rewrite Hv, Hs. reflexivity.
      * intros k. unfold lift. rewrite Hv, Hs. reflexivity.
    + destruct (is_TableNode (cls (op x)) || is_HasSchema lib (cls (op x)))
        eqn:Ht.
      * inv H. apply Himm; auto.
        -- unfold lift. rewrite Hv, Hs, Ht. reflexivity.
        -- intros k. unfold lift. rewrite Hv, Hs, Ht. reflexivity.
      * apply Hsub; auto.
        intros k Hk. unfold lift.
        destruct (is_Value (cls (op r))); [exact Hk|].
        destruct (is_Selection (cls (op r))); [reflexivity|].
        destruct (is_TableNode (cls (op r))
                  || is_HasSchema lib (cls (op r)));
          [reflexivity|exact Hk].
Qed.

Lemma _lift_good block a c n a' c' n' :
  arg_fresh_for n a = true ->
  _lift lib (get_result lib fuel) block a c n = Ok (a', c', n') ->
  n <= n'
  /\ ((c' = c /\ a' = a) \/ (c' = c + 1 /\ strip_arg a' <> strip_arg a))
  /\ ArgRel a a'
  /\ StableElem lib fuel block a'.
Proof.
  intros Hfresh H. destruct a as [x|v| |l]; simpl in H.
  - apply bind_Ok in H. destruct H as (r & n1 & Hl & H).
    unfold ret in H. inv H.
    destruct (lift_good _ _ _ _ _ Hfresh Hl)
      as (Hle & Hdich & Hcls & Hsel & Hst).
    repeat split; auto.
    + destruct Hdich as [->|[Hoid Hne]].
      * left. rewrite is__refl. split; [lia|reflexivity].
      * right. rewrite (is__fresh _ x r Hfresh Hoid).
        split; [reflexivity|]. simpl. congruence.
    + simpl. exists r. auto.
    + intros c0 k. simpl. unfold bind. rewrite Hst. unfold ret.
      rewrite is__refl. rewrite Nat.add_0_r. reflexivity.
  - unfold ret in H. inv H. repeat split; simpl; eauto.
  - unfold ret in H. inv H. repeat split; simpl; eauto.
  - unfold ret in H. inv H. repeat split; simpl; eauto.
Qed.

Lemma map_lift_good block l :
  forall c n l' c' n',
    forallb (arg_fresh_for n) l = true ->
    map_lift lib (get_result lib fuel) block l c n = Ok (l', c', n') ->
    n <= n'
    /\ ((c' = c /\ l' = l)
        \/ (c < c' /\ map strip_arg l' <> map strip_arg l))
    /\ (forall c0 k,
           map_lift lib (get_result lib fuel) block l' c0 k
           = Ok (l', c0, k)).
Proof.
  induction l as [|a l IHl]; intros c n l' c' n' Hfresh H; simpl in H.
  - unfold ret in H. inv H. repeat split; auto.
  - simpl in Hfresh. apply andb_true_iff in Hfresh.
    destruct Hfresh as [Hfa Hfl].
    apply bind_Ok in H. destruct H as ([a1 c1] & n1 & Ha & H).
    apply bind_Ok in H. destruct H as ([l1 c2] & n2 & Hl & H).
    unfold ret in H. inv H.
    destruct (_lift_good _ _ _ _ _ _ _ Hfa Ha)
      as (Hle1 & Hd1 & _ & Hst1).
    assert (Hfl' : forallb (arg_fresh_for n1) l = true).
    { rewrite forallb_forall in *. intros y Hy.
      apply arg_fresh_for_mono with (n := n); auto. }
    destruct (IHl _ _ _ _ _ Hfl' Hl) as (Hle2 & Hd2 & Hst2).
    split; [lia|]. split.
    + destruct Hd1 as [[-> ->]|[-> Hne1]];
        destruct Hd2 as [[-> ->]|[Hlt Hne2]].
      * left. auto.
      * right. split; [lia|]. simpl. congruence.
      * right. split; [lia|]. simpl. congruence.
      * right. split; [lia|]. simpl. congruence.
    + intros c0 k. simpl. unfold bind. rewrite Hst1, Hst2. reflexivity.
Qed.

Lemma _lift_arg_good block a n a' u n' :
  arg_fresh_for n a = true ->
  _lift_arg lib (get_result lib fuel) a block n = Ok (a', u, n') ->
  n <= n'
  /\ (u = true -> a' = a)
  /\ (u = false -> strip_arg a' <> strip_arg a)
  /\ ArgRel a a'
  /\ StableArg lib fuel block a'.
Proof.
  intros Hfresh H.
  assert (Helem :
    forall a0, (match a0 with ANone => False | ASeq _ => False
                | _ => True end) ->
    arg_fresh_for n a0 = true ->
    (' (result, changed) <- _lift lib (get_result lib fuel) block a0 0 ;;
     ret (result, Nat.eqb changed 0)) n = Ok (a', u, n') ->
    n <= n'
    /\ (u = true -> a' = a0)
    /\ (u = false -> strip_arg a' <> strip_arg a0)
    /\ ArgRel a0 a'
    /\ (forall k,
          (' (result, changed) <-
             _lift lib (get_result lib fuel) block a' 0 ;;
           ret (result, Nat.eqb changed 0)) k = Ok (a', true, k))).
  { intros a0 _ Hf0 H0.
    apply bind_Ok in H0. destruct H0 as ([a1 c1] & n1 & Ha & H0).
    unfold ret in H0. inv H0.
    destruct (_lift_good _ _ _ _ _ _ _ Hf0 Ha) as (Hle & Hd & Hrel & Hst).
    repeat split; auto.
    - intros Hu. destruct Hd as [[-> ->]|[-> _]]; [reflexivity|].
      simpl in Hu. discriminate.
    - intros Hu. destruct Hd as [[-> ->]|[-> Hne]]; [|exact Hne].
      simpl in Hu. discriminate.
    - intros k. unfold bind. rewrite Hst. reflexivity. }
  destruct a as [x|v| |l].
  - destruct (Helem (AExpr x) I Hfresh H) as (H1 & H2 & H3 & H4 & H5).
    repeat split; auto.
    intros k. destruct H4 as (r & -> & _). apply H5.
  - destruct (Helem (AVal v) I Hfresh H) as (H1 & H2 & H3 & H4 & H5).
    repeat split; auto.
    intros k. simpl in H4. subst a'. apply H5.
  - simpl in H. unfold ret in H. inv H.
    repeat split; simpl; auto; intros; discriminate.
  - simpl in H. apply bind_Ok in H.
    destruct H as ([l1 c1] & n1 & Hl & H). unfold ret in H. inv H.
    simpl in Hfresh.
    destruct (map_lift_good _ _ _ _ _ _ _ Hfresh Hl) as (Hle & Hd & Hst).
    repeat split; auto.
    + intros Hu. destruct Hd as [[-> ->]|[Hlt _]]; [reflexivity|].
      apply Nat.eqb_eq in Hu. lia.
    + intros Hu. destruct Hd as [[-> ->]|[_ Hne]].
      * simpl in Hu. discriminate.
      * simpl. congruence.
    + simpl. eauto.
    + intros k. simpl. unfold bind. rewrite Hst. reflexivity.
Qed.

Lemma lift_args_good block l :
  forall u n l' u' n',
    forallb (arg_fresh_for n) l = true ->
    lift_args lib (get_result lib fuel) block l u n = Ok (l', u', n') ->
    n <= n'
    /\ (u' = true -> l' = l /\ u = true)
    /\ (u' = false -> u = false \/ map strip_arg l' <> map strip_arg l)
    /\ Forall2 ArgRel l l'
    /\ (forall u0 k,
           lift_args lib (get_result lib fuel) block l' u0 k
           = Ok (l', u0, k)).
Proof.
  induction l as [|a l IHl]; intros u n l' u' n' Hfresh H; simpl in H.
  - unfold ret in H. inv H. repeat split; auto.
  - simpl in Hfresh. apply andb_true_iff in Hfresh.
    destruct Hfresh as [Hfa Hfl].
    apply bind_Ok in H. destruct H as ([a1 u1] & n1 & Ha & H).
    apply bind_Ok in H. destruct H as ([l1 u2] & n2 & Hl & H).
    unfold ret in H. inv H.
    destruct (_lift_arg_good _ _ _ _ _ _ Hfa Ha)
      as (Hle1 & Ht1 & Hf1 & Hrel1 & Hst1).
    assert (Hfl' : forallb (arg_fresh_for n1) l = true).
    { rewrite forallb_forall in *. intros y Hy.
      apply arg_fresh_for_mono with (n := n); auto. }
    destruct (IHl _ _ _ _ _ Hfl' Hl) as (Hle2 & Ht2 & Hf2 & Hrel2 & Hst2).
    split; [lia|]. repeat split.
    + destruct (Ht2 H) as [-> Hu]. apply andb_true_iff in Hu.
      destruct Hu as [_ Hu1]. rewrite (Ht1 Hu1). reflexivity.
    + destruct (Ht2 H) as [_ Hu]. apply andb_true_iff in Hu. tauto.
    + intros Hu'. destruct (Hf2 Hu') as [Hu|Hne].
      * apply andb_false_iff in Hu. destruct Hu as [Hu|Hu]; [auto|].
        right. simpl. specialize (Hf1 Hu). congruence.
      * right. simpl. congruence.
    + constructor; auto.
    + intros u0 k. simpl. unfold bind. rewrite Hst1, Hst2.
      rewrite andb_true_r. reflexivity.
Qed.

Lemma rewrite_args_good block e n r n' :
  fresh_for n e = true ->
  rewrite_args lib (get_result lib fuel) block e n = Ok (r, n') ->
  n <= n'
  /\ (r = e \/ (n <= oid r /\ strip r <> strip e))
  /\ cls (op r) = cls (op e)
  /\ Forall2 ArgRel (args (op e)) (args (op r))
  /\ (forall u0 k,
         lift_args lib (get_result lib fuel) block (args (op r)) u0 k
         = Ok (args (op r), u0, k)).
Proof.
  intros Hfresh H. unfold rewrite_args in H.
  apply bind_Ok in H. destruct H as ([l' u] & n1 & Hl & H).
  destruct (lift_args_good _ _ _ _ _ _ _ (fresh_for_args _ _ Hfresh) Hl)
    as (Hle & Ht & Hf & Hrel & Hst).
  destruct u.
  - unfold ret in H. inv H. destruct (Ht eq_refl) as [-> _].
    repeat split; auto.
  - destruct (Hf eq_refl) as [Hu|Hne]; [discriminate|].
    apply bind_Ok in H. destruct H as (nd & n2 & Hnd & H).
    apply lift_result_Ok in Hnd. destruct Hnd as [Hnd ->].
    unfold new_node in Hnd.
    destruct (validate lib (cls (op e)) l'); [discriminate|]. inv Hnd.
    apply bind_Ok in H. destruct H as (res & n3 & Hres & H).
    unfold alloc in Hres. inv Hres.
    assert (Hdiff : forall o nm,
               strip (MkExpr o (ty e) nm (MkNode (cls (op e)) l'))
               <> strip e).
    { intros o nm Heq. destruct e as [o0 t0 nm0 [c0 l0]]. simpl in *.
      inv Heq. congruence. }
    destruct (is_ir_Value (ty e) && has_name e).
    + apply bind_Ok in H. destruct H as (nm & n4 & Hnm & H).
      apply lift_result_Ok in Hnm. destruct Hnm as [Hnm ->].
      unfold rename, alloc in H. simpl in H. inv H.
      simpl. repeat split; auto; try lia.
      right. simpl. split; [lia|]. exact (Hdiff 0 _).
    + unfold ret in H. inv H.
      simpl. repeat split; auto; try lia.
      right. simpl. split; [lia|]. exact (Hdiff 0 _).
Qed.

End Step.

Lemma Forall2_ArgRel_nth l l' :
  Forall2 ArgRel l l' ->
  forall i,
    match nth_error l i with
    | Some a => exists a', nth_error l' i = Some a' /\ ArgRel a a'
    | None => nth_error l' i = None
    end.
Proof.
  induction 1 as [|a a' l l' Ha Hl IHl]; intros i.
  - destruct i; reflexivity.
  - destruct i as [|i]; simpl.
    + exists a'. auto.
    + apply IHl.
Qed.

Lemma ArgRel_node_name e r :
  Forall2 ArgRel (args (op e)) (args (op r)) ->
  node_name (op r) = node_name (op e).
Proof.
  intros Hrel. unfold node_name, arg_str.
  pose proof (Forall2_ArgRel_nth _ _ Hrel 1) as H.
  destruct (nth_error (args (op e)) 1) as [a|].
  - destruct H as (a' & -> & Ha).
    destruct a as [x|v| |s]; simpl in Ha.
    + destruct Ha as (x' & -> & _). reflexivity.
    + subst a'. reflexivity.
    + subst a'. reflexivity.
    + destruct Ha as (s' & ->). reflexivity.
  - rewrite H. reflexivity.
Qed.

Lemma column_lift_transfer e r block :
  column_lift lib e block = Ok None ->
  Forall2 ArgRel (args (op e)) (args (op r)) ->
  column_lift lib r block = Ok None.
Proof.
  intros He Hrel. unfold column_lift in *.
  pose proof (ArgRel_node_name _ _ Hrel) as Hname.
  pose proof (Forall2_ArgRel_nth _ _ Hrel 0) as H0.
  unfold node_table, arg_expr in *.
  destruct (nth_error (args (op e)) 0) as [a|]; [|discriminate].
  destruct H0 as (a' & -> & Ha).
  destruct a as [t|v| |s]; try discriminate.
  simpl in Ha. destruct Ha as (t' & -> & Hcls & Hsel).
  rewrite Hcls.
  destruct (is_Selection (cls (op t))) eqn:Hs; [|reflexivity].
  rewrite (Hsel eq_refl).
  destruct (node_selections (op t)) as [sels|x]; [|discriminate].
  rewrite (find_lift_name (op r) (op e) sels Hname), Hname.
  exact He.
Qed.

Lemma Stable_from fuel block r :
  (forall u0 k,
      lift_args lib (get_result lib fuel) block (args (op r)) u0 k
      = Ok (args (op r), u0, k)) ->
  (is_TableColumn (cls (op r)) = true ->
   column_lift lib r block = Ok None) ->
  Stable lib (S fuel) block r.
Proof.
  intros Hargs Hcol k. simpl.
  assert (Hrw : rewrite_args lib (get_result lib fuel) block r k
                = Ok (r, k)).
  { unfold rewrite_args, bind. rewrite Hargs. reflexivity. }
  destruct (is_Literal (cls (op r))); [reflexivity|].
  destruct (is_TableColumn (cls (op r))) eqn:Htc.
  - unfold bind. rewrite _lift_TableColumn_pure, (Hcol eq_refl).
    rewrite is__refl. simpl. exact Hrw.
  - destruct (is_Selection (cls (op r))); [reflexivity|exact Hrw].
Qed.

Lemma column_lift_Some e block nd :
  column_lift lib e block = Ok (Some nd) ->
  exists table lr nm,
    node_table (op e) = Ok table
    /\ is_Selection (cls (op table)) = true
    /\ is_PhysicalTable (cls (op lr)) = true
    /\ nd = MkNode TableColumn [AExpr lr; AVal (AStr nm)].
Proof.
  unfold column_lift. intros H.
  destruct (node_table (op e)) as [table|x]; [|discriminate].
  destruct (is_Selection (cls (op table))) eqn:Hs; [|discriminate].
  destruct (node_selections (op table)) as [sels|x]; [|discriminate].
  destruct (find_lift lib (op e) sels None) as [[lr|]|x] eqn:Hfl;
    try discriminate.
  destruct (negb block); [|discriminate].
  destruct (node_name (op e)) as [nm|x]; [|discriminate].
  unfold new_node in H.
  destruct (validate lib TableColumn [AExpr lr; AVal (AStr nm)]);
    [discriminate|].
  inv H. exists table, lr, nm. repeat split; auto.
  apply find_lift_PhysicalTable in Hfl. destruct Hfl; [discriminate|auto].
Qed.

Lemma is_TableColumn_eq c : is_TableColumn c = true -> c = TableColumn.
Proof. destruct c; simpl; intros; congruence. Qed.

Lemma is_PhysicalTable_not_Selection c :
  is_PhysicalTable c = true -> is_Selection c = false.
Proof. destruct c; simpl; intros; congruence. Qed.

Lemma lifted_column_differs e table lr nm o t nm0 :
  node_table (op e) = Ok table ->
  is_Selection (cls (op table)) = true ->
  is_PhysicalTable (cls (op lr)) = true ->
  strip (MkExpr o t nm0 (MkNode TableColumn [AExpr lr; AVal (AStr nm)]))
  <> strip e.
Proof.
  intros Htab Hsel Hpt Heq.
  destruct e as [o0 t0 nm1 [c l]].
  unfold node_table, arg_expr in Htab. simpl in Htab.
  destruct l as [|a l]; [discriminate|]. simpl in Htab.
  destruct a as [x|v| |s]; try discriminate.
  injection Htab as ->.
  simpl in Heq. injection Heq as _ _ _ Hx _.
  apply strip_cls in Hx. rewrite <- Hx in Hsel.
  rewrite (is_PhysicalTable_not_Selection _ Hpt) in Hsel. discriminate.
Qed.

(** The main invariant of the simplifier. *)
Lemma get_result_Lifted fuel :
  forall e block n r n',
    fresh_for n e = true ->
    get_result lib fuel e block n = Ok (r, n') ->
    Lifted lib fuel block n e r n'.
Proof.
  induction fuel as [|fuel IH]; intros e block n r n' Hfresh H.
  - discriminate.
  - simpl in H.
    assert (Hgen :
      rewrite_args lib (get_result lib fuel) block e n = Ok (r, n') ->
      (is_TableColumn (cls (op e)) = true ->
       column_lift lib e block = Ok None) ->
      Lifted lib (S fuel) block n e r n').
    { intros Hrw Hcol.
      destruct (rewrite_args_good fuel IH _ _ _ _ _ Hfresh Hrw)
        as (Hle & Hd & Hcls & Hrel & Hst).
      repeat split; auto.
      apply Stable_from; auto.
      rewrite Hcls. intros Htc.
      apply column_lift_transfer with (e := e); auto. }
    destruct (is_Literal (cls (op e))) eqn:HL.
    { inv H. repeat split; auto.
      intros k. simpl. rewrite HL. reflexivity. }
    destruct (is_TableColumn (cls (op e))) eqn:HT.
    { apply bind_Ok in H. destruct H as (res & n1 & Hres & H).
      rewrite _lift_TableColumn_pure in Hres.
      destruct (column_lift lib e block) as [[nd|]|x] eqn:Hcl;
        [| |discriminate].
      - inv Hres.
        rewrite (is__fresh n e) in H by (auto; simpl; lia).
        simpl in H. inv H.
        destruct (column_lift_Some _ _ _ Hcl)
          as (table & lr & nm & Htab & Hsel & Hpt & ->).
        repeat split; auto.
        + right. split; [simpl; lia|].
          apply lifted_column_differs with (table := table); auto.
        + simpl. symmetry. apply is_TableColumn_eq. exact HT.
        + apply Stable_from.
          * intros u0 k. simpl. unfold bind.
            rewrite PhysicalTable_lift by assumption.
            unfold ret. rewrite is__refl. simpl.
            rewrite !andb_true_r. reflexivity.
          * intros _. unfold column_lift, node_table, arg_expr. simpl.
            rewrite (is_PhysicalTable_not_Selection _ Hpt). reflexivity.
      - inv Hres. rewrite is__refl in H. simpl in H.
        apply Hgen; auto. }
    destruct (is_Selection (cls (op e))) eqn:HS.
    { inv H. repeat split; auto.
      intros k. simpl. rewrite HL, HT, HS. reflexivity. }
    apply Hgen; auto. discriminate.
Qed.

(** C3. [substitute_parents] is idempotent: applied to its own result it
    returns that result (the very object, hence a structurally equal
    value) and allocates nothing; when the first application raises, so
    does the composition.  The counter [n] is past every object of [e],
    as it is whenever [e] was built before the call. *)
Theorem C3_simplify_idempotent fuel e past_projection n :
  fresh_for n e = true ->
  bind (substitute_parents lib fuel e past_projection)
       (fun r => substitute_parents lib fuel r past_projection) n
  = substitute_parents lib fuel e past_projection n.
Proof.
  intros Hfresh. unfold bind, substitute_parents.
  destruct (get_result lib fuel e (negb past_projection) n)
    as [[r n']|x] eqn:H; [|reflexivity].
  destruct (get_result_Lifted fuel _ _ _ _ _ Hfresh H)
    as (_ & _ & _ & Hst).
  apply Hst.
Qed.

End Simplifier.

(** ** Substitutor: the argument loop and the cache *)

Section SubstituteLoop.

Variable I : Cache -> Prop.
Variable Pre : Expr -> Prop.
Variable P : Expr -> Expr -> Prop.

Lemma memoize_spec f :
  SubSpec I Pre P f ->
  (forall c e v, I c -> Pre e -> cache_get c (_key e) = Some v -> P e v) ->
  (forall c e r, I c -> Pre e -> P e r -> I (cache_set c (_key e) r)) ->
  SubSpec I Pre P (memoize f).
Proof.
  intros Hf Hhit Hstore e c n r c' n' HI HPre H. unfold memoize in H.
  destruct (cache_get c (_key e)) as [v|] eqn:Hget.
  - unfold ret in H. inv H. split; [eapply Hhit; eauto|assumption].
  - apply bind_Ok in H. destruct H as ([r1 c1] & n1 & Hr & H).
    unfold ret in H. inv H.
    destruct (Hf _ _ _ _ _ _ HI HPre Hr) as [HP HI1].
    split; [assumption|]. apply Hstore; assumption.
Qed.

Lemma substitute_args_spec sub :
  SubSpec I Pre P sub ->
  forall l u c n l' u' c' n',
    I c ->
    (forall x, In (AExpr x) l -> Pre x) ->
    substitute_args sub l u c n = Ok (l', u', c', n') ->
    I c'
    /\ Forall2 (ArgSub P) l l'
    /\ (u' = true -> u = true)
    /\ ((forall x r, In (AExpr x) l -> P x r -> r = x) ->
        u' = u /\ l' = l).
Proof.
  intros Hsub l.
  induction l as [|a l IH]; intros u c n l' u' c' n' HI HPre H; simpl in H.
  - unfold ret in H. inv H. repeat split; auto.
  - assert (Hrest :
      forall u1 c1 n1 rest' u2 c2 n2,
        I c1 ->
        substitute_args sub l u1 c1 n1 = Ok (rest', u2, c2, n2) ->
        I c2
        /\ Forall2 (ArgSub P) l rest'
        /\ (u2 = true -> u1 = true)
        /\ ((forall x r, In (AExpr x) l -> P x r -> r = x) ->
            u2 = u1 /\ rest' = l)).
    { intros u1 c1 n1 rest' u2 c2 n2 HI1 Hr.
      eapply IH; [exact HI1| |exact Hr].
      intros x Hx. apply HPre. right. exact Hx. }
    destruct a as [arg|v| |s].
    + apply bind_Ok in H. destruct H as ([r c1] & n1 & Hr & H).
      apply bind_Ok in H. destruct H as ([[rest' u2] c2] & n2 & Hl & H).
      unfold ret in H. inv H.
      destruct (Hsub _ _ _ _ _ _ HI (HPre arg (or_introl eq_refl)) Hr)
        as [HP HI1].
      destruct (Hrest _ _ _ _ _ _ _ HI1 Hl) as (HI2 & HF & Hu & Hsame).
      repeat split; auto.
      * constructor; [simpl; eauto|assumption].
      * intros Hu'. apply Hu in Hu'. apply andb_true_iff in Hu'. tauto.
      * assert (r = arg) by (apply H; [left; reflexivity|assumption]).
        subst r. destruct Hsame as [-> _].
        { intros x r Hx. apply H. right. exact Hx. }
        unfold is_. rewrite Nat.eqb_refl. apply andb_true_r.
      * assert (r = arg) by (apply H; [left; reflexivity|assumption]).
        subst r. destruct Hsame as [_ ->]; [|reflexivity].
        intros x r Hx. apply H. right. exact Hx.
    + apply bind_Ok in H. destruct H as ([[rest' u2] c2] & n2 & Hl & H).
      unfold ret in H. inv H.
      destruct (Hrest _ _ _ _ _ _ _ HI Hl) as (HI2 & HF & Hu & Hsame).
      repeat split; auto.
      * constructor; [reflexivity|assumption].
      * apply Hsame. intros x r Hx. apply H. right. exact Hx.
      * destruct Hsame as [_ ->]; [|reflexivity].
        intros x r Hx. apply H. right. exact Hx.
    + apply bind_Ok in H. destruct H as ([[rest' u2] c2] & n2 & Hl & H).
      unfold ret in H. inv H.
      destruct (Hrest _ _ _ _ _ _ _ HI Hl) as (HI2 & HF & Hu & Hsame).
      repeat split; auto.
      * constructor; [reflexivity|assumption].
      * apply Hsame. intros x r Hx. apply H. right. exact Hx.
      * destruct Hsame as [_ ->]; [|reflexivity].
        intros x r Hx. apply H. right. exact Hx.
    + apply bind_Ok in H. destruct H as ([[rest' u2] c2] & n2 & Hl & H).
      unfold ret in H. inv H.
      destruct (Hrest _ _ _ _ _ _ _ HI Hl) as (HI2 & HF & Hu & Hsame).
      repeat split; auto.
      * constructor; [reflexivity|assumption].
      * apply Hsame. intros x r Hx. apply H. right. exact Hx.
      * destruct Hsame as [_ ->]; [|reflexivity].
        intros x r Hx. apply H. right. exact Hx.
Qed.

End SubstituteLoop.

Section SubstituteEmpty.

Variable lib : Library.

Lemma cache_get_set c k v k' :
  cache_get (cache_set c k v) k'
  = if key_eqb k k' then Some v else cache_get c k'.
Proof. reflexivity. Qed.

Lemma key_eqb_eq a b : key_eqb a b = true -> a = b.
Proof. unfold key_eqb. destruct (Expr_eq_dec a b); congruence. Qed.

Lemma node_eqb_eq a b :
  node_eqb a b = true -> strip_node a = strip_node b.
Proof.
  unfold node_eqb.
  destruct (Node_eq_dec (strip_node a) (strip_node b)); congruence.
Qed.

Lemma node_eqb_refl a : node_eqb a a = true.
Proof.
  unfold node_eqb.
  destruct (Node_eq_dec (strip_node a) (strip_node a)); congruence.
Qed.

Lemma ArgSub_strip l l' :
  Forall2 (ArgSub (fun x r => strip r = strip x)) l l' ->
  map strip_arg l' = map strip_arg l.
Proof.
  induction 1 as [|a a' l l' Ha Hl IH]; simpl; [reflexivity|].
  rewrite IH. f_equal.
  destruct a as [x|v| |s]; simpl in Ha.
  - destruct Ha as (r & -> & Hr). simpl. congruence.
  - subst. reflexivity.
  - subst. reflexivity.
  - subst. reflexivity.
Qed.

Lemma rebuilt_strip e l' o nm :
  map strip_arg l' = map strip_arg (args (op e)) ->
  nm = name e ->
  strip (MkExpr o (ty e) nm (MkNode (cls (op e)) l')) = strip e.
Proof.
  intros Hl ->. destruct e as [o0 t0 nm0 [c0 l0]]. simpl in *.
  rewrite Hl. reflexivity.
Qed.

(** With the empty mapping every result is structurally equal to its
    input, whatever the cache returns. *)
Lemma _substitute_empty_structural fuel :
  SubSpec cache_structural (fun _ => True)
    (fun e r => strip r = strip e) (_substitute lib fuel []).
Proof.
  induction fuel as [|fuel IH]; intros e c n r c' n' HI _ H.
  - discriminate.
  - simpl in H.
    destruct (blocks lib (op e)).
    { unfold ret in H. inv H. auto. }
    apply bind_Ok in H. destruct H as ([[l' u] c1] & n1 & Hl & H).
    assert (Hmemo : SubSpec cache_structural (fun _ => True)
                      (fun e r => strip r = strip e)
                      (memoize (_substitute lib fuel []))).
    { apply memoize_spec.
      - exact IH.
      - intros c0 e0 v HI0 _ Hget. apply HI0. exact Hget.
      - intros c0 e0 r0 HI0 _ HP k v. rewrite cache_get_set.
        destruct (key_eqb (_key e0) k) eqn:Hk.
        + intros Hv. inv Hv. apply key_eqb_eq in Hk. subst k. exact HP.
        + apply HI0. }
    destruct (substitute_args_spec _ _ _ _ Hmemo _ _ _ _ _ _ _ _ HI
                (fun _ _ => Logic.I) Hl) as (HI1 & HF & _ & _).
    apply ArgSub_strip in HF.
    destruct u.
    { unfold ret in H. inv H. auto. }
    destruct (new_node lib (cls (op e)) l') as [nn|x] eqn:Hnn.
    + unfold new_node in Hnn.
      destruct (validate lib (cls (op e)) l'); [discriminate|]. inv Hnn.
      apply bind_Ok in H. destruct H as (ne & n2 & Hne & H).
      unfold alloc in Hne. inv Hne.
      destruct (name e) as [nm|] eqn:Hname.
      * apply bind_Ok in H. destruct H as (ne' & n3 & Hne' & H).
        unfold rename, alloc in Hne'. simpl in Hne'. inv Hne'.
        unfold ret in H. inv H. split; [|assumption].
        apply rebuilt_strip; auto.
      * unfold ret in H. inv H. split; [|assumption].
        apply rebuilt_strip; auto.
    + destruct x; try discriminate.
      unfold ret in H. inv H. auto.
Qed.

Lemma Substitutor_substitute_empty_structural fuel e n r n' :
  Substitutor_substitute lib fuel e [] n = Ok (r, n') ->
  strip r = strip e.
Proof.
  unfold Substitutor_substitute, substitute. intros H.
  apply bind_Ok in H. destruct H as ([r1 c1] & n1 & Hr & H).
  unfold ret in H. inv H.
  assert (Hmemo : SubSpec cache_structural (fun _ => True)
                    (fun e r => strip r = strip e)
                    (memoize (_substitute lib fuel []))).
  { apply memoize_spec.
    - apply _substitute_empty_structural.
    - intros c0 e0 v HI0 _ Hget. apply HI0. exact Hget.
    - intros c0 e0 r0 HI0 _ HP k v. rewrite cache_get_set.
      destruct (key_eqb (_key e0) k) eqn:Hk.
      + intros Hv. inv Hv. apply key_eqb_eq in Hk. subst k. exact HP.
      + apply HI0. }
  assert (Hnil : cache_structural []).
  { intros k v Hget. discriminate. }
  destruct (Hmemo _ _ _ _ _ _ Hnil Logic.I Hr) as [HP _]. exact HP.
Qed.

(** *** Termination within the recursion budget *)

Lemma arg_depth_le a l :
  In a l -> arg_depth a <= list_max (map arg_depth l).
Proof.
  intros Hin.
  assert (H : Forall (fun k => k <= list_max (map arg_depth l))
                (map arg_depth l)).
  { apply list_max_le. apply Nat.le_refl. }
  rewrite Forall_forall in H. apply H. apply in_map. exact Hin.
Qed.

Lemma depth_arg e x : In (AExpr x) (args (op e)) -> depth x < depth e.
Proof.
  destruct e as [o t nm [c l]]. simpl. intros Hin.
  apply arg_depth_le in Hin. simpl in Hin. lia.
Qed.

Lemma memoize_total f e :
  (forall c n, exists r c' n', f e c n = Ok (r, c', n')) ->
  forall c n, exists r c' n', memoize f e c n = Ok (r, c', n').
Proof.
  intros Hf c n. unfold memoize.
  destruct (cache_get c (_key e)) as [v|].
  - unfold ret. eauto.
  - unfold bind. destruct (Hf c n) as (r & c' & n' & ->).
    unfold ret. eauto.
Qed.

Lemma substitute_args_total sub l :
  (forall x, In (AExpr x) l ->
             forall c n, exists r c' n', sub x c n = Ok (r, c', n')) ->
  forall u c n,
  exists l' u' c' n', substitute_args sub l u c n = Ok (l', u', c', n').
Proof.
  induction l as [|a l IH]; intros Hsub u c n; simpl.
  - unfold ret. eauto.
  - assert (Hrest : forall u c n,
               exists l' u' c' n',
                 substitute_args sub l u c n = Ok (l', u', c', n')).
    { apply IH. intros x Hx. apply Hsub. right. exact Hx. }
    destruct a as [arg|v| |s]; unfold bind.
    + destruct (Hsub arg (or_introl eq_refl) c n) as (r & c1 & n1 & ->).
      destruct (Hrest (u && is_ r arg) c1 n1) as (l' & u' & c2 & n2 & ->).
      unfold ret. eauto.
    + destruct (Hrest u c n) as (l' & u' & c2 & n2 & ->).
      unfold ret. eauto.
    + destruct (Hrest u c n) as (l' & u' & c2 & n2 & ->).
      unfold ret. eauto.
    + destruct (Hrest u c n) as (l' & u' & c2 & n2 & ->).
      unfold ret. eauto.
Qed.

(** When node constructors raise nothing but [IbisTypeError], a
    substitution whose budget covers the depth of the expression
    returns. *)
Lemma _substitute_total :
  only_type_errors lib ->
  forall fuel mapping e c n,
    depth e <= fuel ->
    exists r c' n', _substitute lib fuel mapping e c n = Ok (r, c', n').
Proof.
  intros Hval fuel mapping.
  induction fuel as [|fuel IH]; intros e c n Hd.
  - destruct e. simpl in Hd. lia.
  - simpl.
    destruct (mapping_get mapping (op e)); [unfold ret; eauto|].
    destruct (blocks lib (op e)); [unfold ret; eauto|].
    unfold bind.
    destruct (substitute_args_total
                (memoize (_substitute lib fuel mapping)) (args (op e)))
      with (u := true) (c := c) (n := n)
      as (l' & u' & c' & n' & ->).
    { intros x Hx. apply memoize_total. intros c0 n0. apply IH.
      apply depth_arg in Hx. lia. }
    destruct u'; [unfold ret; eauto|].
    unfold new_node.
    destruct (validate lib (cls (op e)) l') as [x|] eqn:Hv.
    + rewrite (Hval _ _ _ Hv). unfold ret. eauto.
    + unfold alloc, rename, alloc, ret.
      destruct (name e); eauto.
Qed.

Lemma Substitutor_substitute_total :
  only_type_errors lib ->
  forall fuel mapping e n,
    depth e <= fuel ->
    exists r n', Substitutor_substitute lib fuel e mapping n = Ok (r, n').
Proof.
  intros Hval fuel mapping e n Hd.
  unfold Substitutor_substitute, substitute, bind.
  destruct (memoize_total (_substitute lib fuel mapping) e) with
    (c := @nil (Expr * Expr)) (n := n) as (r & c' & n' & ->).
  { intros c0 n0. apply _substitute_total; assumption. }
  unfold ret. eauto.
Qed.

(** *** Expressions whose equal subexpressions are shared *)

Lemma In_arg_flat x l :
  In (AExpr x) l -> exists i, nth_error (flat_map arg_exprs l) i = Some x.
Proof.
  intros Hin. apply In_nth_error. apply in_flat_map.
  exists (AExpr x). split; [assumption|]. simpl. auto.
Qed.

Lemma SubExprAt_snoc p root e :
  SubExprAt p root e ->
  forall i x,
    nth_error (flat_args (op e)) i = Some x ->
    SubExprAt (p ++ [i]) root x.
Proof.
  induction 1 as [e|i0 p e c y Hnth Hsub IH]; intros i x Hx; simpl.
  - apply SubExprAt_child with (c := x); [assumption|constructor].
  - apply SubExprAt_child with (c := c); [assumption|].
    apply IH. exact Hx.
Qed.

Lemma SubExprAt_arg p root e x :
  SubExprAt p root e ->
  In (AExpr x) (args (op e)) ->
  exists q, SubExprAt q root x.
Proof.
  intros Hsub Hin. apply In_arg_flat in Hin. destruct Hin as [i Hi].
  exists (p ++ [i]). eapply SubExprAt_snoc; eauto.
Qed.

Section Shared.

Variable root : Expr.
Hypothesis Hshared : shared root.

Lemma memoize_returns_itself f e p :
  SubExprAt p root e ->
  returns_itself root f e ->
  returns_itself root (memoize f) e.
Proof.
  intros Hsub Hf c n Hc. unfold memoize.
  destruct (cache_get c (_key e)) as [v|] eqn:Hget.
  - destruct (Hc _ _ Hget) as [[q Hq] Hv].
    assert (v = e) by (eapply Hshared; eauto). subst v.
    unfold ret. eauto.
  - unfold bind. destruct (Hf c n Hc) as (c1 & -> & Hc1).
    unfold ret. eexists. split; [reflexivity|].
    intros k v. rewrite cache_get_set.
    destruct (key_eqb (_key e) k) eqn:Hk.
    + intros Hv. inv Hv. apply key_eqb_eq in Hk. subst k.
      split; [eauto|reflexivity].
    + apply Hc1.
Qed.

Lemma substitute_args_returns_itself sub l :
  (forall x, In (AExpr x) l -> returns_itself root sub x) ->
  forall u c n,
    cache_within root c ->
    exists c',
      substitute_args sub l u c n = Ok (l, u, c', n)
      /\ cache_within root c'.
Proof.
  induction l as [|a l IH]; intros Hsub u c n Hc; simpl.
  - unfold ret. eauto.
  - assert (Hrest : forall u c n,
               cache_within root c ->
               exists c',
                 substitute_args sub l u c n = Ok (l, u, c', n)
                 /\ cache_within root c').
    { apply IH. intros x Hx. apply Hsub. right. exact Hx. }
    destruct a as [arg|v| |s]; unfold bind.
    + destruct (Hsub arg (or_introl eq_refl) c n Hc) as (c1 & -> & Hc1).
      rewrite is__refl, andb_true_r.
      destruct (Hrest u c1 n Hc1) as (c2 & -> & Hc2).
      unfold ret. eauto.
    + destruct (Hrest u c n Hc) as (c2 & -> & Hc2). unfold ret. eauto.
    + destruct (Hrest u c n Hc) as (c2 & -> & Hc2). unfold ret. eauto.
    + destruct (Hrest u c n Hc) as (c2 & -> & Hc2). unfold ret. eauto.
Qed.

Lemma _substitute_empty_shared fuel :
  forall e p,
    depth e <= fuel ->
    SubExprAt p root e ->
    returns_itself root (_substitute lib fuel []) e.
Proof.
  induction fuel as [|fuel IH]; intros e p Hd Hsub c n Hc.
  - destruct e. simpl in Hd. lia.
  - simpl.
    destruct (blocks lib (op e)); [unfold ret; eauto|].
    unfold bind.
    destruct (substitute_args_returns_itself
                (memoize (_substitute lib fuel [])) (args (op e)))
      with (u := true) (c := c) (n := n) as (c1 & -> & Hc1); auto.
    { intros x Hx.
      destruct (SubExprAt_arg _ _ _ _ Hsub Hx) as [q Hq].
      apply memoize_returns_itself with (p := q); [assumption|].
      apply IH with (p := q); [|assumption].
      apply depth_arg in Hx. lia. }
    unfold ret. eauto.
Qed.

End Shared.

Lemma Substitutor_substitute_empty_shared fuel e n :
  shared e ->
  depth e <= fuel ->
  Substitutor_substitute lib fuel e [] n = Ok (e, n).
Proof.
  intros Hs Hd. unfold Substitutor_substitute, substitute, bind.
  destruct (memoize_returns_itself e Hs (_substitute lib fuel []) e []
              (SubExprAt_here e)
              (_substitute_empty_shared e Hs fuel e [] Hd
                 (SubExprAt_here e)) [] n)
    as (c' & -> & _).
  { intros k v Hget. discriminate. }
  reflexivity.
Qed.

End SubstituteEmpty.

Section IdentityPreservation.

Variable lib : Library.


End IdentityPreservation.

(** ** Substitutor: the blocking boundary *)

Section StripLemmas.

Lemma strip_idem_all :
  (forall e, strip (strip e) = strip e).
Proof.
  apply (Expr_induction
           (fun e => strip (strip e) = strip e)
           (fun n => strip_node (strip_node n) = strip_node n)
           (fun a => strip_arg (strip_arg a) = strip_arg a)).
  - intros o t nm n IH. simpl. rewrite IH. reflexivity.
  - intros c l IH. simpl. f_equal. rewrite map_map.
    apply map_ext_Forall. exact IH.
  - intros e IH. simpl. rewrite IH. reflexivity.
  - reflexivity.
  - reflexivity.
  - intros l IH. simpl. f_equal. rewrite map_map.
    apply map_ext_Forall. exact IH.
Qed.

Lemma arg_exprs_strip a :
  arg_exprs (strip_arg a) = map strip (arg_exprs a).
Proof.
  revert a.
  apply (Arg_induction
           (fun _ => True) (fun _ => True)
           (fun a => arg_exprs (strip_arg a) = map strip (arg_exprs a)));
    auto.
  intros l IH. simpl. induction IH as [|a l Ha Hl IHl]; simpl.
  - reflexivity.
  - rewrite map_app, Ha, IHl. reflexivity.
Qed.

Lemma flat_args_strip n :
  flat_args (strip_node n) = map strip (flat_args n).
Proof.
  destruct n as [c l]. unfold flat_args. simpl.
  induction l as [|a l IH]; simpl; [reflexivity|].
  rewrite map_app, arg_exprs_strip, IH. reflexivity.
Qed.

Lemma op_strip e : op (strip e) = strip_node (op e).
Proof. destruct e. reflexivity. Qed.

Lemma SubExprAt_strip p e x :
  SubExprAt p e x -> SubExprAt p (strip e) (strip x).
Proof.
  induction 1 as [e|i p e c x Hnth Hsub IH].
  - constructor.
  - apply SubExprAt_child with (c := strip c); [|assumption].
    rewrite op_strip, flat_args_strip, nth_error_map, Hnth. reflexivity.
Qed.

Lemma SubExprAt_unstrip p :
  forall e y,
    SubExprAt p (strip e) y ->
    exists x, SubExprAt p e x /\ y = strip x.
Proof.
  induction p as [|i p IH]; intros e y H.
  - inv H. exists e. split; [constructor|reflexivity].
  - inversion H as [|i' p' e' c y' Hc Hy]; subst.
    rewrite op_strip, flat_args_strip, nth_error_map in Hc.
    destruct (nth_error (flat_args (op e)) i) as [c0|] eqn:Hnth;
      [|discriminate].
    simpl in Hc. inv Hc.
    destruct (IH _ _ Hy) as (x & Hx & ->).
    exists x. split; [|reflexivity].
    apply SubExprAt_child with (c := c0); assumption.
Qed.

Lemma size_strip_all : forall e, size (strip e) = size e.
Proof.
  apply (Expr_induction
           (fun e => size (strip e) = size e)
           (fun n => node_size (strip_node n) = node_size n)
           (fun a => arg_size (strip_arg a) = arg_size a)).
  - intros o t nm n IH. simpl. rewrite IH. reflexivity.
  - intros c l IH. simpl. rewrite map_map. f_equal.
    apply map_ext_Forall. exact IH.
  - intros e IH. simpl. exact IH.
  - reflexivity.
  - reflexivity.
  - intros l IH. simpl. rewrite map_map. f_equal.
    apply map_ext_Forall. exact IH.
Qed.

Lemma node_size_strip n : node_size (strip_node n) = node_size n.
Proof.
  pose proof (size_strip_all (MkExpr 0 TableExpr None n)) as H.
  simpl in H. lia.
Qed.

Lemma size_op e : size e = S (node_size (op e)).
Proof. destruct e. reflexivity. Qed.

Lemma arg_exprs_size a :
  forall c, In c (arg_exprs a) -> size c <= arg_size a.
Proof.
  revert a.
  apply (Arg_induction
           (fun _ => True) (fun _ => True)
           (fun a => forall c, In c (arg_exprs a) -> size c <= arg_size a));
    auto.
  - intros e _ c [<-|[]]. simpl. lia.
  - intros a c [].
  - intros c [].
  - intros l IH c Hin. simpl in *.
    induction IH as [|a l Ha Hl IHl]; simpl in *; [contradiction|].
    apply in_app_or in Hin. destruct Hin as [Hin|Hin].
    + apply Ha in Hin. lia.
    + apply IHl in Hin. lia.
Qed.

Lemma flat_args_size n c : In c (flat_args n) -> size c <= node_size n.
Proof.
  destruct n as [k l]. unfold flat_args. simpl.
  induction l as [|a l IH]; simpl; [contradiction|].
  intros Hin. apply in_app_or in Hin. destruct Hin as [Hin|Hin].
  - apply arg_exprs_size in Hin. lia.
  - apply IH in Hin. lia.
Qed.

Lemma SubExprAt_size p e x : SubExprAt p e x -> size x <= size e.
Proof.
  induction 1 as [e|i p e c x Hnth Hsub IH]; [lia|].
  apply nth_error_In, flat_args_size in Hnth. rewrite (size_op e). lia.
Qed.

Lemma SubExprAt_size_strict p e x :
  SubExprAt p e x -> p <> [] -> size x < size e.
Proof.
  intros H Hp. inversion H as [|i' p' e' c y' Hc Hy]; subst; [congruence|].
  apply SubExprAt_size in Hy.
  apply nth_error_In, flat_args_size in Hc. rewrite (size_op e). lia.
Qed.

End StripLemmas.

Section Boundary.

Variable lib : Library.

Lemma mapping_get_In m k v :
  mapping_get m k = Some v ->
  exists k', In (k', v) m /\ strip_node k' = strip_node k.
Proof.
  induction m as [|[k0 v0] m IH]; simpl; [discriminate|].
  destruct (node_eqb k0 k) eqn:Hk.
  - intros H. inv H. exists k0. split; [left; reflexivity|].
    apply node_eqb_eq. exact Hk.
  - intros H. destruct (IH H) as (k' & Hin & Heq). eauto.
Qed.

Lemma ArgSub_flat_nth (P : Expr -> Expr -> Prop) l l' :
  Forall2 (ArgSub P) l l' ->
  (forall x, P x x) ->
  forall i c,
    nth_error (flat_map arg_exprs l) i = Some c ->
    exists c', nth_error (flat_map arg_exprs l') i = Some c' /\ P c c'.
Proof.
  intros HF Hrefl. induction HF as [|a a' l l' Ha Hl IH]; intros i c Hi.
  - destruct i; discriminate.
  - simpl in *. destruct a as [x|v| |s]; simpl in Ha.
    + destruct Ha as (r & -> & Hr). simpl in *.
      destruct i as [|i]; simpl in *.
      * inv Hi. eauto.
      * apply IH. exact Hi.
    + subst a'. simpl in *. apply IH. exact Hi.
    + subst a'. simpl in *. apply IH. exact Hi.
    + subst a'.
      destruct (Nat.lt_ge_cases i (List.length (arg_exprs (ASeq s))))
        as [Hlt|Hge].
      * rewrite nth_error_app1 in * by assumption. eauto.
      * rewrite nth_error_app2 in * by assumption. apply IH. exact Hi.
Qed.

Lemma Keeps_refl b e : Keeps b e e.
Proof. intros p x Hx Hb. eauto. Qed.

Lemma Keeps_of_strip b e r : Keeps b (strip e) r -> Keeps b e r.
Proof.
  intros H p x Hx Hb. apply SubExprAt_strip in Hx.
  apply (H p (strip x) Hx). rewrite strip_idem_all. exact Hb.
Qed.

Lemma Keeps_to_strip b e r : Keeps b e r -> Keeps b (strip e) r.
Proof.
  intros H p y Hy Hb. apply SubExprAt_unstrip in Hy.
  destruct Hy as (x & Hx & ->). rewrite strip_idem_all in Hb.
  apply (H p x Hx Hb).
Qed.

Section Fixed.

Variable mapping : Mapping.
Variable b : Expr.
Hypothesis Hblocks : blocks lib (op b) = true.
Hypothesis Hstruct : blocks_structural lib.
Hypothesis Hkeys : keys_strictly_inside mapping b.

Lemma key_is_smaller k v :
  In (k, v) mapping -> node_size k < node_size (op b).
Proof.
  intros Hin. destruct (Hkeys _ _ Hin) as (q & x & Hq & Hsub & Heq).
  apply SubExprAt_size_strict in Hsub; [|assumption].
  rewrite <- (node_size_strip k), <- Heq, node_size_strip.
  rewrite !size_op in Hsub. lia.
Qed.

Lemma replaced_holds_no_copy e v :
  mapping_get mapping (op e) = Some v -> Keeps b e v.
Proof.
  intros Hget p x Hx Hb. exfalso.
  destruct (mapping_get_In _ _ _ Hget) as (k & Hin & Heq).
  apply key_is_smaller in Hin.
  apply SubExprAt_size in Hx.
  assert (Hs : size x = size b).
  { rewrite <- (size_strip_all x), Hb, size_strip_all. reflexivity. }
  rewrite <- (node_size_strip k), Heq, node_size_strip in Hin.
  rewrite !size_op in *. lia.
Qed.

Lemma memoize_Keeps f :
  SubSpec (cache_keeps b) (fun _ => True) (Keeps b) f ->
  SubSpec (cache_keeps b) (fun _ => True) (Keeps b) (memoize f).
Proof.
  intros Hf. apply memoize_spec.
  - exact Hf.
  - intros c e v Hc _ Hget. apply Keeps_of_strip. apply (Hc _ _ Hget).
  - intros c e r Hc _ HP k v. rewrite cache_get_set.
    destruct (key_eqb (_key e) k) eqn:Hk.
    + intros Hv. inv Hv. apply key_eqb_eq in Hk. subst k.
      apply Keeps_to_strip. exact HP.
    + apply Hc.
Qed.

Lemma rebuilt_Keeps e l' o t nm :
  blocks lib (op e) = false ->
  Forall2 (ArgSub (Keeps b)) (args (op e)) l' ->
  Keeps b e (MkExpr o t nm (MkNode (cls (op e)) l')).
Proof.
  intros Hnb HF p x Hx Hb.
  inversion Hx as [|i p' e' c x' Hc Hsub]; subst.
  - exfalso.
    assert (Heq : strip_node (op x) = strip_node (op b)).
    { rewrite <- !op_strip, Hb. reflexivity. }
    rewrite (Hstruct _ _ Heq) in Hnb. congruence.
  - unfold flat_args in Hc.
    destruct (ArgSub_flat_nth (Keeps b) _ _ HF (Keeps_refl b) _ _ Hc)
      as (c' & Hc' & HK).
    destruct (HK _ _ Hsub Hb) as (x' & Hx' & Hb').
    exists x'. split; [|assumption].
    apply SubExprAt_child with (c := c'); assumption.
Qed.

Lemma _substitute_Keeps fuel :
  SubSpec (cache_keeps b) (fun _ => True) (Keeps b)
    (_substitute lib fuel mapping).
Proof.
  induction fuel as [|fuel IH]; intros e c n r c' n' HI _ H.
  - discriminate.
  - simpl in H.
    destruct (mapping_get mapping (op e)) as [v|] eqn:Hget.
    { unfold ret in H. inv H. split; [|assumption].
      apply replaced_holds_no_copy. exact Hget. }
    destruct (blocks lib (op e)) eqn:Hnb.
    { unfold ret in H. inv H. split; [apply Keeps_refl|assumption]. }
    apply bind_Ok in H. destruct H as ([[l' u] c1] & n1 & Hl & H).
    destruct (substitute_args_spec _ _ _ _ (memoize_Keeps _ IH)
                _ _ _ _ _ _ _ _ HI (fun _ _ => Logic.I) Hl)
      as (HI1 & HF & _ & _).
    destruct u.
    { unfold ret in H. inv H. split; [apply Keeps_refl|assumption]. }
    destruct (new_node lib (cls (op e)) l') as [nn|x] eqn:Hnn.
    + unfold new_node in Hnn.
      destruct (validate lib (cls (op e)) l'); [discriminate|]. inv Hnn.
      apply bind_Ok in H. destruct H as (ne & n2 & Hne & H).
      unfold alloc in Hne. inv Hne.
      destruct (name e) as [nm|].
      * apply bind_Ok in H. destruct H as (ne' & n3 & Hne' & H).
        unfold rename, alloc in Hne'. simpl in Hne'. inv Hne'.
        unfold ret in H. inv H. split; [|assumption].
        apply rebuilt_Keeps; assumption.
      * unfold ret in H. inv H. split; [|assumption].
        apply rebuilt_Keeps; assumption.
    + destruct x; try discriminate.
      unfold ret in H. inv H. split; [apply Keeps_refl|assumption].
Qed.

End Fixed.

(** C2. Let [b] be a blocking subexpression of [e], at the path [p], and
  let every key of the mapping be a node strictly inside [b], where
  [blocks()] looks at the structure of a node only.  Whenever
  [Substitutor().substitute(e, mapping)] returns, its result holds at
  [p] an expression structurally equal to [b]: nothing inside the
  subtree of [b] is altered.  And it does return when the recursion
  budget covers the depth of [e] and node constructors raise nothing but
  [IbisTypeError]. *)
Theorem C2_blocking_boundary fuel e mapping b p n :
blocks_structural lib ->
SubExprAt p e b ->
blocks lib (op b) = true ->
keys_strictly_inside mapping b ->
(forall r n',
   Substitutor_substitute lib fuel e mapping n = Ok (r, n') ->
   exists b', SubExprAt p r b' /\ strip b' = strip b)
/\ (only_type_errors lib ->
    depth e <= fuel ->
    exists r n', Substitutor_substitute lib fuel e mapping n = Ok (r, n')).
Proof.
intros Hstruct Hsub Hblocks Hkeys. split.
- intros r n' Hr.
  assert (HK : Keeps b e r).
  { unfold Substitutor_substitute, substitute in Hr.
    apply bind_Ok in Hr. destruct Hr as ([r1 c1] & n1 & Hr1 & Hr).
    unfold ret in Hr. inv Hr.
    assert (Hnil : cache_keeps b []).
    { intros k v Hget. discriminate. }
    pose proof (_substitute_Keeps mapping b Hblocks Hstruct Hkeys fuel)
      as Hs.
    apply memoize_Keeps in Hs.
    destruct (Hs _ _ _ _ _ _ Hnil Logic.I Hr1) as [HK _].
    exact HK. }
  destruct (HK _ _ Hsub eq_refl) as (b' & Hb' & Heq).
  exists b'. auto.
- intros Hval Hd.
  apply (Substitutor_substitute_total lib Hval fuel mapping e n Hd).
Qed.

End Boundary.

(** ** Graph traversal *)

Section TraverseLemmas.

Context {R : Type}.
Variable fn : Visitor R.
Variable type_ok : ExprType -> bool.
Variable dedup : bool.
Variable stop : R -> bool.

Local Abbreviation walk_expr := (walk_expr fn type_ok dedup stop).
Local Abbreviation walk_node := (walk_node fn type_ok dedup stop).
Local Abbreviation walk_arg := (walk_arg fn type_ok dedup stop).
Local Abbreviation walk_list := (walk_list fn type_ok dedup stop).

Lemma walk_list_app l1 l2 st n :
  walk_list (l1 ++ l2) st n
  = bind (walk_list l1 st) (fun st' => walk_list l2 st') n.
Proof.
  revert st n. induction l1 as [|e l1 IH]; intros st n; simpl.
  - reflexivity.
  - unfold bind.
    destruct (walk_expr e st n) as [[st1 n1]|x]; [|reflexivity].
    rewrite IH. reflexivity.
Qed.

(** The walk over the arguments of a node is the walk over its flattened
    arguments. *)
Lemma walk_arg_flat :
  forall a st n, walk_arg a st n = walk_list (arg_exprs a) st n.
Proof.
  apply (Arg_induction
           (fun _ => True) (fun _ => True)
           (fun a => forall st n,
                walk_arg a st n = walk_list (arg_exprs a) st n)); auto.
  - intros e _ st n. simpl. unfold bind.
    destruct (walk_expr e st n) as [[st1 n1]|x]; reflexivity.
  - intros l IH. simpl.
    induction IH as [|a l Ha Hl IHl]; intros st n; simpl.
    + reflexivity.
    + rewrite walk_list_app. unfold bind. rewrite Ha.
      destruct (walk_list (arg_exprs a) st n) as [[st1 n1]|x];
        [|reflexivity].
      apply IHl.
Qed.

Lemma walk_node_flat nd st n :
  walk_node nd st n = walk_list (flat_args nd) st n.
Proof.
  destruct nd as [c l]. unfold flat_args. simpl.
  revert st n. induction l as [|a l IH]; intros st n; simpl.
  - reflexivity.
  - rewrite walk_list_app. unfold bind. rewrite walk_arg_flat.
    destruct (walk_list (arg_exprs a) st n) as [[st1 n1]|x];
      [|reflexivity].
    apply IH.
Qed.

Lemma walk_expr_unfold e st n :
  walk_expr e st n
  = (if stopped st then ret st
     else if negb (type_ok (ty e)) then ret st
     else if dedup && was_seen (op e) (seen st) then ret st
     else
       ' (control, result) <- fn e ;;
       let st1 := visited dedup stop (op e) result st in
       if stopped st1 then ret st1
       else
         match control with
         | halt => ret st1
         | proceed => walk_list (flat_args (op e)) st1
         end) n.
Proof.
  destruct e as [o t nm nd]. simpl.
  destruct (stopped st); [reflexivity|].
  destruct (negb (type_ok t)); [reflexivity|].
  destruct (dedup && was_seen nd (seen st)); [reflexivity|].
  unfold bind. destruct (fn (MkExpr o t nm nd) n) as [[[c r] n1]|x];
    [|reflexivity].
  simpl.
  destruct (match r with Some r0 => stop r0 | None => false end);
    [reflexivity|].
  destruct c; [|reflexivity].
  apply walk_node_flat.
Qed.

Lemma walk_expr_stopped e st n :
  stopped st = true -> walk_expr e st n = Ok (st, n).
Proof. intros H. rewrite walk_expr_unfold, H. reflexivity. Qed.

Lemma walk_list_stopped l st n :
  stopped st = true -> walk_list l st n = Ok (st, n).
Proof.
  intros H. induction l as [|e l IH]; simpl; [reflexivity|].
  unfold bind. rewrite walk_expr_stopped by assumption. exact IH.
Qed.

Local Abbreviation stops_at_result := (stops_at_result stop).

Lemma walk_list_stops k :
  (forall e st n st' n',
      size e <= k -> walk_expr e st n = Ok (st', n') ->
      stops_at_result st st' /\ incl (yielded st) (yielded st')) ->
  forall l st n st' n',
    (forall c, In c l -> size c <= k) ->
    walk_list l st n = Ok (st', n') ->
    stops_at_result st st' /\ incl (yielded st) (yielded st').
Proof.
  intros HE l. induction l as [|e l IH]; intros st n st' n' Hk H; simpl in H.
  - unfold ret in H. inv H. split; [intros Hs; auto|apply incl_refl].
  - apply bind_Ok in H. destruct H as (st1 & n1 & He & Hl).
    destruct (HE _ _ _ _ _ (Hk e (or_introl eq_refl)) He) as [H1 Hi1].
    destruct (IH _ _ _ _ (fun c Hc => Hk c (or_intror Hc)) Hl)
      as [H2 Hi2].
    split; [|eapply incl_tran; eauto].
    intros Hs. destruct (H2 Hs) as [Hs1|Hr]; [|auto].
    destruct (H1 Hs1) as [Hs0|(r & Hr & Hstop)]; [auto|].
    right. exists r. auto.
Qed.

Lemma walk_expr_stops :
  forall k e st n st' n',
    size e <= k -> walk_expr e st n = Ok (st', n') ->
    stops_at_result st st' /\ incl (yielded st) (yielded st').
Proof.
  induction k as [|k IHk]; intros e st n st' n' Hk H.
  { destruct e. simpl in Hk. lia. }
  rewrite walk_expr_unfold in H.
  assert (Hrefl : stops_at_result st st /\ incl (yielded st) (yielded st)).
  { split; [intros Hs; auto|apply incl_refl]. }
  destruct (stopped st) eqn:Hst.
  { unfold ret in H. inv H. exact Hrefl. }
  destruct (negb (type_ok (ty e))).
  { unfold ret in H. inv H. exact Hrefl. }
  destruct (dedup && was_seen (op e) (seen st)).
  { unfold ret in H. inv H. exact Hrefl. }
  apply bind_Ok in H. destruct H as ([c r] & n1 & Hfn & H).
  cbv zeta in H.
  set (st1 := visited dedup stop (op e) r st) in *.
  assert (H1 : stops_at_result st st1 /\ incl (yielded st) (yielded st1)).
  { subst st1. unfold stops_at_result, visited. simpl.
    destruct r as [r|].
    - split; [|apply incl_appl, incl_refl].
      intros Hs. right. exists r. split; [|assumption].
      apply in_or_app. right. left. reflexivity.
    - split; [discriminate|apply incl_refl]. }
  destruct (stopped st1) eqn:Hst1.
  { unfold ret in H. inv H. exact H1. }
  destruct c.
  - destruct (walk_list_stops k IHk (flat_args (op e)) st1 n1 st' n')
      as [H2 Hi2]; auto.
    { intros c Hc. apply flat_args_size in Hc. rewrite size_op in Hk. lia. }
    destruct H1 as [_ Hi1]. split; [|eapply incl_tran; eauto].
    intros Hs. destruct (H2 Hs) as [Hs1|Hr]; [congruence|auto].
  - unfold ret in H. inv H. exact H1.
Qed.

End TraverseLemmas.

Section WalkComplete.

Context {R T : Type}.
Variable Rec : Walk R -> T -> Prop.
Variable g : Expr -> Result (Control * option R).
Variable fn : Visitor R.
Variable type_ok : ExprType -> bool.
Variable stop : R -> bool.
Variable Q : Expr -> T -> Prop.

Hypothesis Hpure : forall e n, fn e n = lift_result (g e) n.
Hypothesis Hctl : same_control g.
Hypothesis Hmono :
  forall st st' r,
    incl (seen st) (seen st') -> incl (yielded st) (yielded st') ->
    Rec st r -> Rec st' r.
Hypothesis Hhere :
  forall e c r0 st y r,
    g e = Ok (c, r0) ->
    strip_node (op y) = strip_node (op e) ->
    Q y r ->
    Rec (visited true stop (op e) r0 st) r.

Local Abbreviation walk_expr := (walk_expr fn type_ok true stop).
Local Abbreviation walk_list := (walk_list fn type_ok true stop).
Local Abbreviation Inv := (WalkInv Rec g type_ok Q).
Local Abbreviation Step := (WalkStep Rec g type_ok Q).
Local Abbreviation Complete := (CompleteNode Rec g type_ok Q).
Local Abbreviation Reach := (Reaches g type_ok Q).
Local Abbreviation Yields := (Yield g type_ok).
Local Abbreviation walk_expr_ok :=
  (walk_expr_ok Rec g fn type_ok stop Q).

Lemma Complete_mono nd st st' :
  incl (seen st) (seen st') -> incl (yielded st) (yielded st') ->
  Complete nd st -> Complete nd st'.
Proof.
  intros Hs Hy H y r Hyn Hr. apply Hmono with (st := st); auto.
  apply (H y r Hyn Hr).
Qed.

Lemma Reaches_type_ok r e : Reach r e -> type_ok (ty e) = true.
Proof. intros H. inv H; assumption. Qed.

Lemma strip_ty a b : strip a = strip b -> ty a = ty b.
Proof.
  destruct a as [o1 t1 n1 nd1], b as [o2 t2 n2 nd2]. simpl.
  intros H. inv H. reflexivity.
Qed.

Lemma strip_op a b :
  strip a = strip b -> strip_node (op a) = strip_node (op b).
Proof.
  destruct a as [o1 t1 n1 nd1], b as [o2 t2 n2 nd2]. simpl.
  intros H. inv H. reflexivity.
Qed.

Lemma was_seen_In nd l :
  was_seen nd l = true ->
  exists x, In x l /\ strip_node x = strip_node nd.
Proof.
  unfold was_seen. intros H. apply existsb_exists in H.
  destruct H as (x & Hin & Heq). apply node_eqb_eq in Heq. eauto.
Qed.

Lemma child_size e c :
  In c (flat_args (op e)) -> node_size (op c) < node_size (op e).
Proof.
  intros Hin. apply flat_args_size in Hin. rewrite size_op in Hin. lia.
Qed.

Lemma walk_list_ok k :
  walk_expr_ok k ->
  forall l st n st' n' B,
    (forall c, In c l -> size c <= k) ->
    walk_list l st n = Ok (st', n') ->
    stopped st' = false ->
    (forall c, In c l -> node_size (op c) < B) ->
    Inv B st ->
    n' = n
    /\ Step B B (fun r => exists c, In c l /\ Yields r c) st st'
    /\ (forall c, In c l -> type_ok (ty c) = true -> seen_node st' c).
Proof.
  intros HE l.
  induction l as [|e l IH]; intros st n st' n' B Hk H Hns HB HI; simpl in H.
  - unfold ret in H. inv H. split; [reflexivity|]. split.
    + repeat split; auto using incl_refl.
    + intros c [].
  - apply bind_Ok in H. destruct H as (st1 & n1 & He & Hl).
    assert (Hns1 : stopped st1 = false).
    { destruct (stopped st1) eqn:Hs; [|reflexivity].
      rewrite walk_list_stopped in Hl by assumption. inv Hl. congruence. }
    destruct (HE _ _ _ _ _ B (Hk e (or_introl eq_refl)) He Hns1
                (HB e (or_introl eq_refl)) HI)
      as (-> & (HI1 & Hs1 & Hy1 & Hn1 & Hf1) & Hw1).
    destruct (IH _ _ _ _ B (fun c Hc => Hk c (or_intror Hc)) Hl Hns
                (fun c Hc => HB c (or_intror Hc)) HI1)
      as (-> & (HI2 & Hs2 & Hy2 & Hn2 & Hf2) & Hw2).
    split; [reflexivity|]. split.
    + repeat split.
      * exact HI2.
      * eapply incl_tran; eauto.
      * eapply incl_tran; eauto.
      * intros nd Hnd. destruct (Hn2 nd Hnd) as [Hold|Hnew]; [|auto].
        destruct (Hn1 nd Hold) as [Hold1|Hnew1]; [auto|].
        right. specialize (HB e (or_introl eq_refl)). lia.
      * intros r Hr. destruct (Hf2 r Hr) as [Hold|(c & Hc & Hyc)].
        -- destruct (Hf1 r Hold) as [Hold1|Hnew1]; [auto|].
           right. exists e. split; [left; reflexivity|assumption].
        -- right. exists c. split; [right; assumption|assumption].
    + intros c [<-|Hc] Hty.
      * destruct (Hw1 Hty) as (nd & Hnd & Heq).
        exists nd. split; [apply Hs2; assumption|assumption].
      * apply Hw2; assumption.
Qed.

Lemma walk_expr_all : forall k, walk_expr_ok k.
Proof.
  induction k as [|k IHk];
    intros e st n st' n' B Hk H Hns HB HI.
  { destruct e. simpl in Hk. lia. }
  rewrite walk_expr_unfold in H.
  destruct (stopped st) eqn:Hst.
  { unfold ret in H. inv H. congruence. }
  assert (Hrefl : Step B (S (node_size (op e))) (fun r => Yields r e) st st).
  { repeat split; auto using incl_refl. }
  destruct (type_ok (ty e)) eqn:Hty; simpl in H.
  2:{ unfold ret in H. inv H. repeat split; auto using incl_refl.
      discriminate. }
  destruct (was_seen (op e) (seen st)) eqn:Hseen.
  { unfold ret in H. inv H. split; [reflexivity|]. split; [exact Hrefl|].
    intros _. apply was_seen_In in Hseen. exact Hseen. }
  apply bind_Ok in H. destruct H as ([c r] & n1 & Hfn & H).
  rewrite Hpure in Hfn. apply lift_result_Ok in Hfn.
  destruct Hfn as [Hge ->].
  set (st1 := visited true stop (op e) r st) in *.
  assert (Hy1 : incl (yielded st) (yielded st1)).
  { subst st1. unfold visited. simpl. destruct r; [|apply incl_refl].
    apply incl_appl, incl_refl. }
  assert (Hs1 : incl (seen st) (seen st1)).
  { subst st1. simpl. apply incl_tl, incl_refl. }
  assert (Hf1 : forall r0, In r0 (yielded st1) ->
                           In r0 (yielded st) \/ Yields r0 e).
  { subst st1. unfold visited. simpl. destruct r as [r1|]; [|auto].
    intros r0 Hr0. apply in_app_or in Hr0. destruct Hr0 as [?|[<-|[]]];
      [auto|].
    right. eapply Yield_here; eauto. }
  assert (Hold : forall nd B0,
             In nd (seen st) -> node_size nd < B0 -> B0 <= B ->
             Complete nd st1).
  { intros nd B0 Hnd Hsz HB0. apply Complete_mono with (st := st);
      [assumption|assumption|]. apply HI; [assumption|lia]. }
  assert (Hwit : seen_node st1 e).
  { exists (op e). split; [left; reflexivity|reflexivity]. }
  change (match r with Some r0 => stop r0 | None => false end)
    with (stopped st1) in H.
  destruct (stopped st1) eqn:Hst1.
  { unfold ret in H. inv H. congruence. }
  destruct c.
  - (* proceed *)
    destruct (walk_list_ok k IHk (flat_args (op e)) st1 n st' n'
                (node_size (op e))) as (-> & (HI2 & Hs2 & Hy2 & Hn2 & Hf2) & Hw2);
      auto.
    { intros c Hc. apply flat_args_size in Hc. rewrite size_op in Hk. lia. }
    { intros c Hc. apply child_size. exact Hc. }
    { intros nd [<-|Hnd] Hsz; [lia|]. apply (Hold nd _ Hnd Hsz). lia. }
    split; [reflexivity|]. split.
    + repeat split.
      * intros nd Hnd Hsz. destruct (Hn2 nd Hnd) as [[<-|Hin]|Hnew].
        -- (* the node of [e] itself *)
           intros y r0 Hy HY.
           inversion HY as [y' r' Hty' HQ|y' o' c' r' Hty' Hgy Hin Hsub];
             subst.
           ++ apply Hmono with (st := st1); auto.
              subst st1. eapply Hhere; eauto.
           ++ assert (Hm : map strip (flat_args (op y))
                           = map strip (flat_args (op e))).
              { rewrite <- !flat_args_strip, Hy. reflexivity. }
              assert (Hc : In (strip c') (map strip (flat_args (op e)))).
              { rewrite <- Hm. apply in_map. exact Hin. }
              apply in_map_iff in Hc. destruct Hc as (ce & Hce & Hcin).
              pose proof (Reaches_type_ok _ _ Hsub) as Htyc.
              rewrite <- (strip_ty _ _ Hce) in Htyc.
              destruct (Hw2 ce Hcin Htyc) as (nd & Hnd' & Hnd'eq).
              assert (Hsz' : node_size nd < node_size (op e)).
              { rewrite <- (node_size_strip nd), Hnd'eq, node_size_strip.
                apply child_size. exact Hcin. }
              apply (HI2 nd Hnd' Hsz' c' r0); [|exact Hsub].
              rewrite Hnd'eq. symmetry. apply strip_op. exact Hce.
        -- apply Complete_mono with (st := st1); [assumption|assumption|].
           apply (Hold nd B Hin Hsz). lia.
        -- apply HI2; assumption.
      * eapply incl_tran; eauto.
      * eapply incl_tran; eauto.
      * intros nd Hnd. destruct (Hn2 nd Hnd) as [[<-|Hin]|Hnew].
        -- right. lia.
        -- left. assumption.
        -- right. lia.
      * intros r0 Hr0. destruct (Hf2 r0 Hr0) as [Hin|(c & Hc & Hyc)].
        -- apply Hf1. exact Hin.
        -- right. eapply Yield_child; eauto.
    + intros _. destruct Hwit as (nd & Hnd & Heq).
      exists nd. split; [apply Hs2; assumption|assumption].
  - (* halt *)
    unfold ret in H. inv H. split; [reflexivity|]. split; [|auto].
    repeat split; auto.
    + intros nd [<-|Hnd] Hsz.
      * intros y r0 Hy HY.
        inversion HY as [y' r' Hty' HQ|y' o' c' r' Hty' Hgy Hin Hsub];
          subst.
        -- subst st1. eapply Hhere; eauto.
        -- pose proof (Hctl e y _ _ _ _ (eq_sym Hy) Hge Hgy).
           discriminate.
      * apply (Hold nd B Hnd Hsz). lia.
    + intros nd [<-|Hnd]; [right; lia|left; assumption].
Qed.

Lemma WalkInv_nil B : Inv B (MkWalk [] [] false).
Proof. intros nd []. Qed.

(** A traversal with deduplication, whose visitor is the function [g]
    with the same control signal on equal nodes and whose consumer takes
    the whole sequence, allocates nothing, yields results of the
    expressions that a walk from the roots reaches only, and records all
    that such a walk reaches. *)
Theorem walk_reaches roots n st n' :
  walk_list roots (MkWalk [] [] false) n = Ok (st, n') ->
  (forall r, In r (yielded st) -> stop r = false) ->
  n' = n
  /\ (forall r, In r (yielded st) -> exists c, In c roots /\ Yields r c)
  /\ (forall c r, In c roots -> Reach r c -> Rec st r).
Proof.
  intros Hw Hstop.
  set (k := list_sum (map size roots)).
  assert (Hk : forall c, In c roots -> size c <= k).
  { intros c Hc. subst k. clear - Hc.
    induction roots as [|e l IH]; [contradiction|].
    simpl. destruct Hc as [<-|Hc]; [lia|]. apply IH in Hc. lia. }
  assert (Hns : stopped st = false).
  { destruct (stopped st) eqn:Hs; [|reflexivity].
    destruct (walk_list_stops fn type_ok true stop k
                (walk_expr_stops fn type_ok true stop k)
                roots _ _ _ _ Hk Hw) as [Hst _].
    destruct (Hst Hs) as [Hs0|(r & Hr & Hsr)]; [discriminate|].
    rewrite (Hstop r Hr) in Hsr. discriminate. }
  destruct (walk_list_ok k (walk_expr_all k) roots _ _ _ _ (S k)
              Hk Hw Hns) as (-> & (HI & _ & _ & _ & Hf) & Hwit).
  { intros c Hc. apply Hk in Hc. rewrite size_op in Hc. lia. }
  { apply WalkInv_nil. }
  split; [reflexivity|]. split.
  - intros r Hr. destruct (Hf r Hr) as [[]|Hc]. exact Hc.
  - intros c r Hc HY.
    destruct (Hwit c Hc (Reaches_type_ok _ _ HY)) as (nd & Hnd & Heq).
    assert (Hsz : node_size nd < S k).
    { rewrite <- (node_size_strip nd), Heq, node_size_strip.
      apply Hk in Hc. rewrite size_op in Hc. lia. }
    apply (HI nd Hnd Hsz c r); [symmetry; exact Heq|exact HY].
Qed.

End WalkComplete.

Section TraverseYields.

Context {R : Type}.
Variable eqR : R -> R -> Prop.
Variable g : Expr -> Result (Control * option R).
Variable fn : Visitor R.
Variable type_ok : ExprType -> bool.
Variable stop : R -> bool.

Hypothesis Hpure : forall e n, fn e n = lift_result (g e) n.
Hypothesis Hg : structural_visitor eqR g.

Lemma Yield_Reaches r e :
  Yield g type_ok r e -> Reaches g type_ok (answers g) r e.
Proof.
  induction 1 as [e c r Hty Hg0|e o c r Hty Hg0 Hin Hsub IH].
  - apply Reaches_here; [assumption|]. exists c. exact Hg0.
  - eapply Reaches_child; eauto.
Qed.

(** What a traversal with deduplication yields, when the visitor is the
    function [g], answers alike on equal nodes, and the consumer takes
    the whole sequence: exactly the results of the expressions that a
    walk from the roots reaches, up to [eqR]. *)
Theorem traverse_yields roots n out n' :
  traverse fn type_ok true stop roots n = Ok (out, n') ->
  (forall r, In r out -> stop r = false) ->
  n' = n
  /\ (forall r, In r out -> exists c, In c roots /\ Yield g type_ok r c)
  /\ (forall c r, In c roots -> Yield g type_ok r c ->
                  exists r', In r' out /\ eqR r' r).
Proof.
  intros H Hstop. unfold traverse in H.
  apply bind_Ok in H. destruct H as (st & n1 & Hw & H).
  unfold ret in H. inv H.
  destruct (walk_reaches (yielded_upto eqR) g fn type_ok stop (answers g)
              Hpure) with (roots := roots) (n := n) (st := st) (n' := n')
    as (-> & Hsound & Hcomplete); auto.
  - intros x y cx rx cy ry Heq Hx Hy.
    destruct (Hg x y cx rx cy ry Heq Hx Hy) as [Hc _]. exact Hc.
  - intros st0 st' r Hs Hy (r' & Hr' & He). exists r'. auto.
  - intros e c r0 st0 y r Hge Heq (cy & Hgy).
    destruct (Hg e y _ _ _ _ (eq_sym Heq) Hge Hgy) as [_ Hrel].
    destruct r0 as [r1|]; simpl in Hrel; [|contradiction].
    exists r1. split; [|assumption]. simpl. apply in_or_app. right.
    left. reflexivity.
  - split; [reflexivity|]. split; [exact Hsound|].
    intros c r Hc HY. apply (Hcomplete c r Hc). apply Yield_Reaches.
    exact HY.
Qed.

End TraverseYields.

Section TraverseVisits.

Context {R : Type}.
Variable g : Expr -> Result (Control * option R).
Variable fn : Visitor R.
Variable type_ok : ExprType -> bool.
Variable stop : R -> bool.

Hypothesis Hpure : forall e n, fn e n = lift_result (g e) n.
Hypothesis Hg :
  forall x y, strip_node (op x) = strip_node (op y) -> g x = g y.

(** The visitor answered on every expression that a walk from the roots
    reaches. *)
Theorem traverse_visits roots n out n' :
  traverse fn type_ok true stop roots n = Ok (out, n') ->
  (forall r, In r out -> stop r = false) ->
  forall c x,
    In c roots -> Reaches g type_ok is_it x c -> exists a, g x = Ok a.
Proof.
  intros H Hstop c x Hc Hx. unfold traverse in H.
  apply bind_Ok in H. destruct H as (st & n1 & Hw & H).
  unfold ret in H. inv H.
  destruct (walk_reaches (visited_ok g) g fn type_ok stop is_it Hpure)
    with (roots := roots) (n := n) (st := st) (n' := n')
    as (_ & _ & Hcomplete); auto.
  - intros a b ca ra cb rb Heq Ha Hb. rewrite (Hg _ _ Heq) in Ha.
    congruence.
  - intros st0 st' r Hs Hy [(nd & Hnd & Heq) Hok].
    split; [|exact Hok]. exists nd. auto.
  - intros e c0 r0 st0 y r Hge Heq HQ. unfold is_it in HQ. subst r.
    split.
    + exists (op e). split; [left; reflexivity|]. symmetry. exact Heq.
    + rewrite (Hg _ _ Heq). eauto.
  - destruct (Hcomplete c x Hc Hx) as [_ Hok]. exact Hok.
Qed.

(** When the visitor never halts, a walk reaches every expression of the
    requested type inside the roots. *)
Lemma Reaches_snoc root x :
  Reaches g type_ok is_it x root ->
  forall o c,
    g x = Ok (proceed, o) ->
    In c (flat_args (op x)) ->
    type_ok (ty c) = true ->
    Reaches g type_ok is_it c root.
Proof.
  induction 1 as [e r Hty HQ|e o0 c0 r Hty Hge Hin Hsub IH];
    intros o c Hgx Hc Htc.
  - unfold is_it in HQ. subst r.
    eapply Reaches_child; eauto.
    apply Reaches_here; [assumption|reflexivity].
  - eapply Reaches_child; eauto.
Qed.

Lemma Inside_type_ok e x : Inside type_ok e x -> type_ok (ty e) = true.
Proof. intros H. inv H; assumption. Qed.

Lemma Inside_Reaches root :
  (forall x, Reaches g type_ok is_it x root -> exists o, g x = Ok (proceed, o)) ->
  forall e x,
    Inside type_ok e x ->
    Reaches g type_ok is_it e root ->
    Reaches g type_ok is_it x root.
Proof.
  intros Hok e x HI. induction HI as [e Hty|e c x Hty Hin Hsub IH];
    intros He.
  - exact He.
  - apply IH. destruct (Hok e He) as (o & Ho).
    apply (Reaches_snoc root e He o c Ho Hin).
    apply Inside_type_ok with (x := x). exact Hsub.
Qed.

End TraverseVisits.

(** ** Root tables *)

Section Roots.

Variable lib : Library.

Lemma _find_root_table_pure e n :
  _find_root_table lib e n = lift_result (root_answer lib e) n.
Proof.
  unfold _find_root_table, root_answer.
  destruct (is_Selection (cls (op e))).
  - unfold bind.
    destruct (node_table (op e)) as [t|x]; simpl; [|reflexivity].
    destruct (node_selections (op e)) as [s|x]; simpl; [|reflexivity].
    destruct (new_node lib Selection (Selection_args t s [] []));
      reflexivity.
  - destruct (blocks lib (op e)); reflexivity.
Qed.

Lemma strip_node_cls a b : strip_node a = strip_node b -> cls a = cls b.
Proof. destruct a, b. simpl. intros H. inv H. reflexivity. Qed.

Lemma strip_node_args a b :
  strip_node a = strip_node b ->
  map strip_arg (args a) = map strip_arg (args b).
Proof. destruct a, b. simpl. intros H. inv H. reflexivity. Qed.

Lemma strip_args_nth l1 l2 i :
  map strip_arg l1 = map strip_arg l2 ->
  option_map strip_arg (nth_error l1 i)
  = option_map strip_arg (nth_error l2 i).
Proof.
  intros H. rewrite <- !nth_error_map, H. reflexivity.
Qed.

Lemma node_table_strip a b ta tb :
  strip_node a = strip_node b ->
  node_table a = Ok ta -> node_table b = Ok tb -> strip ta = strip tb.
Proof.
  intros H Ha Hb. apply strip_node_args in H.
  pose proof (strip_args_nth _ _ 0 H) as H0.
  unfold node_table, arg_expr in *.
  destruct (nth_error (args a) 0) as [[x| | |]|]; try discriminate.
  destruct (nth_error (args b) 0) as [[y| | |]|]; try discriminate.
  inv Ha. inv Hb. simpl in H0. inv H0. reflexivity.
Qed.

Lemma arg_seq_strip a b i sa sb :
  strip_node a = strip_node b ->
  arg_seq a i = Ok sa -> arg_seq b i = Ok sb ->
  map strip_arg sa = map strip_arg sb.
Proof.
  intros H Ha Hb. apply strip_node_args in H.
  pose proof (strip_args_nth _ _ i H) as H0.
  unfold arg_seq in *.
  destruct (nth_error (args a) i) as [[| | |x]|]; try discriminate.
  destruct (nth_error (args b) i) as [[| | |y]|]; try discriminate.
  inv Ha. inv Hb. simpl in H0. inv H0. reflexivity.
Qed.

Lemma node_name_strip a b :
  strip_node a = strip_node b -> node_name a = node_name b.
Proof.
  intros H. apply strip_node_args in H.
  pose proof (strip_args_nth _ _ 1 H) as H0.
  unfold node_name, arg_str.
  destruct (nth_error (args a) 1) as [[x|x| |x]|];
    destruct (nth_error (args b) 1) as [[y|y| |y]|];
    simpl in H0; try discriminate; try reflexivity.
  inv H0. reflexivity.
Qed.

Lemma root_answer_structural :
  blocks_structural lib ->
  structural_visitor node_equiv (root_answer lib).
Proof.
  intros Hb x y cx rx cy ry Heq Hx Hy. unfold root_answer in *.
  rewrite <- (strip_node_cls _ _ Heq) in Hy.
  destruct (is_Selection (cls (op x))).
  - destruct (node_table (op x)) as [tx|] eqn:Htx; [|discriminate].
    destruct (node_table (op y)) as [ty|] eqn:Hty; [|discriminate].
    destruct (node_selections (op x)) as [sx|] eqn:Hsx; [|discriminate].
    destruct (node_selections (op y)) as [sy|] eqn:Hsy; [|discriminate].
    unfold new_node in *.
    destruct (validate lib Selection (Selection_args tx sx [] []));
      [discriminate|].
    destruct (validate lib Selection (Selection_args ty sy [] []));
      [discriminate|].
    inv Hx. inv Hy. split; [reflexivity|].
    simpl. unfold node_equiv. simpl.
    rewrite (node_table_strip _ _ _ _ Heq Htx Hty).
    rewrite (arg_seq_strip _ _ _ _ _ Heq Hsx Hsy). reflexivity.
  - rewrite <- (Hb _ _ Heq) in Hy.
    destruct (blocks lib (op x)); inv Hx; inv Hy;
      split; simpl; auto.
Qed.

(** The roots of a list of expressions, as [shares_all_roots] and
    [shares_some_roots] compute them. *)
Lemma roots_spec roots n out n' :
  blocks_structural lib ->
  traverse (_find_root_table lib) any_type true take_all roots n
    = Ok (out, n') ->
  n' = n
  /\ (forall r, In r out -> exists c, In c roots /\ RootOf lib r c)
  /\ (forall c r, In c roots -> RootOf lib r c ->
                  exists r', In r' out /\ node_equiv r' r).
Proof.
  intros Hb H.
  apply (traverse_yields node_equiv (root_answer lib)
           (_find_root_table lib) any_type take_all
           _find_root_table_pure (root_answer_structural Hb)
           roots n out n' H).
  intros r _. reflexivity.
Qed.

Lemma node_equiv_refl a : node_equiv a a.
Proof. reflexivity. Qed.

Lemma node_equiv_trans a b c :
  node_equiv a b -> node_equiv b c -> node_equiv a c.
Proof. unfold node_equiv. congruence. Qed.

Lemma node_equiv_sym a b : node_equiv a b -> node_equiv b a.
Proof. unfold node_equiv. congruence. Qed.

Lemma Selection_flat_args s t sels preds sorts :
  op s = MkNode Selection (Selection_args t sels preds sorts) ->
  flat_args (op s)
  = (t :: flat_map arg_exprs sels) ++ flat_map arg_exprs (preds ++ sorts).
Proof.
  intros ->. unfold flat_args, Selection_args. simpl.
  rewrite app_nil_r, flat_map_app. reflexivity.
Qed.

Lemma Selection_root_answer s t sels preds sorts :
  op s = MkNode Selection (Selection_args t sels preds sorts) ->
  root_answer lib s
  = match new_node lib Selection (Selection_args t sels [] []) with
    | Raise x => Raise x
    | Ok n => Ok (proceed, Some n)
    end.
Proof. intros H. unfold root_answer. rewrite H. reflexivity. Qed.

(** The roots of one selection are roots of another selection over the
    same table and selection list, when the predicates and sort keys of
    the first lead to no further root. *)
Lemma RootOf_Selection_transfer t sels preds1 sorts1 preds2 sorts2 s1 s2 :
  op s1 = MkNode Selection (Selection_args t sels preds1 sorts1) ->
  op s2 = MkNode Selection (Selection_args t sels preds2 sorts2) ->
  roots_covered lib (flat_map arg_exprs (preds1 ++ sorts1))
    (t :: flat_map arg_exprs sels) ->
  forall r, RootOf lib r s1 ->
            exists r', RootOf lib r' s2 /\ node_equiv r' r.
Proof.
  intros H1 H2 Hcov r Hr.
  pose proof (Selection_root_answer _ _ _ _ _ H1) as A1.
  pose proof (Selection_root_answer _ _ _ _ _ H2) as A2.
  pose proof (Selection_flat_args _ _ _ _ _ H1) as F1.
  pose proof (Selection_flat_args _ _ _ _ _ H2) as F2.
  unfold RootOf in *.
  inversion Hr as [e c r0 Hty Hg|e o c r0 Hty Hg Hin Hsub]; subst.
  - exists r. split; [|apply node_equiv_refl].
    apply Yield_here with (c := c); [reflexivity|].
    rewrite A2, <- A1. exact Hg.
  - rewrite F1 in Hin. apply in_app_or in Hin.
    destruct Hin as [Hin|Hin].
    + exists r. split; [|apply node_equiv_refl].
      apply Yield_child with (o := o) (c := c); auto.
      * rewrite A2, <- A1. exact Hg.
      * rewrite F2. apply in_or_app. left. exact Hin.
    + destruct (Hcov c r Hin Hsub) as (c' & r' & Hc' & Hr' & Heq).
      exists r'. split; [|assumption].
      apply Yield_child with (o := o) (c := c'); auto.
      * rewrite A2, <- A1. exact Hg.
      * rewrite F2. apply in_or_app. left. exact Hc'.
Qed.

Lemma node_subset_true a b :
  (forall r, In r a -> exists r', In r' b /\ node_equiv r' r) ->
  node_subset a b = true.
Proof.
  intros H. unfold node_subset. apply forallb_forall. intros x Hx.
  destruct (H x Hx) as (r' & Hr' & Heq).
  unfold was_seen. apply existsb_exists. exists r'. split; [assumption|].
  unfold node_eqb, node_equiv in *.
  destruct (Node_eq_dec (strip_node x) (strip_node r')); congruence.
Qed.

Lemma traverse_root_visited s n out n' :
  traverse (_find_root_table lib) any_type true take_all [s] n
    = Ok (out, n') ->
  exists a, _find_root_table lib s n = Ok (a, n).
Proof.
  unfold traverse. intros H.
  apply bind_Ok in H. destruct H as (st & n1 & Hw & _).
  simpl in Hw. apply bind_Ok in Hw. destruct Hw as (st1 & n2 & He & _).
  rewrite walk_expr_unfold in He. simpl in He.
  apply bind_Ok in He. destruct He as ([c r] & n3 & Hfn & _).
  rewrite _find_root_table_pure in *.
  destruct (root_answer lib s) as [a|x]; [|discriminate].
  exists a. reflexivity.
Qed.

(** C5, as the code has it.  Two selections over the same table and the
    same selection list, which differ in their predicates and sort keys
    only: [_find_root_table] answers on both with the same selection
    without predicates and sort keys, and goes on below them; when every
    root that their predicates and sort keys lead to is also reached from
    the table or the selection list, their root sets are equal and
    [shares_all_roots] returns true. *)
Theorem C5_root_equivalence
  t sels preds1 sorts1 preds2 sorts2 s1 s2 n R1 R2 n1 n2 :
  blocks_structural lib ->
  op s1 = MkNode Selection (Selection_args t sels preds1 sorts1) ->
  op s2 = MkNode Selection (Selection_args t sels preds2 sorts2) ->
  traverse (_find_root_table lib) any_type true take_all [s1] n
    = Ok (R1, n1) ->
  traverse (_find_root_table lib) any_type true take_all [s2] n
    = Ok (R2, n2) ->
  roots_covered lib (flat_map arg_exprs (preds1 ++ sorts1))
    (t :: flat_map arg_exprs sels) ->
  roots_covered lib (flat_map arg_exprs (preds2 ++ sorts2))
    (t :: flat_map arg_exprs sels) ->
  _find_root_table lib s1 n
    = Ok (proceed, Some (MkNode Selection (Selection_args t sels [] [])), n)
  /\ _find_root_table lib s2 n
     = Ok (proceed, Some (MkNode Selection (Selection_args t sels [] [])),
           n)
  /\ same_roots R1 R2
  /\ shares_all_roots lib [s1] [s2] n = Ok (true, n).
Proof.
  intros Hb H1 H2 T1 T2 C1 C2.
  destruct (roots_spec _ _ _ _ Hb T1) as (-> & S1 & K1).
  destruct (roots_spec _ _ _ _ Hb T2) as (-> & S2 & K2).
  assert (Hsame : same_roots R1 R2).
  { split.
    - intros r Hr. destruct (S1 r Hr) as (c & [<-|[]] & Hc).
      destruct (RootOf_Selection_transfer _ _ _ _ _ _ _ _ H1 H2 C1 r Hc)
        as (r' & Hr' & Heq).
      destruct (K2 s2 r' (or_introl eq_refl) Hr') as (r2 & Hr2 & Heq2).
      exists r2. split; [assumption|].
      eapply node_equiv_trans; eauto.
    - intros r Hr. destruct (S2 r Hr) as (c & [<-|[]] & Hc).
      destruct (RootOf_Selection_transfer _ _ _ _ _ _ _ _ H2 H1 C2 r Hc)
        as (r' & Hr' & Heq).
      destruct (K1 s1 r' (or_introl eq_refl) Hr') as (r2 & Hr2 & Heq2).
      exists r2. split; [assumption|].
      eapply node_equiv_trans; eauto. }
  assert (Hnorm : forall s preds sorts out,
             op s = MkNode Selection (Selection_args t sels preds sorts) ->
             traverse (_find_root_table lib) any_type true take_all [s] n
               = Ok (out, n) ->
             _find_root_table lib s n
             = Ok (proceed,
                   Some (MkNode Selection (Selection_args t sels [] [])),
                   n)).
  { intros s preds sorts out Hs Ht.
    destruct (traverse_root_visited _ _ _ _ Ht) as (a & Ha).
    rewrite _find_root_table_pure in *.
    rewrite (Selection_root_answer _ _ _ _ _ Hs) in *.
    unfold new_node in *.
    destruct (validate lib Selection (Selection_args t sels [] []));
      [discriminate|]. reflexivity. }
  split; [eapply Hnorm; eauto|].
  split; [eapply Hnorm; eauto|].
  split; [exact Hsame|].
  unfold shares_all_roots, bind. rewrite T1, T2. unfold ret.
  rewrite node_subset_true; [reflexivity|].
  intros r Hr. destruct Hsame as [Hs _].
  destruct (Hs r Hr) as (r' & Hr' & Heq). exists r'. split; auto.
Qed.

End Roots.

(** ** Scalar reductions *)

Section Reductions.

Variable lib : Library.


End Reductions.

(** ** Predicate pushdown: the result of [_filter_selection] *)

Section FilterSelection.

Variable lib : Library.

Lemma Selection_fields n table selections predicates sort_keys :
  n = MkNode Selection
        (Selection_args table selections predicates sort_keys) ->
  node_table n = Ok table
  /\ node_selections n = Ok selections
  /\ node_predicates n = Ok predicates
  /\ node_sort_keys n = Ok sort_keys.
Proof. intros ->. repeat split. Qed.

(** C8, as the code has it, for a selection that blocks.  When every
    predicate validates, the result is a selection with the table, the
    selection list and the sort keys of the original, and with its
    predicates followed by the simplified new ones; when a predicate
    does not validate, the result is a new selection over the original
    expression with no selection list and the predicates as they are.
    In both cases the constructor of the selection accepts the
    arguments. *)
Theorem C8_pushdown_frame
  fuel expr table selections predicates0 sort_keys predicates n :
  op expr = MkNode Selection
              (Selection_args table selections predicates0 sort_keys) ->
  blocks lib (op expr) = true ->
  (forall n1 simplified n2,
      _can_pushdown lib fuel (op expr) predicates n = Ok (true, n1) ->
      map_M (fun x => substitute_parents lib fuel x true) predicates n1
        = Ok (simplified, n2) ->
      let fused :=
        MkNode Selection
          (Selection_args table selections
             (predicates0 ++ map AExpr simplified) sort_keys) in
      validate lib Selection (args fused) = None ->
      _filter_selection lib fuel expr predicates n
      = Ok (MkExpr n2 (output_type lib fused) None fused, S n2))
  /\ (forall n1,
         _can_pushdown lib fuel (op expr) predicates n = Ok (false, n1) ->
         let wrapped :=
           MkNode Selection
             (Selection_args expr [] (map AExpr predicates) []) in
         validate lib Selection (args wrapped) = None ->
         _filter_selection lib fuel expr predicates n
         = Ok (MkExpr n1 (output_type lib wrapped) None wrapped, S n1)).
Proof.
  intros Hop Hblocks.
  destruct (Selection_fields _ _ _ _ _ Hop) as (Ht & Hs & Hp & Hk).
  split.
  - intros n1 simplified n2 Hcan Hmap fused Hval.
    unfold _filter_selection. rewrite Hblocks. simpl.
    unfold bind. rewrite Hcan. unfold bind. rewrite Hmap.
    rewrite Hp, Ht, Hs, Hk. simpl.
    unfold new_node. subst fused. simpl in Hval. rewrite Hval.
    reflexivity.
  - intros n1 Hcan wrapped Hval.
    unfold _filter_selection. rewrite Hblocks. simpl.
    unfold bind. rewrite Hcan. simpl.
    unfold new_node. subst wrapped. simpl in Hval. rewrite Hval.
    reflexivity.
Qed.

End FilterSelection.

(** ** Lifting that may not cross a projection *)

Section Blocked.

Variable lib : Library.

Lemma Agree_ret {A B} (a : A) (b : B) : Agree (ret a) (ret b) a b.
Proof. left. split; reflexivity. Qed.

Lemma Agree_bind {A B C D} (ma : M A) (mb : M B) a b
  (f : A -> M C) (g : B -> M D) c d :
  Agree ma mb a b ->
  Agree (f a) (g b) c d ->
  Agree (bind ma f) (bind mb g) c d.
Proof.
  intros [[Ha Hb]|(e & Ha & Hb)] H.
  - destruct H as [[Hf Hg]|(e & Hf & Hg)].
    + left. split; intros n; unfold bind.
      * rewrite Ha. apply Hf.
      * rewrite Hb. apply Hg.
    + right. exists e. split; intros n; unfold bind.
      * rewrite Ha. apply Hf.
      * rewrite Hb. apply Hg.
  - right. exists e. split; intros n; unfold bind.
    + rewrite Ha. reflexivity.
    + rewrite Hb. reflexivity.
Qed.

Lemma Agree_raise_bind {A B C D} (ma : M A) (mb : M B)
  (f : A -> M C) (g : B -> M D) (c : C) (d : D) e :
  (forall n, ma n = Raise e) -> (forall m, mb m = Raise e) ->
  Agree (bind ma f) (bind mb g) c d.
Proof.
  intros Ha Hb. right. exists e. split; intros n; unfold bind.
  - rewrite Ha. reflexivity.
  - rewrite Hb. reflexivity.
Qed.

Lemma nth_strip_agree l1 l2 i :
  map strip_arg l1 = map strip_arg l2 ->
  match nth_error l1 i, nth_error l2 i with
  | Some a, Some b => strip_arg a = strip_arg b
  | None, None => True
  | _, _ => False
  end.
Proof.
  intros H. pose proof (strip_args_nth _ _ i H) as H0.
  destruct (nth_error l1 i), (nth_error l2 i); simpl in H0;
    try discriminate; auto.
  congruence.
Qed.

Lemma node_table_agree a b :
  strip_node a = strip_node b ->
  (exists ta tb, node_table a = Ok ta /\ node_table b = Ok tb
                 /\ strip ta = strip tb)
  \/ (node_table a = Raise AttributeError
      /\ node_table b = Raise AttributeError).
Proof.
  intros H. apply strip_node_args in H.
  pose proof (nth_strip_agree _ _ 0 H) as H0.
  unfold node_table, arg_expr.
  destruct (nth_error (args a) 0) as [[x|x| |x]|];
    destruct (nth_error (args b) 0) as [[y|y| |y]|];
    simpl in H0; try discriminate; try contradiction; auto.
  left. exists x, y. repeat split; auto. simpl in H0. congruence.
Qed.

Lemma arg_seq_agree a b i :
  strip_node a = strip_node b ->
  (exists sa sb, arg_seq a i = Ok sa /\ arg_seq b i = Ok sb
                 /\ map strip_arg sa = map strip_arg sb)
  \/ (arg_seq a i = Raise AttributeError
      /\ arg_seq b i = Raise AttributeError).
Proof.
  intros H. apply strip_node_args in H.
  pose proof (nth_strip_agree _ _ i H) as H0.
  unfold arg_seq.
  destruct (nth_error (args a) i) as [[x|x| |x]|];
    destruct (nth_error (args b) i) as [[y|y| |y]|];
    simpl in H0; try discriminate; try contradiction; auto.
  left. exists x, y. repeat split; auto. simpl in H0. congruence.
Qed.

Lemma as_expr_agree a b :
  strip_arg a = strip_arg b ->
  (exists x y, as_expr a = Ok x /\ as_expr b = Ok y /\ strip x = strip y)
  \/ (as_expr a = Raise AttributeError
      /\ as_expr b = Raise AttributeError).
Proof.
  destruct a, b; simpl; intros H; try discriminate; auto.
  left. do 2 eexists. repeat split; eauto. congruence.
Qed.

Lemma find_lift_outcome n1 n2 s1 :
  node_name n1 = node_name n2 ->
  forall s2 acc1 acc2,
    map strip_arg s1 = map strip_arg s2 ->
    same_outcome (find_lift lib n1 s1 acc1) (find_lift lib n2 s2 acc2).
Proof.
  intros Hn. induction s1 as [|a s1 IH]; intros s2 acc1 acc2 Hs;
    destruct s2 as [|b s2]; try discriminate; simpl.
  - exact I.
  - simpl in Hs. injection Hs as Hab Hs.
    destruct (as_expr_agree _ _ Hab)
      as [(x & y & -> & -> & Hxy)|[-> ->]]; [|reflexivity].
    rewrite <- (strip_cls _ _ Hxy).
    destruct (is_PhysicalTable (cls (op x))); [|apply IH; assumption].
    rewrite Hn. destruct (node_name n2) as [nm|e]; [|reflexivity].
    destruct (existsb (String.eqb nm) (schema lib x));
      destruct (existsb (String.eqb nm) (schema lib y));
      apply IH; assumption.
Qed.

(** When lifting may not cross a projection, no column is lifted. *)
Lemma column_lift_blocked x y :
  strip_node (op x) = strip_node (op y) ->
  (column_lift lib x true = Ok None /\ column_lift lib y true = Ok None)
  \/ (exists e, column_lift lib x true = Raise e
                /\ column_lift lib y true = Raise e).
Proof.
  intros H. unfold column_lift.
  destruct (node_table_agree _ _ H)
    as [(tx & ty & -> & -> & Ht)|[-> ->]]; [|eauto].
  rewrite <- (strip_cls _ _ Ht).
  destruct (is_Selection (cls (op tx))); [|auto].
  destruct (arg_seq_agree _ _ 1 (strip_op _ _ Ht))
    as [(sx & sy & Hsx & Hsy & Hs)|[Hsx Hsy]];
    unfold node_selections; rewrite Hsx, Hsy; [|eauto].
  pose proof (find_lift_outcome (op x) (op y) sx (node_name_strip _ _ H)
                sy None None Hs) as Ho.
  destruct (find_lift lib (op x) sx None) as [[rx|]|ex];
    destruct (find_lift lib (op y) sy None) as [[ry|]|ey];
    simpl in Ho; try contradiction; subst; simpl; eauto.
Qed.

Section BlockedStep.

Variable fuel : nat.
Hypothesis IH :
  forall x y,
    strip_node (op x) = strip_node (op y) ->
    Agree (get_result lib fuel x true) (get_result lib fuel y true) x y.

Lemma lift_blocked a b :
  strip a = strip b ->
  Agree (lift lib (get_result lib fuel) a true)
        (lift lib (get_result lib fuel) b true) a b.
Proof.
  intros H. unfold lift. rewrite <- (strip_cls _ _ H).
  pose proof (IH a b (strip_op _ _ H)) as Hsub.
  destruct (is_Value (cls (op a))); [exact Hsub|].
  destruct (is_Selection (cls (op a))); [apply Agree_ret|].
  destruct (is_TableNode (cls (op a)) || is_HasSchema lib (cls (op a)));
    [apply Agree_ret|exact Hsub].
Qed.

Lemma _lift_blocked a b c :
  strip_arg a = strip_arg b ->
  Agree (_lift lib (get_result lib fuel) true a c)
        (_lift lib (get_result lib fuel) true b c) (a, c) (b, c).
Proof.
  destruct a as [x|v| |s], b as [y|w| |s']; simpl; intros H;
    try discriminate; try apply Agree_ret.
  apply Agree_bind with (a := x) (b := y).
  - apply lift_blocked. congruence.
  - left. split; intros n; unfold ret;
      rewrite is__refl, Nat.add_0_r; reflexivity.
Qed.

Lemma map_lift_blocked l1 :
  forall l2 c,
    map strip_arg l1 = map strip_arg l2 ->
    Agree (map_lift lib (get_result lib fuel) true l1 c)
          (map_lift lib (get_result lib fuel) true l2 c)
          (l1, c) (l2, c).
Proof.
  induction l1 as [|a l1 IHl]; intros l2 c H;
    destruct l2 as [|b l2]; try discriminate; simpl.
  - apply Agree_ret.
  - simpl in H. injection H as Hab Hl.
    apply Agree_bind with (a := (a, c)) (b := (b, c)).
    + apply _lift_blocked. exact Hab.
    + apply Agree_bind with (a := (l1, c)) (b := (l2, c)).
      * apply IHl. exact Hl.
      * apply Agree_ret.
Qed.

Lemma _lift_arg_blocked a b :
  strip_arg a = strip_arg b ->
  Agree (_lift_arg lib (get_result lib fuel) a true)
        (_lift_arg lib (get_result lib fuel) b true)
        (a, true) (b, true).
Proof.
  intros H.
  assert (Helem :
    Agree
      (' (result, changed) <-
         _lift lib (get_result lib fuel) true a 0 ;;
       ret (result, Nat.eqb changed 0))
      (' (result, changed) <-
         _lift lib (get_result lib fuel) true b 0 ;;
       ret (result, Nat.eqb changed 0))
      (a, true) (b, true)).
  { apply Agree_bind with (a := (a, 0)) (b := (b, 0)).
    - apply _lift_blocked. exact H.
    - apply Agree_ret. }
  destruct a as [x|v| |s], b as [y|w| |s']; simpl in H;
    try discriminate; try exact Helem.
  simpl. apply Agree_bind with (a := (s, 0)) (b := (s', 0)).
  - apply map_lift_blocked. congruence.
  - apply Agree_ret.
Qed.

Lemma lift_args_blocked l1 :
  forall l2 u,
    map strip_arg l1 = map strip_arg l2 ->
    Agree (lift_args lib (get_result lib fuel) true l1 u)
          (lift_args lib (get_result lib fuel) true l2 u)
          (l1, u) (l2, u).
Proof.
  induction l1 as [|a l1 IHl]; intros l2 u H;
    destruct l2 as [|b l2]; try discriminate; simpl.
  - apply Agree_ret.
  - simpl in H. injection H as Hab Hl.
    apply Agree_bind with (a := (a, true)) (b := (b, true)).
    + apply _lift_arg_blocked. exact Hab.
    + apply Agree_bind with (a := (l1, u && true)) (b := (l2, u && true)).
      * apply IHl. exact Hl.
      * rewrite andb_true_r. apply Agree_ret.
Qed.

Lemma rewrite_args_blocked x y :
  strip_node (op x) = strip_node (op y) ->
  Agree (rewrite_args lib (get_result lib fuel) true x)
        (rewrite_args lib (get_result lib fuel) true y) x y.
Proof.
  intros H. unfold rewrite_args.
  apply Agree_bind with (a := (args (op x), true))
                        (b := (args (op y), true)).
  - apply lift_args_blocked. apply strip_node_args. exact H.
  - apply Agree_ret.
Qed.

End BlockedStep.

(** With [block_projection], the simplifier returns the expression it is
    given or raises, allocates nothing, and behaves alike on
    structurally equal nodes. *)
Lemma get_result_blocked fuel :
  forall x y,
    strip_node (op x) = strip_node (op y) ->
    Agree (get_result lib fuel x true) (get_result lib fuel y true) x y.
Proof.
  induction fuel as [|fuel IH]; intros x y H.
  - right. exists RecursionError. split; reflexivity.
  - simpl. rewrite <- (strip_node_cls _ _ H).
    pose proof (rewrite_args_blocked fuel IH x y H) as Hrw.
    destruct (is_Literal (cls (op x))); [apply Agree_ret|].
    destruct (is_TableColumn (cls (op x))).
    + destruct (column_lift_blocked x y H) as [[Hx Hy]|(e & Hx & Hy)].
      * apply Agree_bind with (a := x) (b := y).
        -- left. split; intros n; rewrite _lift_TableColumn_pure.
           ++ rewrite Hx. reflexivity.
           ++ rewrite Hy. reflexivity.
        -- rewrite !is__refl. simpl. exact Hrw.
      * apply Agree_raise_bind with (e := e); intros n;
          rewrite _lift_TableColumn_pure.
        -- rewrite Hx. reflexivity.
        -- rewrite Hy. reflexivity.
    + destruct (is_Selection (cls (op x))); [apply Agree_ret|exact Hrw].
Qed.

(** *** The validation of one column *)

Lemma Same_ret {A} (a : A) : Same (ret a) (ret a).
Proof. exists (Ok a). split; reflexivity. Qed.

Lemma Same_lift {A} (r : Result A) : Same (lift_result r) (lift_result r).
Proof. exists r. split; reflexivity. Qed.

Lemma Same_bind {A B} (ma mb : M A) (f g : A -> M B) :
  Same ma mb ->
  (forall a, Same (f a) (g a)) ->
  Same (bind ma f) (bind mb g).
Proof.
  intros (r & Ha & Hb) H. destruct r as [a|e].
  - destruct (H a) as (r' & Hf & Hg). exists r'.
    split; intros n; unfold bind.
    + rewrite Ha. simpl. apply Hf.
    + rewrite Hb. simpl. apply Hg.
  - exists (Raise e). split; intros n; unfold bind.
    + rewrite Ha. reflexivity.
    + rewrite Hb. reflexivity.
Qed.

Lemma Same_Agree_bind {A B C} (ma : M A) (mb : M B) a b
  (f : A -> M C) (g : B -> M C) :
  Agree ma mb a b ->
  Same (f a) (g b) ->
  Same (bind ma f) (bind mb g).
Proof.
  intros [[Ha Hb]|(e & Ha & Hb)] H.
  - destruct H as (r' & Hf & Hg). exists r'.
    split; intros n; unfold bind.
    + rewrite Ha. apply Hf.
    + rewrite Hb. apply Hg.
  - exists (Raise e). split; intros n; unfold bind.
    + rewrite Ha. reflexivity.
    + rewrite Hb. reflexivity.
Qed.

Lemma node_table_Agree a b :
  strip_node a = strip_node b ->
  exists ta tb,
    strip_node (op ta) = strip_node (op tb)
    /\ Agree (lift_result (node_table a)) (lift_result (node_table b))
         ta tb.
Proof.
  intros H. destruct (node_table_agree _ _ H)
    as [(ta & tb & Ha & Hb & Ht)|[Ha Hb]].
  - exists ta, tb. split; [apply strip_op; exact Ht|].
    left. rewrite Ha, Hb. split; reflexivity.
  - exists (MkExpr 0 OtherExpr None (MkNode Literal [])),
           (MkExpr 0 OtherExpr None (MkNode Literal [])).
    split; [reflexivity|]. right. exists AttributeError.
    rewrite Ha, Hb. split; reflexivity.
Qed.

Lemma node_eqb_strip c a b :
  strip_node a = strip_node b -> node_eqb c a = node_eqb c b.
Proof. intros H. unfold node_eqb. rewrite H. reflexivity. Qed.

(** On structurally equal nodes the validation loop allocates nothing
    and has one outcome. *)
Lemma validate_selections_Same fuel x y :
  strip_node (op x) = strip_node (op y) ->
  forall sels v,
    Same (validate_selections lib fuel x sels v)
         (validate_selections lib fuel y sels v).
Proof.
  intros H sels. induction sels as [|a sels IH]; intros v; simpl.
  - apply Same_ret.
  - rewrite <- (node_name_strip _ _ H).
    apply Same_bind; [apply Same_lift|]. intros val.
    apply Same_bind.
    { destruct (is_PhysicalTable (cls (op val))); [|apply Same_ret].
      apply Same_bind; [apply Same_lift|]. intros nm. apply Same_ret. }
    intros in_schema. destruct in_schema; [apply IH|].
    apply Same_bind.
    { destruct (is_TableColumn (cls (op val))); [|apply Same_ret].
      apply Same_bind; [apply Same_lift|]. intros nm.
      apply Same_bind; [apply Same_lift|]. intros vn. apply Same_ret. }
    intros same_name. destruct same_name; [|apply IH].
    apply Same_bind; [apply Same_lift|]. intros val_table.
    apply Same_Agree_bind with (a := x) (b := y).
    { apply get_result_blocked. exact H. }
    destruct (node_table_Agree _ _ H) as (tx & ty & Ht & HA).
    apply Same_Agree_bind with (a := tx) (b := ty); [exact HA|].
    rewrite <- (node_eqb_strip (op val_table) _ _ Ht).
    destruct (node_eqb (op val_table) (op tx)); [apply IH|].
    apply Same_Agree_bind with (a := tx) (b := ty); [exact HA|].
    rewrite <- (node_eqb_strip (op val_table) _ _ Ht). apply IH.
Qed.

Lemma validate_column_Same fuel parent x y :
  strip_node (op x) = strip_node (op y) ->
  Same (validate_column lib fuel parent x)
       (validate_column lib fuel parent y).
Proof.
  intros H. unfold validate_column.
  rewrite <- (strip_node_cls _ _ H).
  destruct (is_TableColumn (cls (op x))); [|apply Same_ret].
  apply Same_bind; [|intros v; apply Same_ret].
  unfold _validate_projection.
  apply Same_bind; [apply Same_lift|]. intros sels.
  apply validate_selections_Same. exact H.
Qed.

Lemma validate_column_pure fuel parent e n :
  validate_column lib fuel parent e n
  = lift_result (column_answer lib fuel parent e) n.
Proof.
  destruct (validate_column_Same fuel parent e e eq_refl)
    as (r & Hr & _).
  unfold column_answer. rewrite (Hr 0), (Hr n).
  destruct r; reflexivity.
Qed.

Lemma column_answer_structural fuel parent x y :
  strip_node (op x) = strip_node (op y) ->
  column_answer lib fuel parent x = column_answer lib fuel parent y.
Proof.
  intros H. destruct (validate_column_Same fuel parent x y H)
    as (r & Hx & Hy).
  unfold column_answer. rewrite (Hx 0), (Hy 0). reflexivity.
Qed.

Lemma column_answer_proceeds fuel parent e c r :
  column_answer lib fuel parent e = Ok (c, r) -> c = proceed.
Proof.
  unfold column_answer, validate_column.
  destruct (is_TableColumn (cls (op e))).
  - unfold bind.
    destruct (_validate_projection lib fuel parent e 0) as [[v n]|x];
      [|discriminate].
    unfold ret. intros H. inv H. reflexivity.
  - unfold ret. intros H. inv H. reflexivity.
Qed.

Lemma get_result_blocked_Ok fuel x n r n' :
  get_result lib fuel x true n = Ok (r, n') -> r = x /\ n' = n.
Proof.
  intros H.
  destruct (get_result_blocked fuel x x eq_refl) as [[Hx _]|(e & Hx & _)];
    rewrite Hx in H; [|discriminate].
  inv H. auto.
Qed.

(** A valid column owes its validity to an entry of the selection
    list. *)
Lemma validate_selections_true fuel x sels :
  forall v n n',
    validate_selections lib fuel x sels v n = Ok (true, n') ->
    v = true
    \/ exists val,
         In (AExpr val) sels
         /\ (column_of_physical_table lib x val \/ same_column_entry x val).
Proof.
  induction sels as [|a sels IH]; intros v n n' H; simpl in H.
  - unfold ret in H. inv H. auto.
  - assert (Hlater :
      forall v0 n0,
        validate_selections lib fuel x sels v0 n0 = Ok (true, n') ->
        (v0 = true ->
         exists val,
           In (AExpr val) (a :: sels)
           /\ (column_of_physical_table lib x val
               \/ same_column_entry x val)) ->
        v = true
        \/ exists val,
             In (AExpr val) (a :: sels)
             /\ (column_of_physical_table lib x val
                 \/ same_column_entry x val)).
    { intros v0 n0 H0 Hv0. destruct (IH _ _ _ H0) as [Hv|(val & Hin & Hc)].
      - right. apply Hv0. exact Hv.
      - right. exists val. split; [right; exact Hin|exact Hc]. }
    apply bind_Ok in H. destruct H as (val & n1 & Hval & H).
    apply lift_result_Ok in Hval. destruct Hval as [Hval ->].
    assert (Ha : a = AExpr val).
    { destruct a; simpl in Hval; try discriminate. congruence. }
    subst a.
    apply bind_Ok in H. destruct H as (in_schema & n1 & Hsch & H).
    destruct in_schema.
    { apply (Hlater _ _ H). intros _. exists val.
      split; [left; reflexivity|]. left.
      destruct (is_PhysicalTable (cls (op val))) eqn:Hpt;
        [|unfold ret in Hsch; discriminate].
      apply bind_Ok in Hsch. destruct Hsch as (nm & n2 & Hnm & Hsch).
      apply lift_result_Ok in Hnm. destruct Hnm as [Hnm ->].
      unfold ret in Hsch. inv Hsch.
      split; [exact Hpt|]. exists nm. auto. }
    apply bind_Ok in H. destruct H as (same_name & n2 & Hsame & H).
    destruct same_name.
    2:{ destruct (IH _ _ _ H) as [Hv|(v0 & Hin & Hc)]; [auto|].
        right. exists v0. split; [right; exact Hin|exact Hc]. }
    destruct (is_TableColumn (cls (op val))) eqn:Htc;
      [|unfold ret in Hsame; discriminate].
    apply bind_Ok in Hsame. destruct Hsame as (nm & n3 & Hnm & Hsame).
    apply lift_result_Ok in Hnm. destruct Hnm as [Hnm ->].
    apply bind_Ok in Hsame. destruct Hsame as (vn & n4 & Hvn & Hsame).
    apply lift_result_Ok in Hvn. destruct Hvn as [Hvn ->].
    unfold ret in Hsame. injection Hsame as Hname Hn4.
    apply String.eqb_eq in Hname. subst vn n2.
    apply bind_Ok in H. destruct H as (val_table & n5 & Hvt & H).
    apply lift_result_Ok in Hvt. destruct Hvt as [Hvt ->].
    apply bind_Ok in H. destruct H as (lifted & n6 & Hlift & H).
    unfold substitute_parents in Hlift. simpl in Hlift.
    apply get_result_blocked_Ok in Hlift. destruct Hlift as [-> ->].
    apply bind_Ok in H. destruct H as (table & n7 & Htab & H).
    apply lift_result_Ok in Htab. destruct Htab as [Htab ->].
    assert (Hentry :
      node_eqb (op val_table) (op table) = true ->
      exists val0,
        In (AExpr val0) (AExpr val :: sels)
        /\ (column_of_physical_table lib x val0
            \/ same_column_entry x val0)).
    { intros Heq. exists val. split; [left; reflexivity|]. right.
      split; [assumption|].
      exists nm, val_table, table. repeat split; auto.
      apply node_eqb_eq. exact Heq. }
    destruct (node_eqb (op val_table) (op table)) eqn:Heq.
    + apply (Hlater _ _ H). intros _. apply Hentry. reflexivity.
    + apply bind_Ok in H. destruct H as (lifted_table & n8 & Hlt & H).
      apply lift_result_Ok in Hlt. destruct Hlt as [Hlt ->].
      rewrite Htab in Hlt. inv Hlt.
      apply (Hlater _ _ H). rewrite Heq. discriminate.
Qed.

End Blocked.

(** ** Predicate pushdown: eligibility *)

Section Eligibility.

Variable lib : Library.

Lemma is_reduction_predicate_pure e n :
  is_reduction_predicate e n = lift_result (reduction_answer e) n.
Proof.
  unfold is_reduction_predicate, reduction_answer.
  destruct (is_Reduction (cls (op e))); [reflexivity|].
  destruct (is_TableNode (cls (op e))); reflexivity.
Qed.

Lemma reduction_answer_structural :
  structural_visitor eq reduction_answer.
Proof.
  intros x y cx rx cy ry H Hx Hy. unfold reduction_answer in *.
  rewrite <- (strip_node_cls _ _ H) in Hy.
  destruct (is_Reduction (cls (op x))).
  - inv Hx. inv Hy. split; reflexivity.
  - destruct (is_TableNode (cls (op x))); inv Hx; inv Hy;
      split; reflexivity.
Qed.

Lemma Reaches_Yield {R} (g : Expr -> Result (Control * option R))
  type_ok x e :
  Reaches g type_ok is_it x e ->
  forall c r, g x = Ok (c, Some r) -> Yield g type_ok r e.
Proof.
  induction 1 as [e r0 Hty HQ|e o c0 r0 Hty Hge Hin Hsub IH];
    intros c r Hgx.
  - unfold is_it in HQ. subst r0. eapply Yield_here; eauto.
  - eapply Yield_child; eauto.
Qed.

Lemma existsb_false_all l :
  existsb (fun b : bool => b) l = false -> forall r, In r l -> r = false.
Proof.
  intros H r Hr. destruct r; [|reflexivity].
  rewrite <- H. symmetry. apply existsb_exists. exists true. auto.
Qed.

Lemma forallb_true_all l :
  forallb (fun b : bool => b) l = true -> forall r, In r l -> r = true.
Proof. intros H r Hr. rewrite forallb_forall in H. apply H. exact Hr. Qed.

(** [is_reduction] answers false only when no reduction lies above the
    tables of the expression. *)
Lemma is_reduction_false pred n n1 :
  is_reduction pred n = Ok (false, n1) ->
  n1 = n
  /\ forall x, AboveTables pred x -> is_Reduction (cls (op x)) = false.
Proof.
  unfold is_reduction. intros H.
  apply bind_Ok in H. destruct H as (l & n2 & Ht & H).
  unfold ret in H. injection H as Hex ->.
  pose proof (existsb_false_all _ Hex) as Hall.
  destruct (traverse_yields eq reduction_answer is_reduction_predicate
              any_type (fun b => b) is_reduction_predicate_pure
              reduction_answer_structural [pred] n l n1 Ht Hall)
    as (-> & _ & Hcomplete).
  split; [reflexivity|].
  intros x Hx. destruct (is_Reduction (cls (op x))) eqn:Hred;
    [|reflexivity].
  assert (HY : Yield reduction_answer any_type true pred).
  { apply (Reaches_Yield _ _ _ _ Hx halt true).
    unfold reduction_answer. rewrite Hred. reflexivity. }
  destruct (Hcomplete pred true (or_introl eq_refl) HY) as (r' & Hr' & ->).
  apply Hall in Hr'. discriminate.
Qed.


End Eligibility.

(** ** Projection fusion *)

Section Fusion.

Variable lib : Library.

(** When the loop of [try_fusion] over the candidates [pre] returns, the
    loop over [pre], then a candidate that aborts, then anything, returns
    in the same state with [can_fuse] false. *)
Lemma fuse_loop_aborts fuel parent_op root_table roots root_selections
  val post :
  lifts lib fuel val ->
  aborts lib parent_op roots root_table val ->
  forall pre fused can_fuse n fused' can_fuse' n',
    fuse_loop lib fuel parent_op root_table roots root_selections pre
      fused can_fuse n = Ok (fused', can_fuse', n') ->
    exists fused'',
      fuse_loop lib fuel parent_op root_table roots root_selections
        (pre ++ val :: post) fused can_fuse n = Ok (fused'', false, n').
Proof.
  intros Hlifts [Hstar Hshare].
  induction pre as [|c pre IH]; intros fused can n fused' can' n' H.
  - simpl in H. unfold ret in H. inv H.
    exists fused'. simpl.
    destruct (Hlifts n') as (r & m & Hr).
    pose proof Hr as Hr'. unfold substitute_parents in Hr'. simpl in Hr'.
    apply get_result_blocked_Ok in Hr'. destruct Hr' as [-> ->].
    unfold bind. rewrite Hr, Hstar, Hshare, Hshare. reflexivity.
  - simpl in H. simpl. unfold bind in H |- *.
    destruct (substitute_parents lib fuel c false n) as [[lv m1]|];
      [|discriminate].
    destruct (is_star lib parent_op roots c m1) as [[star m2]|];
      [|discriminate].
    destruct star.
    + destruct (splice_selections root_table root_selections fused false m2)
        as [[[f1 hr] m3]|]; [|discriminate].
      eapply IH; eauto.
    + destruct (shares_all_roots lib [lv] [root_table] m2)
        as [[ls m3]|]; [|discriminate].
      destruct ls; [eapply IH; eauto|].
      destruct (shares_all_roots lib [c] [root_table] m3)
        as [[vs m4]|]; [|discriminate].
      destruct vs; simpl in H |- *.
      * eapply IH; eauto.
      * unfold ret in H |- *. inv H. eauto.
Qed.

(** C6, as the code has it.  The parent is a selection, and the candidates
    of [try_fusion] are [pre], then [val], then [post].  When the loop over
    [pre] returns and [val] is no [*] projection and does not share all its
    roots with the table of the parent, [try_fusion] answers that there is
    no fusion, whatever [post] is, and [get_result] returns a new selection
    of the clean expressions over the parent. *)
Theorem C6_fusion_all_or_nothing
  fuel self root_table root_selections pre val post n n1 fused can_fuse n2 :
  parent_roots self = [op (parent self)] ->
  is_Selection (cls (op (parent self))) = true ->
  node_table (op (parent self)) = Ok root_table ->
  node_selections (op (parent self)) = Ok root_selections ->
  resolve_candidates lib self root_table n
  = Ok (Some (pre ++ val :: post), n1) ->
  fuse_loop lib fuel (op (parent self)) root_table
    (root_tables lib (op root_table)) root_selections pre [] false n1
  = Ok (fused, can_fuse, n2) ->
  lifts lib fuel val ->
  aborts lib (op (parent self)) (root_tables lib (op root_table))
    root_table val ->
  let wrapped :=
    MkNode Selection
      (Selection_args (parent self) (map AExpr (clean_exprs self)) [] [])
  in
  validate lib Selection (args wrapped) = None ->
  try_fusion lib fuel self (op (parent self)) n = Ok (None, n2)
  /\ Projector_get_result lib fuel self n = Ok (wrapped, n2).
Proof.
  intros Hroots Hsel Htab Hsels Hres Hpre Hlifts Habort wrapped Hval.
  assert (Htry : try_fusion lib fuel self (op (parent self)) n
                 = Ok (None, n2)).
  { unfold try_fusion. rewrite node_eqb_refl. simpl. rewrite Htab.
    unfold bind. simpl. rewrite Hres.
    unfold fuse.
    destruct (pre ++ val :: post) as [|r0 rs] eqn:Hcand.
    { destruct pre; discriminate. }
    rewrite <- Hcand. rewrite Hsels. unfold bind. simpl.
    destruct (fuse_loop_aborts fuel (op (parent self)) root_table
                (root_tables lib (op root_table)) root_selections val post
                Hlifts Habort pre [] false n1 fused can_fuse n2 Hpre)
      as (fused'' & Hloop).
    rewrite Hloop. reflexivity. }
  split; [exact Htry|].
  unfold Projector_get_result. rewrite Hroots. simpl. rewrite Hsel.
  unfold bind. rewrite Htry.
  unfold new_node. subst wrapped. simpl in Hval. rewrite Hval.
  reflexivity.
Qed.

End Fusion.

(** ** The claims at concrete expressions *)

Section Examples.

Lemma lib0_only_type_errors : only_type_errors lib0.
Proof.
  intros c a x. simpl. destruct c; try discriminate.
  destruct (_ && _); intros H; inv H. reflexivity.
Qed.

Lemma lib0_blocks_structural : blocks_structural lib0.
Proof.
  intros [c1 l1] [c2 l2]. simpl. intros H. inv H.
  destruct (is_Selection c2); [|reflexivity].
  unfold has_selections. simpl.
  destruct l1 as [|a1 [|b1 l1]], l2 as [|a2 [|b2 l2]];
    simpl in *; try discriminate; try reflexivity.
  inv H2.
  destruct b1 as [| | |[|x s]], b2 as [| | |[|y r]];
    simpl in *; try discriminate; reflexivity.
Qed.

(** The key [t] is strictly inside [t[[t.a]]]. *)
Lemma ex_keys_inside : keys_strictly_inside [(op ex_t, ex_u)] ex_proj.
Proof.
  intros k v [H|[]]. inv H.
  exists [0], ex_t. split; [discriminate|]. split; [|reflexivity].
  eapply SubExprAt_child; [reflexivity|apply SubExprAt_here].
Qed.

(** The only root below [t.a > 0] is [t]. *)
Lemma ex_pred_roots r : RootOf lib0 r ex_pred -> r = op ex_t.
Proof.
  intros H.
  inversion H as [e c r' _ Hg|e o c r' _ Hg Hin Hc]; subst;
    [discriminate|].
  destruct Hin as [<-|[<-|[]]].
  - inversion Hc as [e c r' _ Hg1|e o1 c r' _ Hg1 Hin1 Hc1]; subst;
      [discriminate|].
    destruct Hin1 as [<-|[]].
    inversion Hc1 as [e c r' _ Hg2|e o2 c r' _ Hg2 Hin2 Hc2]; subst.
    + inv Hg2. reflexivity.
    + discriminate.
  - inversion Hc as [e c r' _ Hg1|e o1 c r' _ Hg1 Hin1 Hc1]; subst;
      [discriminate|destruct Hin1].
Qed.

Lemma ex_roots_covered :
  roots_covered lib0 [ex_pred] [ex_t; ex_t_a].
Proof.
  intros c r [<-|[]] Hr. apply ex_pred_roots in Hr. subst r.
  exists ex_t, (op ex_t). split; [left; reflexivity|].
  split; [|reflexivity].
  apply Yield_here with (c := halt); reflexivity.
Qed.

Lemma roots_covered_nil lib base : roots_covered lib [] base.
Proof. intros c r []. Qed.

(** The cases of a position in a list that is given, and of a path in
    an expression that is given. *)
Ltac nth_cases H :=
  repeat (match type of H with
          | nth_error _ ?i = Some _ =>
              destruct i; simpl in H;
              [ first [discriminate H | injection H as <- ] | ]
          end);
  try discriminate H.

Ltac sub_cases :=
  repeat match goal with
         | H : SubExprAt _ _ _ |- _ =>
             let i := fresh "i" in
             let Hn := fresh "Hn" in
             let Hc := fresh "Hc" in
             inversion H as [|i ? ? ? ? Hn Hc]; subst; clear H;
             [ | nth_cases Hn ]
         end.

(** No two subexpressions of [t.a > 0] are structurally equal. *)
Lemma ex_pred_shared : shared ex_pred.
Proof.
  intros p q x y Hx Hy Heq.
  sub_cases; first [reflexivity | discriminate Heq].
Qed.

(** C1 at [-t.a] with [t.a] mapped to a boolean column: [Negate] refuses
    the new argument and the expression is returned as it is. *)
Lemma C1_witness :
  _substitute lib0 2 [(op ex_t_a, ex_flag)] ex_negate [] 100
  = Ok (ex_negate, [(_key ex_t_a, ex_flag)], 100).
Proof.
  apply (proj1 (C1_type_error_is_absorbed lib0)
           1 [(op ex_t_a, ex_flag)] ex_negate [] 100 [AExpr ex_flag]);
    reflexivity.
Defined.

(** C2 at the column [a] of [t[[t.a]]] with [t] mapped to [u]. *)
Lemma C2_witness :
  exists r n' b',
    Substitutor_substitute lib0 5 ex_proj_a [(op ex_t, ex_u)] 100
    = Ok (r, n')
    /\ SubExprAt [0] r b' /\ strip b' = strip ex_proj.
Proof.
  destruct (C2_blocking_boundary lib0 5 ex_proj_a [(op ex_t, ex_u)]
              ex_proj [0] 100) as [Hframe Hreturns].
  - exact lib0_blocks_structural.
  - eapply SubExprAt_child; [reflexivity|apply SubExprAt_here].
  - reflexivity.
  - exact ex_keys_inside.
  - destruct Hreturns as (r & n' & Hr).
    + exact lib0_only_type_errors.
    + vm_compute. lia.
    + destruct (Hframe r n' Hr) as (b' & Hb).
      exists r, n', b'. split; [exact Hr|exact Hb].
Defined.

(** C3 at the column [a] of [t[[t]]], which lifts to [t.a]. *)
Lemma C3_witness :
  bind (substitute_parents lib0 5 ex_star_a true)
    (fun r => substitute_parents lib0 5 r true) 100
  = substitute_parents lib0 5 ex_star_a true 100.
Proof.
  apply (C3_simplify_idempotent lib0 5 ex_star_a true 100). reflexivity.
Defined.



(** C5 at [t[[t.a]]] with and without the predicate [t.a > 0]. *)
Lemma C5_witness :
  shares_all_roots lib0 [ex_proj_pred] [ex_proj] 100 = Ok (true, 100).
Proof.
  refine (proj2 (proj2 (proj2
    (C5_root_equivalence lib0 ex_t [AExpr ex_t_a] [AExpr ex_pred] [] [] []
       ex_proj_pred ex_proj 100 _ _ _ _
       lib0_blocks_structural eq_refl eq_refl _ _ _ _)))).
  - reflexivity.
  - reflexivity.
  - exact ex_roots_covered.
  - apply roots_covered_nil.
Defined.

(** C5 as stated fails when a predicate refers to another table: the
    selections [t[[t.a]]] with the predicate [t.a > u.c] and without a
    predicate differ in their predicates only, and the walk from the
    first also reaches [u]. *)
Lemma C5_counterexample :
  op ex_proj_foreign
  = MkNode Selection
      (Selection_args ex_t [AExpr ex_t_a] [AExpr ex_foreign_pred] [])
  /\ op ex_proj = MkNode Selection (Selection_args ex_t [AExpr ex_t_a] [] [])
  /\ traverse (_find_root_table lib0) any_type true take_all
       [ex_proj_foreign] 100
     = Ok ([MkNode Selection (Selection_args ex_t [AExpr ex_t_a] [] []);
            op ex_t; op ex_u], 100)
  /\ traverse (_find_root_table lib0) any_type true take_all [ex_proj] 100
     = Ok ([MkNode Selection (Selection_args ex_t [AExpr ex_t_a] [] []);
            op ex_t], 100)
  /\ shares_all_roots lib0 [ex_proj_foreign] [ex_proj] 100
     = Ok (false, 100).
Proof.
  repeat split; reflexivity.
Qed.

(** C6 at the projection of [t.a] and [u.c] over [t[[t.a]]]: [t.a] fuses,
    [u.c] aborts. *)
Lemma C6_witness :
  try_fusion lib0 5 (projector_of ex_proj [ex_t_a; ex_u_c]) (op ex_proj) 100
  = Ok (None, 100)
  /\ Projector_get_result lib0 5 (projector_of ex_proj [ex_t_a; ex_u_c]) 100
     = Ok (MkNode Selection
             (Selection_args ex_proj [AExpr ex_t_a; AExpr ex_u_c] [] []),
           100).
Proof.
  apply (C6_fusion_all_or_nothing lib0 5
           (projector_of ex_proj [ex_t_a; ex_u_c]) ex_t [AExpr ex_t_a]
           [ex_t_a] ex_u_c [] 100 100 [AExpr ex_t_a] true 100);
    try reflexivity.
  - intros n. eexists. eexists. reflexivity.
  - split; intros n; reflexivity.
Defined.

(** C6 as stated fails at a literal: it has no root, so it shares no
    root with [t], and yet it shares all its roots; the projection of
    the literal over [t[[t.a]]] is fused into a selection over [t]. *)
Lemma C6_counterexample :
  shares_some_roots lib0 [ex_named_one] [ex_t] 100 = Ok (false, 100)
  /\ Projector_get_result lib0 5 (projector_of ex_proj [ex_named_one]) 100
     = Ok (MkNode Selection (Selection_args ex_t [AExpr ex_named_one] [] []),
           100)
  /\ node_eqb
       (MkNode Selection (Selection_args ex_t [AExpr ex_named_one] [] []))
       (MkNode Selection
          (Selection_args ex_proj [AExpr ex_named_one] [] []))
     = false.
Proof.
  repeat split; reflexivity.
Qed.



(** C8 at [t[[t.a]]] and [t.a > 0]. *)
Lemma C8_witness :
  exists r,
    _filter_selection lib0 5 ex_proj [ex_pred] 100 = Ok (r, 101)
    /\ op r
       = MkNode Selection
           (Selection_args ex_t [AExpr ex_t_a] [AExpr ex_pred] []).
Proof.
  eexists. split.
  - eapply (proj1 (C8_pushdown_frame lib0 5 ex_proj ex_t [AExpr ex_t_a]
                     [] [] [ex_pred] 100 eq_refl eq_refl));
      reflexivity.
  - reflexivity.
Defined.

(** C8 as stated fails at a selection that does not block: for the
    filter [t[t.a > 0]] the predicate [t.a.sum() > 0] does not validate
    for pushdown, and it is merged into the filter all the same. *)
Lemma C8_counterexample :
  blocks lib0 (op ex_filter) = false
  /\ _can_pushdown lib0 5 (op ex_filter) [ex_sum_pred] 100 = Ok (false, 100)
  /\ exists r,
       _filter_selection lib0 5 ex_filter [ex_sum_pred] 100 = Ok (r, 101)
       /\ op r
          = MkNode Selection
              (Selection_args ex_t [] [AExpr ex_pred; AExpr ex_sum_pred] [])
       /\ node_eqb (op r)
            (MkNode Selection
               (Selection_args ex_filter [] [AExpr ex_sum_pred] []))
          = false.
Proof.
  split; [reflexivity|]. split; [reflexivity|].
  eexists. split; [reflexivity|]. split; reflexivity.
Qed.


(** C10 at [t[[t.a]]] mapped to [t]. *)
Lemma C10_witness :
  Substitutor_substitute lib0 1 ex_proj [(op ex_proj, ex_t)] 100
  = Ok (ex_t, 100).
Proof.
  apply (C10_blocking_root_is_replaced lib0 0 ex_proj
           [(op ex_proj, ex_t)] ex_t 100); reflexivity.
Defined.

End Examples.

(** * The other functions of the module *)

(** ** Walks with a pure visitor *)

Section WalkSound.

Context {R : Type}.
Variable g : Expr -> Result (Control * option R).
Variable fn : Visitor R.
Variable type_ok : ExprType -> bool.
Variable dedup : bool.
Variable stop : R -> bool.

Hypothesis Hpure : forall e n, fn e n = lift_result (g e) n.

Lemma pure_visit e n a n' :
  fn e n = Ok (a, n') -> g e = Ok a /\ n' = n.
Proof.
  rewrite Hpure. unfold lift_result. destruct (g e); intros H; inv H.
  auto.
Qed.

Lemma walk_list_sound k :
  (forall e st n st' n',
      size e <= k ->
      walk_expr fn type_ok dedup stop e st n = Ok (st', n') ->
      n' = n
      /\ forall r, In r (yielded st') ->
                   In r (yielded st) \/ Yield g type_ok r e) ->
  forall l st n st' n',
    (forall c, In c l -> size c <= k) ->
    walk_list fn type_ok dedup stop l st n = Ok (st', n') ->
    n' = n
    /\ forall r, In r (yielded st') ->
                 In r (yielded st)
                 \/ exists c, In c l /\ Yield g type_ok r c.
Proof.
  intros HE l. induction l as [|e l IH]; intros st n st' n' Hk H;
    simpl in H.
  - unfold ret in H. inv H. auto.
  - apply bind_Ok in H. destruct H as (st1 & n1 & He & Hl).
    destruct (HE _ _ _ _ _ (Hk e (or_introl eq_refl)) He) as [-> H1].
    destruct (IH _ _ _ _ (fun c Hc => Hk c (or_intror Hc)) Hl)
      as [-> H2].
    split; [reflexivity|]. intros r Hr.
    destruct (H2 r Hr) as [Hr1|(c & Hc & HY)].
    + destruct (H1 r Hr1) as [Hr0|HY]; [auto|].
      right. exists e. split; [left; reflexivity|exact HY].
    + right. exists c. split; [right; exact Hc|exact HY].
Qed.

(** Whatever its consumer takes, a walk allocates nothing and yields
    only results of expressions it reaches. *)
Lemma walk_expr_sound :
  forall k e st n st' n',
    size e <= k ->
    walk_expr fn type_ok dedup stop e st n = Ok (st', n') ->
    n' = n
    /\ forall r, In r (yielded st') ->
                 In r (yielded st) \/ Yield g type_ok r e.
Proof.
  induction k as [|k IHk]; intros e st n st' n' Hk H.
  { destruct e. simpl in Hk. lia. }
  rewrite walk_expr_unfold in H.
  destruct (stopped st).
  { unfold ret in H. inv H. auto. }
  destruct (type_ok (ty e)) eqn:Hty; simpl in H.
  2:{ unfold ret in H. inv H. auto. }
  destruct (dedup && was_seen (op e) (seen st)).
  { unfold ret in H. inv H. auto. }
  apply bind_Ok in H. destruct H as ([c r] & n1 & Hfn & H).
  apply pure_visit in Hfn. destruct Hfn as [Hg ->].
  cbv zeta in H.
  set (st1 := visited dedup stop (op e) r st) in *.
  assert (H1 : forall r0, In r0 (yielded st1) ->
                          In r0 (yielded st) \/ Yield g type_ok r0 e).
  { subst st1. unfold visited. simpl. intros r0 Hr0.
    destruct r as [r|]; [|auto].
    apply in_app_or in Hr0. destruct Hr0 as [Hr0|[<-|[]]]; [auto|].
    right. eapply Yield_here; eauto. }
  change (match r with Some r0 => stop r0 | None => false end)
    with (stopped st1) in H.
  destruct (stopped st1).
  { unfold ret in H. inv H. auto. }
  destruct c.
  - destruct (walk_list_sound k IHk (flat_args (op e)) st1 n st' n')
      as [-> H2]; auto.
    { intros c Hc. apply flat_args_size in Hc. rewrite size_op in Hk.
      lia. }
    split; [reflexivity|]. intros r0 Hr0.
    destruct (H2 r0 Hr0) as [Hr1|(c & Hc & HY)]; [auto|].
    right. eapply Yield_child; eauto.
  - unfold ret in H. inv H. auto.
Qed.

(** Every result of a traversal is the result of an expression that the
    walk from a root reaches, and the traversal allocates nothing. *)
Lemma traverse_sound roots n out n' :
  traverse fn type_ok dedup stop roots n = Ok (out, n') ->
  n' = n
  /\ forall r, In r out -> exists c, In c roots /\ Yield g type_ok r c.
Proof.
  unfold traverse. intros H.
  apply bind_Ok in H. destruct H as (st & n1 & Hw & H).
  unfold ret in H. inv H.
  assert (Hk : forall c, In c roots -> size c <= list_max (map size roots)).
  { intros c Hc. apply in_map with (f := size) in Hc.
    pose proof (proj1 (list_max_le (map size roots) _) (Nat.le_refl _))
      as Hall.
    rewrite Forall_forall in Hall. apply Hall. exact Hc. }
  destruct (walk_list_sound (list_max (map size roots))
              (walk_expr_sound _) roots _ _ _ _ Hk Hw)
    as [-> Hs].
  split; [reflexivity|]. intros r Hr.
  destruct (Hs r Hr) as [[]|H]. exact H.
Qed.

Hypothesis Htotal : forall e, exists a, g e = Ok a.

Lemma walk_list_total k :
  (forall e st n,
      size e <= k ->
      exists st', walk_expr fn type_ok dedup stop e st n = Ok (st', n)) ->
  forall l st n,
    (forall c, In c l -> size c <= k) ->
    exists st', walk_list fn type_ok dedup stop l st n = Ok (st', n).
Proof.
  intros HE l. induction l as [|e l IH]; intros st n Hk; simpl.
  - exists st. reflexivity.
  - destruct (HE e st n (Hk e (or_introl eq_refl))) as (st1 & H1).
    destruct (IH st1 n (fun c Hc => Hk c (or_intror Hc))) as (st2 & H2).
    exists st2. unfold bind. rewrite H1. exact H2.
Qed.

Lemma walk_expr_total :
  forall k e st n,
    size e <= k ->
    exists st', walk_expr fn type_ok dedup stop e st n = Ok (st', n).
Proof.
  induction k as [|k IHk]; intros e st n Hk.
  { destruct e. simpl in Hk. lia. }
  rewrite walk_expr_unfold.
  destruct (stopped st); [eexists; reflexivity|].
  destruct (negb (type_ok (ty e))); [eexists; reflexivity|].
  destruct (dedup && was_seen (op e) (seen st)); [eexists; reflexivity|].
  unfold bind. rewrite Hpure. destruct (Htotal e) as ([c r] & ->).
  simpl.
  destruct (match r with Some r0 => stop r0 | None => false end);
    [eexists; reflexivity|].
  destruct c; [|eexists; reflexivity].
  apply (walk_list_total k IHk).
  intros c Hc. apply flat_args_size in Hc. rewrite size_op in Hk. lia.
Qed.

(** A traversal with a visitor that raises nothing returns. *)
Lemma traverse_total roots n :
  exists out, traverse fn type_ok dedup stop roots n = Ok (out, n).
Proof.
  unfold traverse, bind.
  destruct (walk_list_total (list_max (map size roots))
              (walk_expr_total _) roots (MkWalk [] [] false) n)
    as (st & ->).
  { intros c Hc. apply in_map with (f := size) in Hc.
    pose proof (proj1 (list_max_le (map size roots) _) (Nat.le_refl _))
      as Hall.
    rewrite Forall_forall in Hall. apply Hall. exact Hc. }
  eexists. reflexivity.
Qed.

End WalkSound.

(** ** Searches: visitors that descend or yield *)

Section Descend.

Context {R : Type}.
Variable P : Expr -> bool.
Variable f : Expr -> R.
Variable type_ok : ExprType -> bool.

Lemma Through_type_ok e x :
  Through P type_ok e x -> type_ok (ty x) = true.
Proof. induction 1; assumption. Qed.

Lemma Yield_Through r e :
  Yield (descend_or_yield P f) type_ok r e ->
  exists x, Through P type_ok e x /\ P x = false /\ r = f x.
Proof.
  induction 1 as [e c r Hty Hg|e o c r Hty Hg Hin Hsub IH];
    unfold descend_or_yield in Hg.
  - destruct (P e) eqn:HP; inv Hg.
    exists e. split; [apply Through_here; assumption|auto].
  - destruct (P e) eqn:HP; inv Hg.
    destruct IH as (x & Hx & HPx & ->).
    exists x. split; [|auto]. eapply Through_child; eauto.
Qed.

Lemma Through_Yield e x :
  Through P type_ok e x ->
  P x = false ->
  Yield (descend_or_yield P f) type_ok (f x) e.
Proof.
  induction 1 as [e Hty|e c x Hty HP Hin Hsub IH]; intros HPx.
  - apply Yield_here with (c := halt); [assumption|].
    unfold descend_or_yield. rewrite HPx. reflexivity.
  - apply Yield_child with (o := None) (c := c); auto.
    unfold descend_or_yield. rewrite HP. reflexivity.
Qed.

Lemma descend_total e : exists a, descend_or_yield P f e = Ok a.
Proof. unfold descend_or_yield. destruct (P e); eauto. Qed.

Lemma descend_structural (eqR : R -> R -> Prop) :
  on_node P ->
  (forall x y, same_node x y -> eqR (f x) (f y)) ->
  structural_visitor eqR (descend_or_yield P f).
Proof.
  intros HP Hf x y cx rx cy ry Heq Hx Hy. unfold descend_or_yield in *.
  rewrite <- (HP x y Heq) in Hy.
  destruct (P x); inv Hx; inv Hy; split; simpl; auto.
Qed.

Variable fn : Visitor R.
Hypothesis Hpure :
  forall e n, fn e n = lift_result (descend_or_yield P f e) n.

(** A search whose consumer takes everything. *)
Lemma search_all (eqR : R -> R -> Prop) roots n :
  on_node P ->
  (forall x y, same_node x y -> eqR (f x) (f y)) ->
  exists out,
    traverse fn type_ok true take_all roots n = Ok (out, n)
    /\ (forall r, In r out ->
          exists c x, In c roots /\ Through P type_ok c x
                      /\ P x = false /\ r = f x)
    /\ (forall c x, In c roots -> Through P type_ok c x -> P x = false ->
          exists r, In r out /\ eqR r (f x)).
Proof.
  intros HP Hf.
  destruct (traverse_total _ fn type_ok true take_all Hpure descend_total
              roots n) as (out & Hout).
  exists out. split; [exact Hout|].
  destruct (traverse_yields eqR _ fn type_ok take_all Hpure
              (descend_structural eqR HP Hf) roots n out n Hout)
    as (_ & Hs & Hc).
  { intros r _. reflexivity. }
  split.
  - intros r Hr. destruct (Hs r Hr) as (c & Hc0 & HY).
    apply Yield_Through in HY. destruct HY as (x & Hx & HPx & ->).
    exists c, x. auto.
  - intros c x Hc0 Hx HPx. apply (Hc c (f x) Hc0).
    apply Through_Yield; assumption.
Qed.

(** Soundness alone needs nothing of [P]. *)
Lemma search_sound dedup stop roots n :
  exists out,
    traverse fn type_ok dedup stop roots n = Ok (out, n)
    /\ (forall r, In r out ->
          exists c x, In c roots /\ Through P type_ok c x
                      /\ P x = false /\ r = f x).
Proof.
  destruct (traverse_total _ fn type_ok dedup stop Hpure descend_total
              roots n) as (out & Hout).
  exists out. split; [exact Hout|].
  destruct (traverse_sound _ fn type_ok dedup stop Hpure roots n out n
              Hout) as [_ Hs].
  intros r Hr. destruct (Hs r Hr) as (c & Hc0 & HY).
  apply Yield_Through in HY. destruct HY as (x & Hx & HPx & ->).
  exists c, x. auto.
Qed.

(** A search that stops at its first result: it has a result exactly
    when there is one to reach. *)
Lemma search_first roots n :
  on_node P ->
  exists out,
    traverse fn type_ok true take_first roots n = Ok (out, n)
    /\ (forall r, In r out ->
          exists c x, In c roots /\ Through P type_ok c x
                      /\ P x = false /\ r = f x)
    /\ (out = [] ->
        forall c x, In c roots -> Through P type_ok c x -> P x = true).
Proof.
  intros HP.
  destruct (search_sound true take_first roots n) as (out & Hout & Hs).
  exists out. split; [exact Hout|]. split; [exact Hs|].
  intros -> c x Hc Hx. destruct (P x) eqn:HPx; [reflexivity|].
  destruct (traverse_yields (fun _ _ => True) _ fn type_ok take_first
              Hpure (descend_structural _ HP (fun _ _ _ => Logic.I))
              roots n [] n Hout) as (_ & _ & Hcomp).
  { intros r []. }
  destruct (Hcomp c (f x) Hc (Through_Yield c x Hx HPx)) as (r & [] & _).
Qed.

End Descend.

(** A search consumed by [any]: it is true exactly when an expression to
    halt at is reached. *)
Lemma search_any (P : Expr -> bool) (type_ok : ExprType -> bool)
  (fn : Visitor bool) roots n :
  (forall e n, fn e n = lift_result (descend_or_yield P yes e) n) ->
  on_node P ->
  exists out,
    traverse fn type_ok true (fun b => b) roots n = Ok (out, n)
    /\ (existsb (fun b => b) out = true
        <-> exists c x, In c roots /\ Through P type_ok c x /\ P x = false).
Proof.
  intros Hpure HP.
  destruct (search_sound P yes type_ok fn Hpure true (fun b => b) roots n)
    as (out & Hout & Hs).
  exists out. split; [exact Hout|]. split.
  - intros H. apply existsb_exists in H. destruct H as (r & Hr & _).
    destruct (Hs r Hr) as (c & x & Hc & Hx & HPx & _). eauto.
  - intros (c & x & Hc & Hx & HPx).
    destruct (existsb (fun b => b) out) eqn:Hex; [reflexivity|].
    pose proof (existsb_false_all _ Hex) as Hall.
    destruct (traverse_yields eq _ fn type_ok (fun b => b) Hpure
                (descend_structural P yes eq HP (fun _ _ _ => eq_refl))
                roots n out n Hout Hall) as (_ & _ & Hcomp).
    destruct (Hcomp c (yes x) Hc (Through_Yield P yes type_ok c x Hx HPx))
      as (r & Hr & ->).
    apply Hall in Hr. discriminate.
Qed.

Lemma on_node_class (p : OpClass -> bool) :
  on_node (fun e => p (cls (op e))).
Proof. intros x y H. rewrite (strip_node_cls _ _ H). reflexivity. Qed.

(** ** The searches of the module *)

Section Searches.

Lemma first_base_table_predicate_pure e n :
  first_base_table_predicate e n
  = lift_result (descend_or_yield not_table itself e) n.
Proof.
  unfold first_base_table_predicate, descend_or_yield, not_table.
  destruct (is_TableNode (cls (op e))); reflexivity.
Qed.

Lemma on_node_not_table : on_node not_table.
Proof. apply (on_node_class (fun c => negb (is_TableNode c))). Qed.

(** X1. [find_first_base_table] returns and allocates nothing.  A table
    it returns is a table node reached from the expression through
    expressions that are no table nodes; it returns [None] only when
    no table node is reached that way; and on a table node it returns
    that very expression. *)
Theorem find_first_base_table_spec e n :
  exists o,
    find_first_base_table e n = Ok (o, n)
    /\ (forall t, o = Some t ->
          Through not_table any_type e t /\ is_table t = true)
    /\ (o = None ->
        forall x, Through not_table any_type e x -> is_table x = false)
    /\ (is_table e = true -> o = Some e).
Proof.
  destruct (search_first not_table itself any_type
              first_base_table_predicate first_base_table_predicate_pure
              [e] n on_node_not_table) as (out & Hout & Hs & Hnone).
  exists (hd_error out).
  unfold find_first_base_table, bind. rewrite Hout. unfold ret.
  split; [reflexivity|].
  assert (Hsome : forall t, hd_error out = Some t ->
              Through not_table any_type e t /\ is_table t = true).
  { intros t Ht. destruct out as [|r out]; inv Ht.
    destruct (Hs t (or_introl eq_refl)) as (c & x & [<-|[]] & Hx & HP & ->).
    unfold itself. split; [exact Hx|].
    unfold not_table in HP. unfold is_table.
    destruct (is_TableNode (cls (op x))); [reflexivity|discriminate]. }
  assert (Hno : hd_error out = None ->
              forall x, Through not_table any_type e x ->
                        is_table x = false).
  { intros Ho x Hx. destruct out as [|r out]; [|discriminate].
    pose proof (Hnone eq_refl e x (or_introl eq_refl) Hx) as HP.
    unfold not_table in HP. unfold is_table.
    destruct (is_TableNode (cls (op x))); [discriminate|reflexivity]. }
  split; [exact Hsome|]. split; [exact Hno|].
  intros He. destruct (hd_error out) as [t|] eqn:Ho.
  - destruct (Hsome t eq_refl) as [Ht _].
    inversion Ht as [e0 Hty|e0 c x Hty HP Hin Hsub]; subst;
      [reflexivity|].
    unfold not_table in HP. unfold is_table in He. rewrite He in HP.
    discriminate.
  - rewrite (Hno eq_refl e (Through_here _ _ e eq_refl)) in He.
    discriminate.
Qed.

Lemma flatten_predicate_predicate_pure e n :
  flatten_predicate_predicate e n
  = lift_result (descend_or_yield is_And_expr itself e) n.
Proof.
  unfold flatten_predicate_predicate, descend_or_yield, is_And_expr.
  destruct (is_And (cls (op e))); reflexivity.
Qed.

(** X2. [flatten_predicate] returns and allocates nothing.  Each
    predicate of its list is a boolean column that is no conjunction,
    reached from the expression through conjunctions that are boolean
    columns; and each such expression is in the list, up to the
    structural equality of nodes. *)
Theorem flatten_predicate_spec e n :
  exists out,
    flatten_predicate e n = Ok (out, n)
    /\ (forall r, In r out ->
          Through is_And_expr is_ir_BooleanColumn e r
          /\ is_And (cls (op r)) = false
          /\ is_ir_BooleanColumn (ty r) = true)
    /\ (forall x,
          Through is_And_expr is_ir_BooleanColumn e x ->
          is_And (cls (op x)) = false ->
          exists r, In r out /\ same_node r x).
Proof.
  destruct (search_all is_And_expr itself is_ir_BooleanColumn
              flatten_predicate_predicate flatten_predicate_predicate_pure
              same_node [e] n (on_node_class is_And)
              (fun x y H => H)) as (out & Hout & Hs & Hc).
  exists out. split; [exact Hout|]. split.
  - intros r Hr.
    destruct (Hs r Hr) as (c & x & [<-|[]] & Hx & HP & ->).
    unfold itself. split; [exact Hx|]. split; [exact HP|].
    apply (Through_type_ok _ _ _ _ Hx).
  - intros x Hx HP. apply (Hc e x (or_introl eq_refl) Hx HP).
Qed.

(** X3. The predicates that [flatten_predicate] returns are flat:
    flattening one of them returns the list of that predicate alone. *)
Theorem flatten_predicate_flat e n out n' r :
  flatten_predicate e n = Ok (out, n') ->
  In r out ->
  forall m, flatten_predicate r m = Ok ([r], m).
Proof.
  intros H Hr m.
  destruct (search_sound is_And_expr itself is_ir_BooleanColumn
              flatten_predicate_predicate flatten_predicate_predicate_pure
              true take_all [e] n) as (out' & H' & Hs).
  unfold flatten_predicate in H. rewrite H in H'. inv H'.
  destruct (Hs r Hr) as (c & x & _ & Hx & Hand & ->).
  unfold itself in *. unfold is_And_expr in Hand.
  pose proof (Through_type_ok _ _ _ _ Hx) as Hty.
  unfold flatten_predicate, traverse. simpl. unfold bind.
  rewrite walk_expr_unfold. simpl. rewrite Hty. simpl.
  unfold bind, flatten_predicate_predicate. rewrite Hand. reflexivity.
Qed.

Lemma find_predicates_predicate_pure flatten e n :
  find_predicates_predicate flatten e n
  = lift_result (descend_or_yield (predicate_passes flatten) itself e) n.
Proof.
  unfold find_predicates_predicate, descend_or_yield, predicate_passes.
  destruct (is_ir_BooleanColumn (ty e)); simpl; [|reflexivity].
  destruct (flatten && is_And (cls (op e))); reflexivity.
Qed.

(** X4. [find_predicates] returns and allocates nothing, and each
    expression of its list is a boolean column, no conjunction when the
    search flattens, reached from the expression without going below
    a boolean column other than, when it flattens, a conjunction. *)
Theorem find_predicates_spec e flatten n :
  exists out,
    find_predicates e flatten n = Ok (out, n)
    /\ forall r, In r out ->
         is_ir_BooleanColumn (ty r) = true
         /\ (flatten = true -> is_And (cls (op r)) = false)
         /\ Through (predicate_passes flatten) any_type e r.
Proof.
  destruct (search_sound (predicate_passes flatten) itself any_type
              (find_predicates_predicate flatten)
              (find_predicates_predicate_pure flatten) true take_all
              [e] n) as (out & Hout & Hs).
  exists out. split; [exact Hout|].
  intros r Hr. destruct (Hs r Hr) as (c & x & [<-|[]] & Hx & HP & ->).
  unfold predicate_passes in HP. unfold itself.
  apply orb_false_iff in HP. destruct HP as [Hb Ha].
  apply negb_false_iff in Hb.
  split; [exact Hb|]. split; [|exact Hx].
  intros ->. exact Ha.
Qed.

Lemma is_analytic_predicate_pure e n :
  is_analytic_predicate e n
  = lift_result (descend_or_yield not_windowed_class yes e) n.
Proof.
  unfold is_analytic_predicate, descend_or_yield, not_windowed_class,
    windowed_class.
  destruct (is_Reduction (cls (op e)) || is_Analytic (cls (op e)));
    reflexivity.
Qed.

Lemma on_node_not_windowed_class : on_node not_windowed_class.
Proof.
  apply (on_node_class
           (fun c => negb (is_Reduction c || is_Analytic c))).
Qed.

Lemma is_analytic_walk e n :
  exists out,
    traverse is_analytic_predicate any_type true (fun b => b) [e] n
    = Ok (out, n)
    /\ (existsb (fun b => b) out = true
        <-> exists x, Through not_windowed_class any_type e x
                      /\ windowed_class x = true).
Proof.
  destruct (search_any not_windowed_class any_type is_analytic_predicate
              [e] n is_analytic_predicate_pure
              on_node_not_windowed_class) as (out & Hout & Hiff).
  exists out. split; [exact Hout|].
  rewrite Hiff. split.
  - intros (c & x & [<-|[]] & Hx & HP). exists x. split; [exact Hx|].
    unfold not_windowed_class in HP. apply negb_false_iff in HP.
    exact HP.
  - intros (x & Hx & HP). exists e, x. split; [left; reflexivity|].
    split; [exact Hx|]. unfold not_windowed_class. rewrite HP.
    reflexivity.
Qed.


Lemma reduction_answer_total e : exists a, reduction_answer e = Ok a.
Proof.
  unfold reduction_answer.
  destruct (is_Reduction (cls (op e))); [eauto|].
  destruct (is_TableNode (cls (op e))); eauto.
Qed.

Lemma Yield_reduction r e :
  Yield reduction_answer any_type r e ->
  exists x, AboveTables e x /\ is_Reduction (cls (op x)) = true.
Proof.
  unfold AboveTables.
  induction 1 as [e c r Hty Hg|e o c r Hty Hg Hin Hsub IH].
  - exists e. split; [apply Reaches_here; [assumption|reflexivity]|].
    unfold reduction_answer in Hg.
    destruct (is_Reduction (cls (op e))); [reflexivity|].
    destruct (is_TableNode (cls (op e))); discriminate.
  - destruct IH as (x & Hx & Hred). exists x. split; [|exact Hred].
    eapply Reaches_child; eauto.
Qed.

Lemma is_reduction_walk e n :
  exists out,
    traverse is_reduction_predicate any_type true (fun b => b) [e] n
    = Ok (out, n)
    /\ (existsb (fun b => b) out = true ->
        exists x, AboveTables e x /\ is_Reduction (cls (op x)) = true).
Proof.
  destruct (traverse_total reduction_answer is_reduction_predicate any_type
              true (fun b => b) is_reduction_predicate_pure
              reduction_answer_total [e] n) as (out & Hout).
  exists out. split; [exact Hout|].
  intros H. apply existsb_exists in H. destruct H as (r & Hr & _).
  destruct (traverse_sound reduction_answer is_reduction_predicate
              any_type true (fun b => b) is_reduction_predicate_pure
              [e] n out n Hout) as [_ Hs].
  destruct (Hs r Hr) as (c & [<-|[]] & HY).
  apply Yield_reduction in HY. exact HY.
Qed.


Lemma Above_windowed e x :
  AboveTables e x ->
  is_Reduction (cls (op x)) = true ->
  exists y, Through not_windowed_class any_type e y
            /\ windowed_class y = true.
Proof.
  unfold AboveTables.
  induction 1 as [e r Hty HQ|e o c r Hty Hg Hin Hsub IH]; intros Hr.
  - unfold is_it in HQ. subst r. exists e.
    split; [apply Through_here; reflexivity|].
    unfold windowed_class. rewrite Hr. reflexivity.
  - destruct (windowed_class e) eqn:Hw.
    + exists e. split; [apply Through_here; reflexivity|exact Hw].
    + destruct (IH Hr) as (y & Hy & Hwy). exists y.
      split; [|exact Hwy].
      eapply Through_child; eauto.
      unfold not_windowed_class. rewrite Hw. reflexivity.
Qed.

(** X7. An expression in which [is_reduction] finds a reduction is
    analytic for [is_analytic]. *)
Theorem is_reduction_is_analytic e n n' :
  is_reduction e n = Ok (true, n') ->
  is_analytic e n = Ok (true, n).
Proof.
  intros H.
  destruct (is_reduction_walk e n) as (out & Hout & Htrue).
  unfold is_reduction, bind in H. rewrite Hout in H.
  unfold ret in H. injection H as Hex _.
  destruct (Htrue Hex) as (x & Hx & Hr).
  destruct (is_analytic_walk e n) as (out' & Hout' & Hiff).
  unfold is_analytic, bind. rewrite Hout'. unfold ret.
  rewrite (proj2 Hiff (Above_windowed e x Hx Hr)). reflexivity.
Qed.

End Searches.

Section Ancestor.

Variable lib : Library.

Lemma _is_ancestor_predicate_pure child e n :
  _is_ancestor_predicate child e n
  = lift_result (descend_or_yield (is_not_node child) yes e) n.
Proof.
  unfold _is_ancestor_predicate, descend_or_yield, is_not_node.
  destruct (node_eqb (op e) child); reflexivity.
Qed.

Lemma on_node_is_not_node child : on_node (is_not_node child).
Proof.
  intros x y H. unfold is_not_node, node_eqb. rewrite H. reflexivity.
Qed.

(** X8. [_is_ancestor(parent, child)] allocates the expression of the
    parent and returns; it is true exactly when a node equal to the
    child is reached from the parent through nodes that differ from the
    child; so every node is an ancestor of itself. *)
Theorem _is_ancestor_spec parent child n :
  let e := MkExpr n (output_type lib parent) None parent in
  exists b,
    _is_ancestor lib parent child n = Ok (b, S n)
    /\ (b = true
        <-> exists x, Through (is_not_node child) any_type e x
                      /\ node_eqb (op x) child = true)
    /\ (node_eqb parent child = true -> b = true).
Proof.
  intros e.
  destruct (search_any (is_not_node child) any_type
              (_is_ancestor_predicate child) [e] (S n)
              (_is_ancestor_predicate_pure child)
              (on_node_is_not_node child)) as (out & Hout & Hiff).
  exists (existsb (fun b => b) out).
  assert (Hspec : existsb (fun b => b) out = true
                  <-> exists x, Through (is_not_node child) any_type e x
                                /\ node_eqb (op x) child = true).
  { rewrite Hiff. split.
    - intros (c & x & [<-|[]] & Hx & HP). exists x. split; [exact Hx|].
      unfold is_not_node in HP. apply negb_false_iff in HP. exact HP.
    - intros (x & Hx & HP). exists e, x. split; [left; reflexivity|].
      split; [exact Hx|]. unfold is_not_node. rewrite HP. reflexivity. }
  split; [|split; [exact Hspec|]].
  - unfold _is_ancestor, to_expr, alloc, bind. fold e. rewrite Hout.
    reflexivity.
  - intros Heq. apply Hspec. exists e.
    split; [apply Through_here; reflexivity|exact Heq].
Qed.

End Ancestor.

(** ** Shared roots *)

Section SharedRoots.

Variable lib : Library.

Lemma roots_walk_pure exprs n R n' :
  traverse (_find_root_table lib) any_type true take_all exprs n
  = Ok (R, n') ->
  n' = n
  /\ forall r, In r R -> exists c, In c exprs /\ RootOf lib r c.
Proof.
  intros H.
  apply (traverse_sound (root_answer lib) (_find_root_table lib) any_type
           true take_all (_find_root_table_pure lib) exprs n R n' H).
Qed.

Lemma was_seen_refl x l : In x l -> was_seen x l = true.
Proof.
  intros H. unfold was_seen. apply existsb_exists. exists x.
  split; [exact H|apply node_eqb_refl].
Qed.

Lemma node_eqb_sym a b : node_eqb a b = node_eqb b a.
Proof.
  unfold node_eqb.
  destruct (Node_eq_dec (strip_node a) (strip_node b));
    destruct (Node_eq_dec (strip_node b) (strip_node a)); congruence.
Qed.

Lemma was_seen_equiv x y l :
  node_eqb x y = true -> was_seen y l = true -> was_seen x l = true.
Proof.
  intros Hxy H. unfold was_seen in *. apply existsb_exists in H.
  destruct H as (z & Hz & Hyz). apply existsb_exists. exists z.
  split; [exact Hz|]. apply node_eqb_eq in Hxy. apply node_eqb_eq in Hyz.
  unfold node_eqb.
  destruct (Node_eq_dec (strip_node x) (strip_node z)); congruence.
Qed.

Lemma node_subset_trans a b c :
  node_subset a b = true -> node_subset b c = true ->
  node_subset a c = true.
Proof.
  unfold node_subset. rewrite !forallb_forall. intros Hab Hbc x Hx.
  pose proof (Hab x Hx) as Hs. unfold was_seen in Hs.
  apply existsb_exists in Hs. destruct Hs as (y & Hy & Hxy).
  apply (was_seen_equiv x y c Hxy). apply Hbc. exact Hy.
Qed.

Lemma node_meet_sym a b : node_meet a b = node_meet b a.
Proof.
  assert (H : forall a b, node_meet a b = true -> node_meet b a = true).
  { intros a0 b0 H. unfold node_meet in *. apply existsb_exists in H.
    destruct H as (x & Hx & Hs). unfold was_seen in Hs.
    apply existsb_exists in Hs. destruct Hs as (y & Hy & Hxy).
    apply existsb_exists. exists y. split; [exact Hy|].
    unfold was_seen. apply existsb_exists. exists x.
    split; [exact Hx|]. rewrite node_eqb_sym. exact Hxy. }
  destruct (node_meet a b) eqn:Hab.
  - symmetry. apply H. exact Hab.
  - destruct (node_meet b a) eqn:Hba; [|reflexivity].
    apply H in Hba. congruence.
Qed.

(** X9. [shares_all_roots] is reflexive: when the walk for the roots of
    a list of expressions returns, the list shares all its roots with
    itself, and the test allocates nothing. *)
Theorem shares_all_roots_refl exprs n R n' :
  traverse (_find_root_table lib) any_type true take_all exprs n
  = Ok (R, n') ->
  shares_all_roots lib exprs exprs n = Ok (true, n).
Proof.
  intros H. destruct (roots_walk_pure _ _ _ _ H) as [-> _].
  unfold shares_all_roots, bind. rewrite H, H. unfold ret.
  f_equal. f_equal. unfold node_subset. apply forallb_forall.
  intros x Hx. apply was_seen_refl. exact Hx.
Qed.

(** X10. [shares_all_roots] is transitive. *)
Theorem shares_all_roots_trans a b c n n1 n2 :
  shares_all_roots lib a b n = Ok (true, n1) ->
  shares_all_roots lib b c n = Ok (true, n2) ->
  shares_all_roots lib a c n = Ok (true, n).
Proof.
  unfold shares_all_roots. intros Hab Hbc.
  apply bind_Ok in Hab. destruct Hab as (Ra & m1 & Ha & Hab).
  apply bind_Ok in Hab. destruct Hab as (Rb & m2 & Hb & Hab).
  destruct (roots_walk_pure _ _ _ _ Ha) as [-> _].
  destruct (roots_walk_pure _ _ _ _ Hb) as [-> _].
  unfold ret in Hab. injection Hab as Hab _.
  apply bind_Ok in Hbc. destruct Hbc as (Rb' & m1 & Hb' & Hbc).
  apply bind_Ok in Hbc. destruct Hbc as (Rc & m2 & Hc & Hbc).
  destruct (roots_walk_pure _ _ _ _ Hb') as [-> _].
  destruct (roots_walk_pure _ _ _ _ Hc) as [-> _].
  unfold ret in Hbc. injection Hbc as Hbc _.
  rewrite Hb in Hb'. inv Hb'.
  unfold bind. rewrite Ha, Hc. unfold ret.
  rewrite (node_subset_trans _ _ _ Hab Hbc). reflexivity.
Qed.

(** X11. [shares_some_roots] is symmetric, and allocates nothing. *)
Theorem shares_some_roots_sym a b n v n' :
  shares_some_roots lib a b n = Ok (v, n') ->
  shares_some_roots lib b a n = Ok (v, n).
Proof.
  unfold shares_some_roots. intros H.
  apply bind_Ok in H. destruct H as (Ra & m1 & Ha & H).
  apply bind_Ok in H. destruct H as (Rb & m2 & Hb & H).
  destruct (roots_walk_pure _ _ _ _ Ha) as [-> _].
  destruct (roots_walk_pure _ _ _ _ Hb) as [-> _].
  unfold ret in H. injection H as <- _.
  unfold bind. rewrite Hb, Ha. unfold ret.
  rewrite node_meet_sym. reflexivity.
Qed.

(** X12. Expressions from which no root table is reached, literals for
    one, share all their roots with any parents and share some root
    with none, when the two walks return. *)
Theorem rootless_shares exprs parents n R n1 P n2 :
  traverse (_find_root_table lib) any_type true take_all exprs n
  = Ok (R, n1) ->
  traverse (_find_root_table lib) any_type true take_all parents n
  = Ok (P, n2) ->
  (forall c r, In c exprs -> ~ RootOf lib r c) ->
  shares_all_roots lib exprs parents n = Ok (true, n)
  /\ shares_some_roots lib exprs parents n = Ok (false, n).
Proof.
  intros He Hp Hno.
  destruct (roots_walk_pure _ _ _ _ He) as [-> Hs].
  destruct (roots_walk_pure _ _ _ _ Hp) as [-> _].
  assert (R = []).
  { destruct R as [|r R]; [reflexivity|].
    destruct (Hs r (or_introl eq_refl)) as (c & Hc & Hr).
    destruct (Hno c r Hc Hr). }
  subst R.
  unfold shares_all_roots, shares_some_roots, bind.
  rewrite He, Hp. split; reflexivity.
Qed.

(** Expressions that share all their roots with the parents, and
    have a root, share some root with them. *)
Lemma shares_all_shares_some exprs parents n n1 c r :
  blocks_structural lib ->
  shares_all_roots lib exprs parents n = Ok (true, n1) ->
  In c exprs ->
  RootOf lib r c ->
  shares_some_roots lib exprs parents n = Ok (true, n).
Proof.
  intros Hb H Hc Hr. unfold shares_all_roots in H.
  apply bind_Ok in H. destruct H as (Ra & m1 & Ha & H).
  apply bind_Ok in H. destruct H as (Rb & m2 & Hp & H).
  destruct (roots_spec lib _ _ _ _ Hb Ha) as (-> & _ & Hcomp).
  destruct (roots_walk_pure _ _ _ _ Hp) as [-> _].
  unfold ret in H. injection H as Hsub _.
  destruct (Hcomp c r Hc Hr) as (r' & Hr' & _).
  unfold shares_some_roots, bind. rewrite Ha, Hp. unfold ret.
  f_equal. f_equal. unfold node_meet. apply existsb_exists.
  exists r'. split; [exact Hr'|].
  unfold node_subset in Hsub. rewrite forallb_forall in Hsub.
  apply Hsub. exact Hr'.
Qed.

End SharedRoots.

(** ** More on the simplifier *)

Section SimplifierExtra.

Variable lib : Library.

(** X13. [substitute_parents(expr, past_projection=False)] changes
    nothing: whatever the counter of fresh identities is, it returns
    the expression itself and allocates nothing, or it raises one and
    the same exception. *)
Theorem substitute_parents_blocked fuel e :
  (forall n, substitute_parents lib fuel e false n = Ok (e, n))
  \/ (exists x, forall n, substitute_parents lib fuel e false n = Raise x).
Proof.
  unfold substitute_parents. simpl.
  destruct (get_result_blocked lib fuel e e eq_refl)
    as [[Hx _]|(x & Hx & _)]; [left|right; exists x]; exact Hx.
Qed.

Lemma find_lift_skip nm table post :
  forall acc,
    (forall w, In w post -> has_column lib nm w = false) ->
    find_lift lib (MkNode TableColumn [AExpr table; AVal (AStr nm)])
      (map AExpr post) acc = Ok acc.
Proof.
  induction post as [|w post IH]; intros acc Hno; simpl; [reflexivity|].
  pose proof (Hno w (or_introl eq_refl)) as Hw. unfold has_column in Hw.
  destruct (is_PhysicalTable (cls (op w))); simpl in Hw.
  - unfold node_name, arg_str. simpl. rewrite Hw.
    apply IH. intros w' Hw'. apply Hno. right. exact Hw'.
  - apply IH. intros w' Hw'. apply Hno. right. exact Hw'.
Qed.

Lemma find_lift_last nm table pre v post :
  forall acc,
    has_column lib nm v = true ->
    (forall w, In w post -> has_column lib nm w = false) ->
    find_lift lib (MkNode TableColumn [AExpr table; AVal (AStr nm)])
      (map AExpr (pre ++ v :: post)) acc = Ok (Some v).
Proof.
  induction pre as [|w pre IH]; intros acc Hv Hno; simpl.
  - unfold has_column in Hv. apply andb_true_iff in Hv.
    destruct Hv as [Hpt Hin]. rewrite Hpt.
    unfold node_name, arg_str. simpl. rewrite Hin.
    apply find_lift_skip. exact Hno.
  - destruct (is_PhysicalTable (cls (op w))); [|apply IH; assumption].
    unfold node_name, arg_str. simpl.
    destruct (existsb (String.eqb nm) (schema lib w));
      apply IH; assumption.
Qed.


End SimplifierExtra.

(** ** Parent tables, pushdown and filters *)

Section ParentTables.

Lemma finder_pure e n :
  finder e n = lift_result (descend_or_yield not_ir_table itself e) n.
Proof.
  unfold finder, descend_or_yield, not_ir_table.
  destruct (is_ir_Table (ty e)); reflexivity.
Qed.

Lemma unique_In l :
  forall seen x, In x (unique l seen) -> In x l.
Proof.
  induction l as [|e l IH]; intros seen x H; simpl in H; [contradiction|].
  destruct (existsb (key_eqb (_key e)) seen).
  - right. apply (IH _ _ H).
  - destruct H as [<-|H]; [left; reflexivity|right; apply (IH _ _ H)].
Qed.

(** X15. [find_immediate_parent_tables] returns and allocates nothing;
    each expression it finds is a table expression reached without
    going below a table expression; and for a table expression it
    finds that expression alone: it does not look into tables. *)
Theorem find_immediate_parent_tables_spec e n :
  exists out,
    find_immediate_parent_tables e n = Ok (out, n)
    /\ (forall t, In t out ->
          is_ir_Table (ty t) = true
          /\ Through not_ir_table any_type e t)
    /\ (is_ir_Table (ty e) = true -> out = [e]).
Proof.
  destruct (search_sound not_ir_table itself any_type finder finder_pure
              true take_all [e] n) as (l & Hl & Hs).
  exists (unique l []).
  unfold find_immediate_parent_tables, bind. rewrite Hl.
  split; [reflexivity|]. split.
  - intros t Ht. apply unique_In in Ht.
    destruct (Hs t Ht) as (c & x & [<-|[]] & Hx & HP & ->).
    unfold itself. split; [|exact Hx].
    unfold not_ir_table in HP. apply negb_false_iff in HP. exact HP.
  - intros Hty. unfold traverse in Hl. simpl in Hl. unfold bind in Hl.
    rewrite walk_expr_unfold in Hl. simpl in Hl.
    unfold bind, finder in Hl. rewrite Hty in Hl. simpl in Hl.
    unfold ret in Hl. inv Hl. reflexivity.
Qed.

End ParentTables.

Section Pushdown.

Variable lib : Library.

Lemma is_reduction_pure e n b n' :
  is_reduction e n = Ok (b, n') -> n' = n.
Proof.
  unfold is_reduction. intros H.
  apply bind_Ok in H. destruct H as (l & n1 & Hl & H).
  unfold ret in H. inv H.
  apply (traverse_sound reduction_answer is_reduction_predicate any_type
           true (fun b => b) is_reduction_predicate_pure _ _ _ _ Hl).
Qed.

Lemma PushdownValidate_pure fuel parent pred n b n' :
  PushdownValidate_get_result lib fuel parent pred n = Ok (b, n') ->
  n' = n.
Proof.
  unfold PushdownValidate_get_result. intros H.
  apply bind_Ok in H. destruct H as (red & n1 & Hred & H).
  apply is_reduction_pure in Hred. subst n1.
  destruct red.
  - unfold ret in H. inv H. reflexivity.
  - apply bind_Ok in H. destruct H as (l & n1 & Hl & H).
    unfold ret in H. inv H.
    apply (traverse_sound (column_answer lib fuel parent)
             (validate_column lib fuel parent) is_ir_Value true negb
             (validate_column_pure lib fuel parent) _ _ _ _ Hl).
Qed.

(** X16. [_can_pushdown] allocates nothing, and it answers true exactly
    when [_PushdownValidate] answers true for every predicate of the
    list; so it is true of the empty list. *)
Theorem _can_pushdown_all fuel op predicates n :
  (forall b n',
      _can_pushdown lib fuel op predicates n = Ok (b, n') -> n' = n)
  /\ (_can_pushdown lib fuel op predicates n = Ok (true, n)
      <-> forall p, In p predicates ->
            PushdownValidate_get_result lib fuel op p n = Ok (true, n)).
Proof.
  induction predicates as [|p ps [IHpure IHall]]; simpl.
  - split.
    + intros b n' H. unfold ret in H. inv H. reflexivity.
    + split; [intros _ p []|reflexivity].
  - split.
    + intros b n' H.
      apply bind_Ok in H. destruct H as (v & n1 & Hv & H).
      apply PushdownValidate_pure in Hv. subst n1.
      destruct v; simpl in H.
      * apply (IHpure _ _ H).
      * unfold ret in H. inv H. reflexivity.
    + split.
      * intros H.
        apply bind_Ok in H. destruct H as (v & n1 & Hv & H).
        pose proof (PushdownValidate_pure _ _ _ _ _ _ Hv). subst n1.
        destruct v; simpl in H; [|discriminate].
        intros q [<-|Hq]; [exact Hv|].
        apply (proj1 IHall H q Hq).
      * intros H. unfold bind.
        rewrite (H p (or_introl eq_refl)). simpl.
        apply (proj2 IHall). intros q Hq. apply H. right. exact Hq.
Qed.

End Pushdown.

Section ApplyFilter.

Variable lib : Library.

(** X17. A filter without predicates.  On an expression that is neither
    a selection nor an aggregation, [apply_filter] returns the
    expression itself.  On a selection that blocks and on an
    aggregation it returns a new expression on the same node, when the
    constructor accepts the arguments it had and, for the aggregation,
    the walk for the roots of its table returns. *)
Theorem apply_filter_no_predicates :
  (forall fuel expr n,
      is_Selection (cls (op expr)) = false ->
      is_Aggregation (cls (op expr)) = false ->
      apply_filter lib fuel expr [] n = Ok (expr, n))
  /\ (forall fuel expr table selections predicates sort_keys n,
        op expr
        = MkNode Selection
            (Selection_args table selections predicates sort_keys) ->
        blocks lib (op expr) = true ->
        validate lib Selection (args (op expr)) = None ->
        apply_filter lib fuel expr [] n
        = Ok (MkExpr n (output_type lib (op expr)) None (op expr), S n))
  /\ (forall fuel expr table metrics by_ having predicates sort_keys
             n R n',
        op expr
        = MkNode Aggregation
            (Aggregation_args table metrics by_ having predicates
               sort_keys) ->
        traverse (_find_root_table lib) any_type true take_all [table] n
        = Ok (R, n') ->
        validate lib Aggregation (args (op expr)) = None ->
        apply_filter lib fuel expr [] n
        = Ok (MkExpr n TableExpr None (op expr), S n)).
Proof.
  split; [|split].
  - intros fuel expr n Hs Ha. unfold apply_filter. rewrite Hs, Ha.
    reflexivity.
  - intros fuel expr table selections predicates sort_keys n Hop Hb Hval.
    unfold apply_filter. rewrite Hop. simpl.
    unfold _filter_selection. rewrite Hb. simpl.
    rewrite Hop in *. simpl in *.
    unfold bind, ret, node_predicates, node_table, node_selections,
      node_sort_keys, arg_seq, arg_expr, new_node, Selection_args in *.
    simpl. rewrite app_nil_r. rewrite Hval. reflexivity.
  - intros fuel expr table metrics by_ having predicates sort_keys n R n'
      Hop Hroots Hval.
    destruct (traverse_sound (root_answer lib) (_find_root_table lib)
                any_type true take_all (_find_root_table_pure lib)
                _ _ _ _ Hroots) as [-> _].
    unfold apply_filter. rewrite Hop. simpl.
    rewrite Hop in Hval. simpl in Hval.
    unfold shares_all_roots, bind. simpl.
    rewrite Hroots. unfold ret. simpl.
    unfold new_node, Aggregation_args in *. rewrite app_nil_r.
    rewrite Hval. reflexivity.
Qed.

(** X18. The frame of a filter on an aggregation.  When the predicates,
    with the table of the aggregation replaced by the aggregation in
    those that hold no reduction, share all their roots with that
    table, [apply_filter] returns a new table expression: an
    aggregation with the table, the metrics, the keys, the having
    clauses and the sort keys of the original, and its predicates
    followed by the rewritten ones. *)
Theorem apply_filter_aggregation
  fuel expr table metrics by_ having op_predicates sort_keys
  predicates n simplified n1 n2 :
  op expr
  = MkNode Aggregation
      (Aggregation_args table metrics by_ having op_predicates
         sort_keys) ->
  map_M (fun predicate =>
           reduction <- is_reduction predicate ;;
           if negb reduction
           then sub_for lib fuel predicate [(table, expr)]
           else ret predicate)
        predicates n
  = Ok (simplified, n1) ->
  shares_all_roots lib simplified [table] n1 = Ok (true, n2) ->
  let fused :=
    MkNode Aggregation
      (Aggregation_args table metrics by_ having
         (op_predicates ++ map AExpr simplified) sort_keys) in
  validate lib Aggregation (args fused) = None ->
  apply_filter lib fuel expr predicates n
  = Ok (MkExpr n2 TableExpr None fused, S n2).
Proof.
  intros Hop Hmap Hshares fused Hval.
  unfold apply_filter. rewrite Hop. simpl.
  assert (Hmap' :
    map_M (fun predicate =>
             reduction <- is_reduction predicate ;;
             if negb reduction
             then table0 <- lift_result
                              (node_table
                                 (MkNode Aggregation
                                    (Aggregation_args table metrics by_
                                       having op_predicates sort_keys))) ;;
                  sub_for lib fuel predicate [(table0, expr)]
             else ret predicate)
          predicates n
    = Ok (simplified, n1)).
  { rewrite <- Hmap. reflexivity. }
  unfold bind at 1. rewrite Hmap'.
  unfold bind at 1. cbn -[shares_all_roots new_node bind].
  unfold bind at 1. rewrite Hshares.
  unfold bind. cbn -[new_node].
  unfold new_node. subst fused. simpl in Hval. rewrite Hval.
  reflexivity.
Qed.

End ApplyFilter.

(** ** Rewriting filters *)

Section RewriteFilterExtra.

Variable lib : Library.
Variable NotAny_isa_Any : bool.

Local Abbreviation rewrite := (_rewrite_filter lib NotAny_isa_Any).
Local Abbreviation dispatch := (_rewrite_filter_dispatch NotAny_isa_Any).

(** The argument loop of [_rewrite_filter_value]. *)
Local Abbreviation visit fuel nm :=
  (fix visit (l : list Arg) : M (list Arg) :=
     match l with
     | [] => ret []
     | AExpr arg :: rest =>
         v <- rewrite fuel (op arg) arg nm ;;
         vs <- visit rest ;;
         ret (AExpr v :: vs)
     | a :: rest =>
         vs <- visit rest ;;
         ret (a :: vs)
     end).

Lemma all_is_refl l : all_is l l = true.
Proof.
  induction l as [|a l IH]; simpl; [reflexivity|].
  destruct a; try exact IH. rewrite is__refl. exact IH.
Qed.

Lemma visit_unchanged fuel nm l n :
  (forall a, In (AExpr a) l -> rewrite fuel (op a) a nm n = Ok (a, n)) ->
  visit fuel nm l n = Ok (l, n).
Proof.
  induction l as [|a l IH]; intros H; [reflexivity|].
  assert (Hl : visit fuel nm l n = Ok (l, n)).
  { apply IH. intros b Hb. apply H. right. exact Hb. }
  destruct a as [e|v| |s]; cbn [app]; unfold bind at 1.
  - rewrite (H e (or_introl eq_refl)). unfold bind at 1.
    rewrite Hl. reflexivity.
  - rewrite Hl. reflexivity.
  - rewrite Hl. reflexivity.
  - rewrite Hl. reflexivity.
Qed.




End RewriteFilterExtra.

(** ** Window functions *)

Section WindowizeExtra.

Variable lib : Library.
Variable win : Windows.

(** The argument loop of [_walk]. *)
Local Abbreviation walk_args f w :=
  (fix walk_args (l : list Arg) (unchanged : bool)
     : M (list Arg * bool) :=
     match l with
     | [] => ret ([], unchanged)
     | AExpr arg :: rest =>
         if negb (is_ir_Value (ty arg)) then
           ' (rest', u) <- walk_args rest unchanged ;;
           ret (AExpr arg :: rest', u)
         else
           new_arg <- f arg w ;;
           ' (rest', u) <-
             walk_args rest (unchanged && is_ arg new_arg) ;;
           ret (AExpr new_arg :: rest', u)
     | a :: rest =>
         ' (rest', u) <- walk_args rest unchanged ;;
         ret (a :: rest', u)
     end).

Lemma walk_args_unchanged (f : Expr -> option Arg -> M Expr) w n l :
  (forall a, In (AExpr a) l -> is_ir_Value (ty a) = true ->
             f a w n = Ok (a, n)) ->
  forall u, walk_args f w l u n = Ok (l, u, n).
Proof.
  induction l as [|a l IH]; intros H u; [reflexivity|].
  assert (Hl : forall u0, walk_args f w l u0 n = Ok (l, u0, n)).
  { apply IH. intros b Hb. apply H. right. exact Hb. }
  destruct a as [e|v| |s]; cbn [app].
  - destruct (is_ir_Value (ty e)) eqn:Hty; cbn [negb].
    + unfold bind at 1. rewrite (H e (or_introl eq_refl) Hty).
      unfold bind at 1. rewrite Hl. rewrite is__refl, andb_true_r.
      reflexivity.
    + unfold bind at 1. rewrite Hl. reflexivity.
  - unfold bind at 1. rewrite Hl. reflexivity.
  - unfold bind at 1. rewrite Hl. reflexivity.
  - unfold bind at 1. rewrite Hl. reflexivity.
Qed.

Lemma _walk_unchanged (f : Expr -> option Arg -> M Expr) x w n :
  (forall a, In (AExpr a) (args (op x)) -> is_ir_Value (ty a) = true ->
             f a w n = Ok (a, n)) ->
  _walk lib f x w n = Ok (x, n).
Proof.
  intros H. unfold _walk. unfold bind at 1.
  rewrite (walk_args_unchanged f w n (args (op x)) H true).
  reflexivity.
Qed.

Lemma window_class_false c :
  window_class c = false ->
  is_Analytic c = false /\ is_Reduction c = false /\ is_Window c = false.
Proof.
  unfold window_class. intros H.
  apply orb_false_iff in H. destruct H as [H Hw].
  apply orb_false_iff in H. destruct H as [Ha Hr]. auto.
Qed.

Lemma _windowize_unwindowed e :
  Unwindowed e ->
  forall fuel w n,
    depth e <= fuel ->
    _windowize lib win fuel e w n = Ok (e, n).
Proof.
  induction 1 as [e Hc Hargs IH]; intros fuel w n Hfuel.
  destruct fuel as [|fuel]; [destruct e; simpl in Hfuel; lia|].
  apply window_class_false in Hc. destruct Hc as (Ha & Hr & Hw).
  cbn [_windowize]. rewrite Hw. cbn [negb]. unfold bind at 1.
  rewrite _walk_unchanged.
  - rewrite Ha, Hr, Hw. reflexivity.
  - intros a Hin Hty. apply IH; [exact Hin|exact Hty|].
    apply depth_arg in Hin. lia.
Qed.




End WindowizeExtra.

(** ** Mutations *)

Section MutationExtra.

Variable lib : Library.
Variable is_DestructColumn : Expr -> bool.
Variable destruct_names : Expr -> list string.

Local Abbreviation loop := (mutation_loop is_DestructColumn destruct_names).
Local Abbreviation overwrites_ :=
  (overwrites is_DestructColumn destruct_names).
Local Abbreviation get_mutation_exprs_ :=
  (get_mutation_exprs lib is_DestructColumn destruct_names).

Lemma destruct_loop_none sch e names :
  existsb (in_schema sch) names = false ->
  forall d first contains,
    destruct_loop sch e names d first contains = (d, contains).
Proof.
  induction names as [|nm names IH]; intros H d first contains; simpl.
  - reflexivity.
  - simpl in H. apply orb_false_iff in H. destruct H as [Hnm Hrest].
    unfold in_schema in Hnm. rewrite Hnm. apply IH. exact Hrest.
Qed.

Lemma mutation_loop_none sch exprs :
  (forall e, In e exprs ->
             unassignable is_DestructColumn e = false
             /\ overwrites_ sch e = false) ->
  forall d acc, loop sch exprs d acc = Ok (d, acc ++ exprs).
Proof.
  induction exprs as [|e exprs IH]; intros H d acc; simpl.
  - rewrite app_nil_r. reflexivity.
  - destruct (H e (or_introl eq_refl)) as [Hu Ho].
    assert (Hrest : forall d0 acc0,
               loop sch exprs d0 (acc0 ++ [e])
               = Ok (d0, acc0 ++ e :: exprs)).
    { intros d0 acc0. rewrite IH.
      - rewrite <- app_assoc. reflexivity.
      - intros e' He'. apply H. right. exact He'. }
    unfold unassignable, overwrites in Hu, Ho.
    destruct (is_DestructColumn e).
    + rewrite Hu. rewrite (destruct_loop_none sch e _ Ho). simpl.
      apply Hrest.
    + destruct (is_ir_Value (ty e)); [|apply Hrest].
      simpl in Hu. apply negb_false_iff in Hu.
      unfold has_name in Hu. unfold get_name.
      destruct (name e) as [nm|]; [|discriminate].
      unfold in_schema in Ho. rewrite Ho. apply Hrest.
Qed.

(** X25. A mutation that overwrites no column selects the table and
    then the expressions: when every expression can be assigned and
    none has a name of a column of the table, [get_mutation_exprs]
    returns the table followed by the expressions, and allocates
    nothing. *)
Theorem get_mutation_exprs_new_columns exprs table n :
  (forall e, In e exprs ->
             unassignable is_DestructColumn e = false
             /\ overwrites_ (schema lib table) e = false) ->
  get_mutation_exprs_ exprs table n = Ok (table :: exprs, n).
Proof.
  intros H. unfold get_mutation_exprs, bind.
  rewrite (mutation_loop_none _ _ H). reflexivity.
Qed.

Lemma mutation_loop_raises sch exprs d acc x :
  loop sch exprs d acc = Raise x -> x = ExpressionError.
Proof.
  revert d acc. induction exprs as [|e exprs IH]; intros d acc H;
    simpl in H; [discriminate|].
  destruct (is_DestructColumn e).
  - destruct (has_name e); [inv H; reflexivity|].
    destruct (destruct_loop sch e (destruct_names e) d true false)
      as [d' c].
    apply (IH _ _ H).
  - destruct (is_ir_Value (ty e)); [|apply (IH _ _ H)].
    unfold get_name in H. destruct (name e) as [nm|].
    + destruct (existsb (String.eqb nm) sch); apply (IH _ _ H).
    + inv H. reflexivity.
Qed.

Lemma mutation_loop_unassignable sch exprs :
  (exists e, In e exprs /\ unassignable is_DestructColumn e = true) ->
  forall d acc, loop sch exprs d acc = Raise ExpressionError.
Proof.
  induction exprs as [|e exprs IH]; intros (b & Hb & Hbad) d acc.
  { destruct Hb. }
  assert (Hrest : In b exprs ->
            forall d0 acc0, loop sch exprs d0 acc0 = Raise ExpressionError).
  { intros Hin. apply IH. exists b. auto. }
  simpl. unfold unassignable in Hbad.
  destruct Hb as [<-|Hb].
  - destruct (is_DestructColumn e).
    + rewrite Hbad. reflexivity.
    + apply andb_true_iff in Hbad. destruct Hbad as [Hv Hn].
      rewrite Hv. apply negb_true_iff in Hn. unfold has_name in Hn.
      unfold get_name. destruct (name e); [discriminate|reflexivity].
  - destruct (is_DestructColumn e).
    + destruct (has_name e); [reflexivity|].
      destruct (destruct_loop sch e (destruct_names e) d true false)
        as [d' c].
      apply Hrest. exact Hb.
    + destruct (is_ir_Value (ty e)); [|apply Hrest; exact Hb].
      unfold get_name. destruct (name e) as [nm|]; [|reflexivity].
      destruct (existsb (String.eqb nm) sch); apply Hrest; exact Hb.
Qed.

(** X26. [get_mutation_exprs] raises [ExpressionError] when one of the
    expressions is a destruct column with a name or another value
    expression without a name, wherever it is in the list. *)
Theorem get_mutation_exprs_unassignable exprs table n e :
  In e exprs ->
  unassignable is_DestructColumn e = true ->
  get_mutation_exprs_ exprs table n = Raise ExpressionError.
Proof.
  intros He Hbad. unfold get_mutation_exprs, bind.
  rewrite (mutation_loop_unassignable (schema lib table) exprs).
  - reflexivity.
  - exists e. auto.
Qed.

Lemma in_schema_In sch c : In c sch -> in_schema sch c = true.
Proof.
  intros H. unfold in_schema. apply existsb_exists. exists c.
  split; [exact H|apply String.eqb_refl].
Qed.

Lemma last_named_exists nm exprs e :
  In e exprs -> name e = Some nm ->
  exists e', last_named nm exprs = Some e'.
Proof.
  induction exprs as [|x exprs IH]; intros Hin Hnm; [destruct Hin|].
  simpl. destruct (last_named nm exprs) as [e'|] eqn:Hl; [eauto|].
  destruct Hin as [->|Hin].
  - rewrite Hnm, String.eqb_refl. eauto.
  - destruct (IH Hin Hnm) as (e' & He'). discriminate.
Qed.

(** The dictionary after the loop over named value expressions. *)
Lemma mutation_loop_named sch exprs :
  (forall e, In e exprs ->
             is_DestructColumn e = false
             /\ is_ir_Value (ty e) = true /\ has_name e = true) ->
  forall d acc,
  exists d',
    loop sch exprs d acc = Ok (d', acc ++ filter (new_column sch) exprs)
    /\ forall c, in_schema sch c = true ->
         overwrites_get d' c
         = match last_named c exprs with
           | Some e => Some (Some e)
           | None => overwrites_get d c
           end.
Proof.
  induction exprs as [|e exprs IH]; intros H d acc; simpl.
  - exists d. rewrite app_nil_r. split; [reflexivity|]. reflexivity.
  - destruct (H e (or_introl eq_refl)) as (Hd & Hv & Hn).
    assert (Hrest : forall e', In e' exprs ->
              is_DestructColumn e' = false
              /\ is_ir_Value (ty e') = true /\ has_name e' = true).
    { intros e' He'. apply H. right. exact He'. }
    rewrite Hd, Hv. unfold has_name in Hn. unfold get_name, new_column.
    destruct (name e) as [nm|] eqn:Hname; [|discriminate].
    fold (in_schema sch nm).
    destruct (in_schema sch nm) eqn:Hin; simpl.
    + destruct (IH Hrest ((nm, Some e) :: d) acc) as (d' & Hl & Hget).
      exists d'. split; [exact Hl|].
      intros c Hc. rewrite (Hget c Hc). simpl.
      destruct (last_named c exprs); [reflexivity|].
      destruct (String.eqb nm c); reflexivity.
    + destruct (IH Hrest d (acc ++ [e])) as (d' & Hl & Hget).
      exists d'. split.
      * rewrite Hl. rewrite <- app_assoc. reflexivity.
      * intros c Hc. rewrite (Hget c Hc).
        destruct (last_named c exprs); [reflexivity|].
        destruct (String.eqb nm c) eqn:Heq; [|reflexivity].
        apply String.eqb_eq in Heq. subst c. congruence.
Qed.

Lemma mutation_columns_entries table exprs d columns :
  (forall c n, exists r n', Table_getitem lib table c n = Ok (r, n')) ->
  (forall c, In c columns ->
     overwrites_get d c
     = match last_named c exprs with
       | Some e => Some (Some e)
       | None => None
       end) ->
  forall n,
  exists cols n',
    mutation_columns lib table d columns n = Ok (cols, n')
    /\ Forall2 (mutation_entry lib table exprs) columns cols.
Proof.
  intros Htotal. induction columns as [|c columns IH]; intros Hd n.
  - exists [], n. split; [reflexivity|constructor].
  - simpl. unfold bind.
    destruct (Htotal c n) as (r1 & n1 & ->).
    rewrite (Hd c (or_introl eq_refl)).
    destruct (Htotal c n1) as (r2 & n2 & Hr2).
    destruct (IH (fun c0 Hc0 => Hd c0 (or_intror Hc0)) n2)
      as (cols & n3 & Hcols & Hall).
    destruct (last_named c exprs) as [e|] eqn:Hlast.
    + exists (e :: cols), n3. split.
      * unfold bind. rewrite Hr2, Hcols. reflexivity.
      * constructor; [|exact Hall].
        unfold mutation_entry. rewrite Hlast. reflexivity.
    + exists (r2 :: cols), n3. split.
      * unfold bind. rewrite Hr2, Hcols. reflexivity.
      * constructor; [|exact Hall].
        unfold mutation_entry. rewrite Hlast. eauto.
Qed.


End MutationExtra.

(** ** More on substitutions *)

Section SubstituteExtra.

Variable lib : Library.

Lemma _substitute_key_free mapping fuel :
  SubSpec cache_structural (KeyFree lib mapping)
    (fun e r => strip r = strip e) (_substitute lib fuel mapping).
Proof.
  induction fuel as [|fuel IH]; intros e c n r c' n' HI Hfree H.
  - discriminate.
  - simpl in H. destruct Hfree as [e Hget Hargs]. rewrite Hget in H.
    destruct (blocks lib (op e)) eqn:Hb.
    { unfold ret in H. inv H. auto. }
    apply bind_Ok in H. destruct H as ([[l' u] c1] & n1 & Hl & H).
    assert (Hmemo : SubSpec cache_structural (KeyFree lib mapping)
                      (fun e r => strip r = strip e)
                      (memoize (_substitute lib fuel mapping))).
    { apply memoize_spec.
      - exact IH.
      - intros c0 e0 v HI0 _ Hg. apply HI0. exact Hg.
      - intros c0 e0 r0 HI0 _ HP k v. rewrite cache_get_set.
        destruct (key_eqb (_key e0) k) eqn:Hk.
        + intros Hv. inv Hv. apply key_eqb_eq in Hk. subst k. exact HP.
        + apply HI0. }
    destruct (substitute_args_spec _ _ _ _ Hmemo _ _ _ _ _ _ _ _ HI
                (Hargs eq_refl) Hl) as (HI1 & HF & _ & _).
    apply ArgSub_strip in HF.
    destruct u.
    { unfold ret in H. inv H. auto. }
    destruct (new_node lib (cls (op e)) l') as [nn|x] eqn:Hnn.
    + unfold new_node in Hnn.
      destruct (validate lib (cls (op e)) l'); [discriminate|]. inv Hnn.
      apply bind_Ok in H. destruct H as (ne & n2 & Hne & H).
      unfold alloc in Hne. inv Hne.
      destruct (name e) as [nm|] eqn:Hname.
      * apply bind_Ok in H. destruct H as (ne' & n3 & Hne' & H).
        unfold rename, alloc in Hne'. simpl in Hne'. inv Hne'.
        unfold ret in H. inv H. split; [|assumption].
        apply rebuilt_strip; auto.
      * unfold ret in H. inv H. split; [|assumption].
        apply rebuilt_strip; auto.
    + destruct x; try discriminate.
      unfold ret in H. inv H. auto.
Qed.

(** X28. A substitution whose keys do not occur changes no structure.
    When neither the node of the expression nor, below the nodes that
    do not block, the node of an argument is a key of the mapping,
    whatever [Substitutor().substitute] returns is structurally equal
    to the expression; and it does return when the recursion budget
    covers the depth of the expression and node constructors raise
    nothing but [IbisTypeError]. *)
Theorem substitute_key_free fuel e mapping n :
  KeyFree lib mapping e ->
  (forall r n',
      Substitutor_substitute lib fuel e mapping n = Ok (r, n') ->
      strip r = strip e)
  /\ (only_type_errors lib ->
      depth e <= fuel ->
      exists r n', Substitutor_substitute lib fuel e mapping n = Ok (r, n')).
Proof.
  intros Hfree. split.
  - intros r n' H. unfold Substitutor_substitute, substitute in H.
    apply bind_Ok in H. destruct H as ([r1 c1] & n1 & Hr & H).
    unfold ret in H. inv H.
    assert (Hmemo : SubSpec cache_structural (KeyFree lib mapping)
                      (fun e r => strip r = strip e)
                      (memoize (_substitute lib fuel mapping))).
    { apply memoize_spec.
      - apply _substitute_key_free.
      - intros c0 e0 v HI0 _ Hg. apply HI0. exact Hg.
      - intros c0 e0 r0 HI0 _ HP k v. rewrite cache_get_set.
        destruct (key_eqb (_key e0) k) eqn:Hk.
        + intros Hv. inv Hv. apply key_eqb_eq in Hk. subst k. exact HP.
        + apply HI0. }
    assert (Hnil : cache_structural []).
    { intros k v Hg. discriminate. }
    destruct (Hmemo _ _ _ _ _ _ Hnil Hfree Hr) as [HP _]. exact HP.
  - intros Hval Hd.
    apply (Substitutor_substitute_total lib Hval fuel mapping e n Hd).
Qed.

Lemma sub_for_mapping_snoc substitutions k v :
  fold_left (fun m kv => mapping_set m (op (fst kv)) (snd kv))
    (substitutions ++ [(k, v)]) []
  = (op k, v)
    :: fold_left (fun m kv => mapping_set m (op (fst kv)) (snd kv))
         substitutions [].
Proof. rewrite fold_left_app. reflexivity. Qed.

(** X29. The last substitution for a key is the one that applies: when
    the key of the last pair of the list is structurally equal to the
    expression, [sub_for] returns the value of that pair, whatever
    pairs come before it, and allocates nothing. *)
Theorem sub_for_last_wins fuel e substitutions k v n :
  equals k e = true ->
  sub_for lib (S fuel) e (substitutions ++ [(k, v)]) n = Ok (v, n).
Proof.
  intros Heq. unfold sub_for. rewrite sub_for_mapping_snoc.
  unfold Substitutor_substitute, substitute, memoize, bind. simpl.
  unfold equals in Heq. rewrite Heq. reflexivity.
Qed.

End SubstituteExtra.

(** ** More on projection fusion *)

Section FusionExtra.

Variable lib : Library.

(** X30. The frame of a fusion: a node that [try_fusion] returns is a
    selection over the table of the root with the predicates and the
    sort keys of the root. *)
Theorem try_fusion_frame fuel self root n nd n' :
  try_fusion lib fuel self root n = Ok (Some nd, n') ->
  exists table fused predicates sort_keys,
    node_table root = Ok table
    /\ node_predicates root = Ok predicates
    /\ node_sort_keys root = Ok sort_keys
    /\ nd = MkNode Selection
              (Selection_args table fused predicates sort_keys).
Proof.
  unfold try_fusion. intros H.
  destruct (negb (node_eqb (op (parent self)) root)); [discriminate|].
  apply bind_Ok in H. destruct H as (table & n1 & Ht & H).
  apply lift_result_Ok in Ht. destruct Ht as [Ht ->].
  apply bind_Ok in H. destruct H as (resolved & n2 & Hres & H).
  destruct resolved as [resolved|]; [|discriminate].
  unfold fuse in H. destruct resolved as [|r0 rs]; [discriminate|].
  apply bind_Ok in H. destruct H as (sels & n3 & Hs & H).
  apply bind_Ok in H. destruct H as ([fused can] & n4 & Hloop & H).
  destruct can; [|discriminate].
  apply bind_Ok in H. destruct H as (preds & n5 & Hp & H).
  apply lift_result_Ok in Hp. destruct Hp as [Hp ->].
  apply bind_Ok in H. destruct H as (sorts & n6 & Hk & H).
  apply lift_result_Ok in Hk. destruct Hk as [Hk ->].
  apply bind_Ok in H. destruct H as (nd0 & n7 & Hn & H).
  apply lift_result_Ok in Hn. destruct Hn as [Hn ->].
  unfold ret in H. inv H.
  unfold new_node in Hn.
  destruct (validate lib Selection
              (Selection_args table fused preds sorts)); inv Hn.
  exists table, fused, preds, sorts. auto.
Qed.

End FusionExtra.

(** ** The other functions at concrete expressions *)

Section MoreExamples.

Ltac yield_cases H :=
  let Hg := fresh "Hg" in
  let Hin := fresh "Hin" in
  let Hc := fresh "Hc" in
  inversion H as [? ? ? _ Hg|? ? ? ? _ Hg Hin Hc]; subst; clear H.

(** No root table is reached from a literal. *)
Lemma ex_literal_rootless c r :
  In c [ex_named_one] -> ~ RootOf lib0 r c.
Proof.
  intros [<-|[]] H. unfold RootOf in H. yield_cases H.
  - discriminate.
  - destruct Hin.
Qed.

Lemma ex_pred_unrewritten b : Unrewritten b ex_pred.
Proof.
  apply Unrewritten_value; [reflexivity|].
  intros a [H|[H|[]]]; inv H; apply Unrewritten_leaf; reflexivity.
Qed.

Lemma ex_t_a_unwindowed : Unwindowed ex_t_a.
Proof.
  constructor; [reflexivity|].
  intros a [H|[H|[]]] Hty; inv H. discriminate.
Qed.

Lemma ex_zero_unwindowed : Unwindowed ex_zero.
Proof.
  constructor; [reflexivity|]. intros a [H|[]]. discriminate.
Qed.

Lemma ex_pred_unwindowed : Unwindowed ex_pred.
Proof.
  constructor; [reflexivity|].
  intros a [H|[H|[]]] _; inv H;
    [apply ex_t_a_unwindowed|apply ex_zero_unwindowed].
Qed.

Lemma ex_pred_key_free : KeyFree lib0 [(op ex_u, ex_t)] ex_pred.
Proof.
  constructor; [reflexivity|]. intros _ a [H|[H|[]]]; inv H.
  - constructor; [reflexivity|]. intros _ a [H|[H|[]]]; inv H.
    constructor; [reflexivity|]. intros Hb. discriminate.
  - constructor; [reflexivity|]. intros _ a [H|[]]. discriminate.
Qed.

Lemma lib0_getitem_total table c n :
  exists r n', Table_getitem lib0 table c n = Ok (r, n').
Proof. eexists. eexists. reflexivity. Qed.

Lemma flatten_predicate_flat_witness :
  flatten_predicate ex_pred 7 = Ok ([ex_pred], 7).
Proof.
  apply (flatten_predicate_flat ex_and 100 [ex_pred; ex_pred_b] 100
           ex_pred).
  - reflexivity.
  - left. reflexivity.
Defined.

Lemma is_reduction_is_analytic_witness :
  is_analytic ex_sum_pred 100 = Ok (true, 100).
Proof.
  apply (is_reduction_is_analytic ex_sum_pred 100 100). reflexivity.
Defined.

Lemma shares_all_roots_refl_witness :
  shares_all_roots lib0 [ex_proj_pred] [ex_proj_pred] 100 = Ok (true, 100).
Proof.
  eapply (shares_all_roots_refl lib0 [ex_proj_pred] 100). reflexivity.
Defined.

Lemma shares_all_roots_trans_witness :
  shares_all_roots lib0 [ex_t_a] [ex_proj_pred] 100 = Ok (true, 100).
Proof.
  apply (shares_all_roots_trans lib0 [ex_t_a] [ex_proj] [ex_proj_pred]
           100 100 100); reflexivity.
Defined.

Lemma shares_some_roots_sym_witness :
  shares_some_roots lib0 [ex_proj] [ex_t_a] 100 = Ok (true, 100).
Proof.
  apply (shares_some_roots_sym lib0 [ex_t_a] [ex_proj] 100 true 100).
  reflexivity.
Defined.

Lemma rootless_shares_witness :
  shares_all_roots lib0 [ex_named_one] [ex_t] 100 = Ok (true, 100)
  /\ shares_some_roots lib0 [ex_named_one] [ex_t] 100 = Ok (false, 100).
Proof.
  eapply (rootless_shares lib0 [ex_named_one] [ex_t] 100).
  - reflexivity.
  - reflexivity.
  - exact ex_literal_rootless.
Defined.


Lemma apply_filter_aggregation_witness :
  apply_filter lib0 5 ex_agg [ex_sum_pred] 100
  = Ok (MkExpr 100 TableExpr None
          (MkNode Aggregation
             (Aggregation_args ex_t [AExpr ex_sum] [] []
                [AExpr ex_sum_pred] [])), 101).
Proof.
  apply (apply_filter_aggregation lib0 5 ex_agg ex_t [AExpr ex_sum] [] []
           [] [] [ex_sum_pred] 100 [ex_sum_pred] 100 100);
    reflexivity.
Defined.







Lemma get_mutation_exprs_new_columns_witness :
  get_mutation_exprs lib0 is_destruct0 destruct_names0 [ex_new_c2] ex_t 100
  = Ok ([ex_t; ex_new_c2], 100).
Proof.
  apply (get_mutation_exprs_new_columns lib0 is_destruct0 destruct_names0
           [ex_new_c2] ex_t 100).
  intros e [<-|[]]. split; reflexivity.
Defined.

Lemma get_mutation_exprs_unassignable_witness :
  get_mutation_exprs lib0 is_destruct0 destruct_names0
    [ex_new_c2; ex_pred] ex_t 100
  = Raise ExpressionError.
Proof.
  apply (get_mutation_exprs_unassignable lib0 is_destruct0 destruct_names0
           [ex_new_c2; ex_pred] ex_t 100 ex_pred).
  - right. left. reflexivity.
  - reflexivity.
Defined.


Lemma substitute_key_free_witness :
  exists r n',
    Substitutor_substitute lib0 5 ex_pred [(op ex_u, ex_t)] 100
    = Ok (r, n')
    /\ strip r = strip ex_pred.
Proof.
  destruct (substitute_key_free lib0 5 ex_pred [(op ex_u, ex_t)] 100
              ex_pred_key_free) as [Hsame Hreturns].
  destruct Hreturns as (r & n' & Hr).
  - exact lib0_only_type_errors.
  - vm_compute. lia.
  - exists r, n'. split; [exact Hr|]. apply (Hsame r n' Hr).
Defined.

Lemma sub_for_last_wins_witness :
  sub_for lib0 1 ex_t_a ([(ex_t_a, ex_zero)] ++ [(ex_t_a, ex_u_c)]) 100
  = Ok (ex_u_c, 100).
Proof.
  apply (sub_for_last_wins lib0 0 ex_t_a [(ex_t_a, ex_zero)] ex_t_a
           ex_u_c 100).
  reflexivity.
Defined.

Lemma try_fusion_frame_witness :
  exists table fused predicates sort_keys,
    node_table (op ex_proj_pred) = Ok table
    /\ node_predicates (op ex_proj_pred) = Ok predicates
    /\ node_sort_keys (op ex_proj_pred) = Ok sort_keys
    /\ MkNode Selection
         (Selection_args ex_t [AExpr ex_t_a] [AExpr ex_pred] [])
       = MkNode Selection (Selection_args table fused predicates sort_keys).
Proof.
  apply (try_fusion_frame lib0 5 (projector_of ex_proj_pred [ex_t_a])
           (op ex_proj_pred) 100 _ 100).
  reflexivity.
Defined.

End MoreExamples.
